(** * struct_flags: flag collection, precedence, positional binding and dispatch

    A shallow embedding of [flags.go] of the [struct_flags] package.  The
    file is present in two revisions.  The earlier one has no positional
    arguments; the later one adds [fillPositionalArgs], [GetRemainingArgs]
    and [mergeArgsFileArgs].  The two revisions of [collectStructFlags]
    differ in the guard at the head of the loop only, so the walker is
    written once and takes the revision as an argument.  The dispatcher
    ([Commands.Run], [parseCommandFlags]) is that of the later revision.

    Modelling choices:
    - Strings are byte strings; [int] has 64 bits.
    - A record in memory is a finite map from field paths to leaf values, so
      that a pointer to a field is its path and a type table may be
      recursive.
    - The [set] closure of a descriptor is the field it writes; the flag it
      reads is the one registered under the descriptor's name.
    - A panic is a result of its own; the environment and the files read
      are threaded through the dispatcher.
    - The Go standard library functions the package calls ([strings],
      [strconv], [os.ExpandEnv], [os.Setenv], the [flag] package) are
      modelled from their documented behaviour.
    - What [Execute] returns, and the rewording of validation errors, are
      left to the caller: a dispatch that reaches a command ends in
      [Executed]. *)

From Stdlib Require Import ZArith Ascii String List Lia.
From stdpp Require Import gmap strings list.

Local Open Scope string_scope.
Local Open Scope Z_scope.

(** ** Package [strings] *)

Module strings.

Definition lower (c : ascii) : ascii :=
  let n := nat_of_ascii c in
  if ((65 <=? n) && (n <=? 90))%nat then ascii_of_nat (n + 32) else c.

(** [strings.ToLower], on ASCII letters. *)
Fixpoint ToLower (s : string) : string :=
  match s with
  | EmptyString => EmptyString
  | String c r => String (lower c) (ToLower r)
  end.

(** [strings.HasPrefix]. *)
Definition HasPrefix (s p : string) : bool := String.prefix p s.

(** [strings.Split(s, sep)] for a one-byte separator: always at least one
    piece. *)
Fixpoint Split (s : string) (sep : ascii) : list string :=
  match s with
  | EmptyString => [EmptyString]
  | String c r =>
      if Ascii.eqb c sep then EmptyString :: Split r sep
      else match Split r sep with
           | h :: t => String c h :: t
           | [] => [String c EmptyString]
           end
  end.

(** [strings.SplitN(s, sep, 2)] for a one-byte separator: one piece when
    the separator is absent, otherwise the text before and after its
    first occurrence. *)
Fixpoint SplitN2 (s : string) (sep : ascii) : list string :=
  match s with
  | EmptyString => [EmptyString]
  | String c r =>
      if Ascii.eqb c sep then [EmptyString; r]
      else match SplitN2 r sep with
           | [h] => [String c h]
           | h :: t => String c h :: t
           | [] => [String c EmptyString]
           end
  end.

(** [strings.Replace(s, "  ", " ", -1)]: every non-overlapping pair of
    spaces, scanning from the left, becomes one space. *)
Fixpoint ReplaceDoubleSpace (s : string) : string :=
  match s with
  | EmptyString => EmptyString
  | String c r =>
      match r with
      | String c' r' =>
          if Ascii.eqb c " " && Ascii.eqb c' " "
          then String " " (ReplaceDoubleSpace r')
          else String c (ReplaceDoubleSpace r)
      | EmptyString => String c EmptyString
      end
  end.

(** Does the byte occur in the string? *)
Fixpoint ContainsByte (s : string) (c : ascii) : bool :=
  match s with
  | EmptyString => false
  | String a r => Ascii.eqb a c || ContainsByte r c
  end.

End strings.

(** ** Package [strconv] *)

Module strconv.

(** [strconv.ParseBool]. *)
Definition ParseBool (s : string) : option bool :=
  if existsb (String.eqb s) ["1"; "t"; "T"; "TRUE"; "true"; "True"] then Some true
  else if existsb (String.eqb s) ["0"; "f"; "F"; "FALSE"; "false"; "False"] then Some false
  else None.

(** Value of one digit: decimal digits, then letters from ten on. *)
Definition digit (c : ascii) : option Z :=
  let n := Z.of_nat (nat_of_ascii c) in
  if (48 <=? n) && (n <=? 57) then Some (n - 48)
  else let l := Z.of_nat (nat_of_ascii (strings.lower c)) in
       if (97 <=? l) && (l <=? 122) then Some (l - 97 + 10) else None.

(** The digit loop of [ParseUint]: every byte must be a digit below the
    base. *)
Fixpoint digits (base : Z) (acc : Z) (s : string) : option Z :=
  match s with
  | EmptyString => Some acc
  | String c r =>
      match digit c with
      | Some d => if d <? base then digits base (acc * base + d) r else None
      | None => None
      end
  end.

Definition stripSign (s : string) : bool * string :=
  match s with
  | String "+" r => (false, r)
  | String "-" r => (true, r)
  | _ => (false, s)
  end.

Definition inInt64 (neg : bool) (un : Z) : option Z :=
  if neg then (if un <=? 2 ^ 63 then Some (- un) else None)
  else (if un <? 2 ^ 63 then Some un else None).

(** [strconv.ParseInt(s, 10, 64)]. *)
Definition ParseInt10 (s : string) : option Z :=
  match s with
  | EmptyString => None
  | _ =>
      let '(neg, r) := stripSign s in
      match r with
      | EmptyString => None
      | _ => match digits 10 0 r with
             | Some un => inInt64 neg un
             | None => None
             end
      end
  end.

(** [strconv.ParseInt(s, 0, 64)]: the base is taken from the prefix
    ([0b], [0o], [0x], a leading [0] for octal, decimal otherwise).  Digit
    separators ([_]) are not modelled. *)
Definition ParseInt0 (s : string) : option Z :=
  match s with
  | EmptyString => None
  | _ =>
      let '(neg, r) := stripSign s in
      match r with
      | EmptyString => None
      | String "0" r1 =>
          let long := (3 <=? String.length r)%nat in
          let '(base, body) :=
            match r1 with
            | String c r2 =>
                if long && Ascii.eqb (strings.lower c) "b" then (2, r2)
                else if long && Ascii.eqb (strings.lower c) "o" then (8, r2)
                else if long && Ascii.eqb (strings.lower c) "x" then (16, r2)
                else (8, r1)
            | EmptyString => (8, r1)
            end in
          match digits base 0 body with
          | Some un => inInt64 neg un
          | None => None
          end
      | _ => match digits 10 0 r with
             | Some un => inInt64 neg un
             | None => None
             end
      end
  end.

End strconv.

(** ** Package [os]: the process environment *)

Module os.

(** The process environment: variable name to value. *)
Abbreviation environ := (gmap string string).

Definition LookupEnv (env : environ) (key : string) : option string := env !! key.

Definition Getenv (env : environ) (key : string) : string :=
  default EmptyString (env !! key).

Definition NUL : ascii := ascii_of_nat 0.

(** [os.Setenv]: the system call rejects an empty key, a key holding [=]
    or a NUL byte, and a value holding a NUL byte. *)
Definition Setenv (env : environ) (key value : string) : option environ :=
  if String.eqb key EmptyString
     || strings.ContainsByte key "=" || strings.ContainsByte key NUL
     || strings.ContainsByte value NUL
  then None
  else Some (<[key := value]> env).

Definition isShellSpecialVar (c : ascii) : bool :=
  existsb (Ascii.eqb c)
    ["*"; "#"; "$"; "@"; "!"; "?"; "-"; "0"; "1"; "2"; "3"; "4"; "5"; "6"; "7"; "8"; "9"]%char.

Definition isAlphaNum (c : ascii) : bool :=
  let n := nat_of_ascii c in
  (Ascii.eqb c "_" || ((48 <=? n) && (n <=? 57)) || ((97 <=? n) && (n <=? 122))
   || ((65 <=? n) && (n <=? 90)))%nat.

(** Index of the first occurrence of a byte. *)
Fixpoint indexByte (s : string) (c : ascii) : option nat :=
  match s with
  | EmptyString => None
  | String a r => if Ascii.eqb a c then Some 0%nat else S <$> indexByte r c
  end.

Fixpoint takeWhile (f : ascii -> bool) (s : string) : string :=
  match s with
  | EmptyString => EmptyString
  | String a r => if f a then String a (takeWhile f r) else EmptyString
  end.

Definition take (n : nat) (s : string) : string := String.substring 0 n s.
Definition drop (n : nat) (s : string) : string :=
  String.substring n (String.length s - n) s.

(** [getShellName]: the name after a [$] and the number of bytes it
    takes.  The argument is never empty. *)
Definition getShellName (s : string) : string * nat :=
  match s with
  | String "{" r =>
      let special :=
        match r with
        | String c (String "}" _) => isShellSpecialVar c
        | _ => false
        end in
      if special then (take 1 r, 3%nat)
      else match indexByte r "}" with
           | Some O => (EmptyString, 2%nat)
           | Some k => (take k r, (k + 2)%nat)
           | None => (EmptyString, 1%nat)
           end
  | String c r =>
      if isShellSpecialVar c then (String c EmptyString, 1%nat)
      else let name := takeWhile isAlphaNum s in (name, String.length name)
  | EmptyString => (EmptyString, 0%nat)
  end.

(** [os.Expand] with [os.Getenv] as the mapping, that is [os.ExpandEnv].
    The loop index only moves forward, so the length of the text bounds
    the number of rounds. *)
Fixpoint expandLoop (fuel : nat) (env : environ) (s : string) : string :=
  match fuel with
  | O => s
  | S fuel' =>
      match s with
      | EmptyString => EmptyString
      | String c r =>
          if Ascii.eqb c "$" && negb (String.eqb r EmptyString) then
            let '(name, w) := getShellName r in
            let piece :=
              if String.eqb name EmptyString then
                (if (0 <? w)%nat then EmptyString else "$")
              else Getenv env name in
            piece ++ expandLoop fuel' env (drop w r)
          else String c (expandLoop fuel' env r)
      end
  end.

Definition ExpandEnv (env : environ) (s : string) : string :=
  expandLoop (String.length s) env s.

End os.

(** ** Package [reflect]: types, struct fields and addressable records *)

Module reflect.

(** The kind of a field's type, with what the walker and the closures look
    at: whether the key of a map is of kind string, whether the type can be
    assigned a [map[string]string] (for a map) or a [[]string] (for a
    slice), and the name of a nested struct or interface type. *)
Inductive Kind :=
| String
| Bool
| Int
| Int64
| Map (keyString assignable : bool)
| Slice (assignable : bool)
| Struct (t : string)
| Interface (t : string)
| Other.

#[global] Instance Kind_eq_dec : EqDecision Kind.
Proof. solve_decision. Defined.

Definition Kind_code (k : Kind) : nat + (bool * bool + (bool + (string + string))) :=
  match k with
  | String => inl 0%nat
  | Bool => inl 1%nat
  | Int => inl 2%nat
  | Int64 => inl 3%nat
  | Other => inl 4%nat
  | Map a b => inr (inl (a, b))
  | Slice a => inr (inr (inl a))
  | Struct t => inr (inr (inr (inl t)))
  | Interface t => inr (inr (inr (inr t)))
  end.

Definition Kind_decode (c : nat + (bool * bool + (bool + (string + string)))) : Kind :=
  match c with
  | inl 0%nat => String
  | inl 1%nat => Bool
  | inl 2%nat => Int
  | inl 3%nat => Int64
  | inl _ => Other
  | inr (inl (a, b)) => Map a b
  | inr (inr (inl a)) => Slice a
  | inr (inr (inr (inl t))) => Struct t
  | inr (inr (inr (inr t))) => Interface t
  end.

#[global] Instance Kind_countable : Countable Kind.
Proof.
  apply (inj_countable' Kind_code Kind_decode).
  intros []; reflexivity.
Defined.

(** A struct field with its tag values ([Tag.Get] gives the empty string
    for an absent key).  Fields are taken to be exported. *)
Record StructField := {
  Name : string;
  flagTag : string;
  usageTag : string;
  envTag : string;
  validateTag : string;
  Type_ : Kind }.

(** The struct types of the program, by name.  A name without a
    definition has no fields.  The table may describe recursive types;
    the walker must cope with them. *)
Abbreviation Types := (gmap string (list StructField)).

Definition fields (ts : Types) (t : string) : list StructField :=
  default [] (ts !! t).

(** Values of leaf fields.  A nil slice or map is the empty one. *)
Inductive Leaf :=
| VString (s : string)
| VBool (b : bool)
| VInt (z : Z)
| VSlice (l : list string)
| VMap (m : gmap string string).

(** A record in memory: the leaf values under the root, addressed by the
    path of field indices.  An absent path holds the zero value. *)
Abbreviation Record_ := (gmap (list nat) Leaf).

Definition getString (r : Record_) (p : list nat) : string :=
  match r !! p with Some (VString s) => s | _ => EmptyString end.
Definition getBool (r : Record_) (p : list nat) : bool :=
  match r !! p with Some (VBool b) => b | _ => false end.
Definition getInt (r : Record_) (p : list nat) : Z :=
  match r !! p with Some (VInt z) => z | _ => 0 end.
Definition getSlice (r : Record_) (p : list nat) : list string :=
  match r !! p with Some (VSlice l) => l | _ => [] end.
Definition getMap (r : Record_) (p : list nat) : gmap string string :=
  match r !! p with Some (VMap m) => m | _ => ∅ end.

End reflect.

(** ** The package's two accumulating flag values *)

Record stringMapEntry := { key : string; value : string }.

(** [Set] on a [stringArray]: the pieces between commas are appended. *)
Definition stringArray_Set (sa : list string) (v : string) : list string :=
  (sa ++ strings.Split v ",")%list.

(** [Set] on a [stringMap]: each piece between commas is appended as an entry,
    [key=value] or a bare [key] with an empty value. *)
Definition stringMap_Set (sm : list stringMapEntry) (v : string) : list stringMapEntry :=
  fold_left
    (fun sm e =>
       match strings.SplitN2 e "=" with
       | [k] => (sm ++ [{| key := k; value := EmptyString |}])%list
       | k :: v :: _ => (sm ++ [{| key := k; value := v |}])%list
       | [] => sm
       end)
    (strings.Split v ",") sm.

(** ** Package [flag] *)

Module flag.

(** The values a flag can hold ([flag.Value]): the three built-in ones the
    walker uses, and the package's [stringMap] and [stringArray]. *)
Inductive Value :=
| stringValue (s : string)
| boolValue (b : bool)
| intValue (z : Z)
| stringMap (sm : list stringMapEntry)
| stringArray (sa : list string).

Definition IsBoolFlag (v : Value) : bool :=
  match v with boolValue _ => true | _ => false end.

(** [Value.Set]: [None] is the error of a value that does not parse. *)
Definition Set_ (v : Value) (s : string) : option Value :=
  match v with
  | stringValue _ => Some (stringValue s)
  | boolValue _ => boolValue <$> strconv.ParseBool s
  | intValue _ => intValue <$> strconv.ParseInt0 s
  | stringMap sm => Some (stringMap (stringMap_Set sm s))
  | stringArray sa => Some (stringArray (stringArray_Set sa s))
  end.

(** The formal flags of a [FlagSet], by name. *)
Abbreviation FlagSet := (gmap string Value).

(** [FlagSet.Var] (and [String], [Bool], [Int], which call it): defining a
    name twice panics, which is [None]. *)
Definition Var (fs : FlagSet) (name : string) (v : Value) : option FlagSet :=
  match fs !! name with
  | Some _ => None
  | None => Some (<[name := v]> fs)
  end.

Inductive Error :=
| ErrBadSyntax (s : string)
| ErrHelp
| ErrNotDefined (name : string)
| ErrInvalidBoolean (value name : string)
| ErrNeedsArgument (name : string)
| ErrInvalidValue (value name : string).

(** What a token is to [parseOne]. *)
Inductive Token :=
| NonFlag
| Terminator
| BadSyntax
| IsFlag (name : string) (value : option string).

(** Split [name=value] at the first [=] that is not the first byte. *)
Definition splitValue (name : string) : string * option string :=
  match name with
  | String.String c r =>
      match os.indexByte r "=" with
      | Some k => (String.String c (os.take k r), Some (os.drop (S k) r))
      | None => (name, None)
      end
  | EmptyString => (name, None)
  end.

Definition classify (s : string) : Token :=
  match s with
  | String.String "-" (String.String c r as s1) =>
      let '(minuses2, name) :=
        if Ascii.eqb c "-" then (true, r) else (false, s1) in
      if minuses2 && String.eqb r EmptyString then Terminator
      else match name with
           | EmptyString => BadSyntax
           | String.String "-" _ => BadSyntax
           | String.String "=" _ => BadSyntax
           | _ => let '(n, v) := splitValue name in IsFlag n v
           end
  | _ => NonFlag
  end.

(** [FlagSet.Parse]: the loop over [parseOne], which is written inline so
    that the recursion is on the token list.  The result is the error, or
    the flag set after all [Set] calls with the tokens left ([Args]). *)
Fixpoint Parse (fs : FlagSet) (args : list string) : Error + FlagSet * list string :=
  match args with
  | [] => inr (fs, [])
  | s :: rest =>
      match classify s with
      | NonFlag => inr (fs, args)
      | Terminator => inr (fs, rest)
      | BadSyntax => inl (ErrBadSyntax s)
      | IsFlag name hasValue =>
          match fs !! name with
          | None =>
              if String.eqb name "help" || String.eqb name "h" then inl ErrHelp
              else inl (ErrNotDefined name)
          | Some fl =>
              if IsBoolFlag fl then
                let v := default "true" hasValue in
                match Set_ fl v with
                | Some fl' => Parse (<[name := fl']> fs) rest
                | None => inl (ErrInvalidBoolean v name)
                end
              else
                match hasValue, rest with
                | Some v, _ =>
                    match Set_ fl v with
                    | Some fl' => Parse (<[name := fl']> fs) rest
                    | None => inl (ErrInvalidValue v name)
                    end
                | None, v :: rest' =>
                    match Set_ fl v with
                    | Some fl' => Parse (<[name := fl']> fs) rest'
                    | None => inl (ErrInvalidValue v name)
                    end
                | None, [] => inl (ErrNeedsArgument name)
                end
          end
      end
  end.

End flag.

(** ** Results of code that may panic *)

Inductive PanicMsg :=
| ExpectedPointer            (* "expected *T, got: ..." *)
| CycleInFlagTypes (t : reflect.Kind)   (* "cycle in flag types found for type: ..." *)
| FlagRedefined (name : string)         (* flag: "flag redefined: ..." *)
| NumFieldOfNonStruct        (* reflect: NumField of a value that is no struct *)
| NotAssignable              (* reflect: Set with a value of another type *)
| IndexOutOfRange            (* runtime error: index out of range *)
| ExpectedStructOrSlice      (* "expected struct or slice type, got: ..." *)
| ExpectedStructPointer      (* "expected *struct{}, got: ..." *)
| InvalidPositionalArgs (name : string) (* "invalid positional args: ..." *)
| NoCommandName              (* "... has no ICommand.Name()" *)
| NilFunction.               (* call of a nil func value *)

(** A computation returns, panics, or (in the two recursions that are not
    structural) stops for lack of fuel.  The lemmas [walker_fuel_from_empty]
    and [Run_fuel] show that the fuel the callers supply is always enough. *)
Inductive result (A : Type) :=
| Ok (a : A)
| Panic (m : PanicMsg)
| OutOfFuel.
Arguments Ok {A} a.
Arguments Panic {A} m.
Arguments OutOfFuel {A}.

#[global] Instance result_bind : MBind result :=
  fun A B (k : A -> result B) (r : result A) =>
    match r with
    | Ok a => k a
    | Panic m => Panic m
    | OutOfFuel => OutOfFuel
    end.

(** ** The schema walker *)

(** The two revisions of [flags.go]. *)
Inductive revision := Earlier | Later.

(** What a flag's [set] closure does when it is run: it reads the flag of
    the descriptor's name and stores its value in the field at the path it
    captured.  For maps and slices the closure also captured whether the
    field's type can take a [map[string]string] or a [stringArray]. *)
Inductive setter :=
| setString (p : list nat)
| setBool (p : list nat)
| setInt (p : list nat)
| setMap (p : list nat) (assignable : bool)
| setSlice (p : list nat) (assignable : bool).

Record flagInfo := {
  name : string;
  usage : string;
  env : string;
  validate : string;
  set : option setter }.

(** [readPositionalArg]: the text between the brackets of [[name]], or the
    empty string. *)
Definition readPositionalArg (arg : string) : string :=
  let n := String.length arg in
  if ((2 <? n)%nat
      && bool_decide (String.get 0 arg = Some "["%char)
      && bool_decide (String.get (n - 1) arg = Some "]"%char))
  then String.substring 1 (n - 2) arg
  else EmptyString.

(** [readFlagInfo] for one field: no descriptor when the first
    comma-separated part of the [flag] tag is empty.  The earlier revision
    has no [validate] member. *)
Definition readFlagInfo (rev : revision) (f : reflect.StructField) (prefix : string)
  : option flagInfo :=
  match strings.Split (reflect.flagTag f) "," with
  | flagTag0 :: _ =>
      if String.eqb flagTag0 EmptyString then None
      else Some {| name := prefix ++ flagTag0;
                   usage := reflect.usageTag f;
                   env := reflect.envTag f;
                   validate := match rev with
                               | Earlier => EmptyString
                               | Later => reflect.validateTag f
                               end;
                   set := None |}
  | [] => None
  end.

(** [flagInfo.readEnv]: [k] is the kind of the variable the pointer
    argument points to and [v] its value; the result is the new value when
    the function returns true.  Only the kinds [String], [Bool] and [Int]
    are handled. *)
Definition readEnv (fi : flagInfo) (environ : os.environ) (k : reflect.Kind)
    (v : reflect.Leaf) : option reflect.Leaf :=
  if String.eqb (env fi) EmptyString then None
  else match os.LookupEnv environ (env fi) with
       | None => None
       | Some envValue =>
           match k with
           | reflect.String => Some (reflect.VString envValue)
           | reflect.Bool => reflect.VBool <$> strconv.ParseBool envValue
           | reflect.Int => reflect.VInt <$> strconv.ParseInt10 envValue
           | _ => None
           end
       end.

(** The state the walk threads through: the flag set being filled, the
    descriptors collected so far, and the types on the current chain. *)
Record walk := {
  flagSet : flag.FlagSet;
  collected : list flagInfo;
  seen : gset reflect.Kind }.

Definition register (w : walk) (info : flagInfo) (v : flag.Value) (s : setter)
  : result walk :=
  match flag.Var (flagSet w) (name info) v with
  | None => Panic (FlagRedefined (name info))
  | Some fs =>
      Ok {| flagSet := fs;
            collected := collected w ++
              [{| name := name info; usage := usage info; env := env info;
                  validate := validate info; set := Some s |}];
            seen := seen w |}
  end.

(** The guard at the head of the loop body: the earlier revision skips a
    field without descriptor; the later one also skips a field whose
    [readPositionalArg] is empty. *)
Definition skipped (rev : revision) (info : flagInfo) : bool :=
  match rev with
  | Earlier => false
  | Later => String.eqb (readPositionalArg (name info)) EmptyString
  end.

(** The prefix for the fields of a nested record: none when the flag name
    is the squash marker, the name and a dot otherwise. *)
Definition childPrefix (info : flagInfo) : string :=
  if String.eqb (name info) "-" then EmptyString else name info ++ ".".

Section Walker.

Variable rev : revision.
Variable types : reflect.Types.
Variable environ : os.environ.
Variable defaults : reflect.Record_.

(** One round of the loop over the fields, for field [i] at path [p]; [rec]
    is the recursive call of the walker. *)
Definition collectField
    (rec : walk -> string -> reflect.Kind -> option reflect.Kind -> list nat -> result walk)
    (w : walk) (prefix : string) (p : list nat) (i : nat) (f : reflect.StructField)
  : result walk :=
  match readFlagInfo rev f prefix with
  | None => Ok w
  | Some info =>
      if skipped rev info then Ok w
      else
        let q := (p ++ [i])%list in
        match reflect.Type_ f with
        | reflect.String =>
            let df := reflect.VString (reflect.getString defaults q) in
            let df := default df (readEnv info environ reflect.String df) in
            register w info
              (flag.stringValue (match df with reflect.VString s => s | _ => EmptyString end))
              (setString q)
        | reflect.Bool =>
            let df := reflect.VBool (reflect.getBool defaults q) in
            let df := default df (readEnv info environ reflect.Bool df) in
            register w info
              (flag.boolValue (match df with reflect.VBool b => b | _ => false end))
              (setBool q)
        | reflect.Int =>
            (* [df] is an [int64] here, so [readEnv] sees the kind [Int64] *)
            let df := reflect.VInt (reflect.getInt defaults q) in
            let df := default df (readEnv info environ reflect.Int64 df) in
            register w info
              (flag.intValue (match df with reflect.VInt z => z | _ => 0 end))
              (setInt q)
        | reflect.Map keyString assignable =>
            if negb keyString then Ok w
            else register w info (flag.stringMap []) (setMap q assignable)
        | reflect.Slice assignable =>
            register w info (flag.stringArray []) (setSlice q assignable)
        | (reflect.Struct _ | reflect.Interface _) as t =>
            rec w (childPrefix info) t (Some t) q
        | _ => Ok w
        end
  end.

Fixpoint collectFields
    (rec : walk -> string -> reflect.Kind -> option reflect.Kind -> list nat -> result walk)
    (w : walk) (prefix : string) (p : list nat) (i : nat) (fs : list reflect.StructField)
  : result walk :=
  match fs with
  | [] => Ok w
  | f :: fs' =>
      w' ← collectField rec w prefix p i f;
      collectFields rec w' prefix p (S i) fs'
  end.

(** [collectStructFlags].  [defaultsT] is the type of [defaults], [focusT]
    the type [focus] points to ([None] when [focus] is no pointer) and [p]
    the place of both values under their roots. *)
Fixpoint collectStructFlags (fuel : nat) (w : walk) (prefix : string)
    (defaultsT : reflect.Kind) (focusT : option reflect.Kind) (p : list nat)
  : result walk :=
  match fuel with
  | O => OutOfFuel
  | S fuel' =>
      if negb (bool_decide (focusT = Some defaultsT)) then Panic ExpectedPointer
      else if bool_decide (defaultsT ∈ seen w) then Panic (CycleInFlagTypes defaultsT)
      else
        let w := {| flagSet := flagSet w; collected := collected w;
                    seen := {[ defaultsT ]} ∪ seen w |} in
        match defaultsT with
        | reflect.Struct t =>
            w' ← collectFields (collectStructFlags fuel') w prefix p 0 (reflect.fields types t);
            Ok {| flagSet := flagSet w'; collected := collected w';
                  seen := seen w' ∖ {[ defaultsT ]} |}
        | _ => Panic NumFieldOfNonStruct
        end
  end.

End Walker.

(** ** Parsing into a record *)

(** The storage of the flag registered under a name, as the [set] closures
    read it through the pointer that [fs.String], [fs.Bool], [fs.Int] or
    the walker's own variable gave them. *)
Definition flagString (fs : flag.FlagSet) (n : string) : string :=
  match fs !! n with Some (flag.stringValue s) => s | _ => EmptyString end.
Definition flagBool (fs : flag.FlagSet) (n : string) : bool :=
  match fs !! n with Some (flag.boolValue b) => b | _ => false end.
Definition flagInt (fs : flag.FlagSet) (n : string) : Z :=
  match fs !! n with Some (flag.intValue z) => z | _ => 0 end.
Definition flagMap (fs : flag.FlagSet) (n : string) : list stringMapEntry :=
  match fs !! n with Some (flag.stringMap sm) => sm | _ => [] end.
Definition flagArray (fs : flag.FlagSet) (n : string) : list string :=
  match fs !! n with Some (flag.stringArray sa) => sa | _ => [] end.

(** The loop of the map closure: [m[e.key] = e.value] for each collected
    entry, in order. *)
Definition buildMap (sm : list stringMapEntry) : gmap string string :=
  fold_left (fun m e => <[key e := value e]> m) sm ∅.

(** One call [f.set()]. *)
Definition runSet (fs : flag.FlagSet) (focus : reflect.Record_) (f : flagInfo)
  : result reflect.Record_ :=
  match set f with
  | None => Panic NilFunction
  | Some (setString p) => Ok (<[p := reflect.VString (flagString fs (name f))]> focus)
  | Some (setBool p) => Ok (<[p := reflect.VBool (flagBool fs (name f))]> focus)
  | Some (setInt p) => Ok (<[p := reflect.VInt (flagInt fs (name f))]> focus)
  | Some (setMap p assignable) =>
      if assignable
      then Ok (<[p := reflect.VMap (buildMap (flagMap fs (name f)))]> focus)
      else Panic NotAssignable
  | Some (setSlice p assignable) =>
      if assignable
      then Ok (<[p := reflect.VSlice (flagArray fs (name f))]> focus)
      else Panic NotAssignable
  end.

Fixpoint runSets (fs : flag.FlagSet) (focus : reflect.Record_) (flags : list flagInfo)
  : result reflect.Record_ :=
  match flags with
  | [] => Ok focus
  | f :: flags' => focus' ← runSet fs focus f; runSets fs focus' flags'
  end.

(** The walk never needs more rounds of recursion than there are struct
    types, plus one. *)
Definition walkFuel (types : reflect.Types) : nat := S (size (dom types)).

Definition emptyWalk : walk := {| flagSet := ∅; collected := []; seen := ∅ |}.

(** [flagSet.UnmarshalFlags]: walk, parse, then run the closures from the
    last collected to the first.  The result is the parse error, or the
    filled record with [fs.Args()]. *)
Definition UnmarshalFlags (rev : revision) (types : reflect.Types) (environ : os.environ)
    (defaultsT : reflect.Kind) (defaults : reflect.Record_)
    (args : list string) (focusT : option reflect.Kind) (focus : reflect.Record_)
  : result (flag.Error + reflect.Record_ * list string) :=
  w ← collectStructFlags rev types environ defaults (walkFuel types) emptyWalk
        EmptyString defaultsT focusT [];
  match flag.Parse (flagSet w) args with
  | inl err => Ok (inl err)
  | inr (fs, rest) =>
      focus' ← runSets fs focus (reverse (collected w));
      Ok (inr (focus', rest))
  end.

(** ** Positional arguments (later revision) *)

(** The inner loop of [fillPositionalArgs]: the first field whose bracketed
    flag name is [argName] and whose kind is [String] or [Slice]. *)
Inductive positional :=
| NoField
| StringField (i : nat)
| SliceField (i : nat) (assignable : bool).

Fixpoint findPositional (fs : list reflect.StructField) (i : nat) (argName : string)
  : positional :=
  match fs with
  | [] => NoField
  | f :: fs' =>
      match readFlagInfo Later f EmptyString with
      | None => findPositional fs' (S i) argName
      | Some info =>
          if negb (String.eqb (readPositionalArg (name info)) argName)
          then findPositional fs' (S i) argName
          else match reflect.Type_ f with
               | reflect.String => StringField i
               | reflect.Slice assignable => SliceField i assignable
               | _ => findPositional fs' (S i) argName
               end
      end
  end.

(** The loop labelled [Args]; [total] is [len(positionalArgs)] and [names]
    what is left of it; [pos] counts the tokens bound so far. *)
Fixpoint fillArgs (fields : list reflect.StructField) (total : nat) (names : list string)
    (focus : reflect.Record_) (pos : nat) (argsAfterFlags : list string)
  : result (reflect.Record_ * list string) :=
  match names with
  | [] => Ok (focus, drop pos argsAfterFlags)
  | argName :: names' =>
      if ((total <=? pos) || (length argsAfterFlags <=? pos))%nat
      then Ok (focus, drop pos argsAfterFlags)
      else match findPositional fields 0 argName with
           | StringField i =>
               match argsAfterFlags !! pos with
               | Some s =>
                   fillArgs fields total names' (<[ [i] := reflect.VString s ]> focus)
                     (S pos) argsAfterFlags
               | None => Panic IndexOutOfRange
               end
           | SliceField i assignable =>
               if assignable
               then Ok (<[ [i] := reflect.VSlice (drop pos argsAfterFlags) ]> focus, [])
               else Panic NotAssignable
           | NoField => Ok (focus, drop pos argsAfterFlags)
           end
  end.

(** [fillPositionalArgs]; [t] is the type [value] points to. *)
Definition fillPositionalArgs (types : reflect.Types) (positionalArgs : list string)
    (t : reflect.Kind) (focus : reflect.Record_) (argsAfterFlags : list string)
  : result (reflect.Record_ * list string) :=
  match t with
  | reflect.Struct n =>
      fillArgs (reflect.fields types n) (length positionalArgs) positionalArgs
        focus 0 argsAfterFlags
  | _ => Panic ExpectedStructPointer
  end.

(** What a command receives as its flags. *)
Inductive flagsValue :=
| NilFlags
| SliceFlags (args : list string)
| StructFlags (r : reflect.Record_).

(** [parseCommandFlags] of the later revision.  [commandFlags] is the
    command's [DefaultFlags()]: nothing, or a value with its type (a pointer
    is followed).  The destination is a fresh zero value of that type. *)
Definition parseCommandFlags (types : reflect.Types) (environ : os.environ)
    (commandFlags : option (reflect.Kind * reflect.Record_))
    (positionalArgs : list string) (commandArgs : list string)
  : result (flag.Error + list string * flagsValue) :=
  match commandFlags with
  | None => Ok (inr ([], NilFlags))
  | Some (ft, defaults) =>
      match ft with
      | reflect.Slice _ => Ok (inr ([], SliceFlags commandArgs))
      | reflect.Struct _ =>
          r ← UnmarshalFlags Later types environ ft defaults commandArgs (Some ft) ∅;
          match r with
          | inl err => Ok (inl err)
          | inr (focus, remaining) =>
              '(focus', remaining') ← fillPositionalArgs types positionalArgs ft focus remaining;
              Ok (inr (remaining', StructFlags focus'))
          end
      | _ => Panic ExpectedStructOrSlice
      end
  end.

(** ** Commands, groups and the dispatch context (later revision) *)

Record ArgFile := {
  Command : list string;
  Args : list string;
  Env : list string }.

Module command.
Record t := {
  name : string;
  usage : string;
  defaultFlags : option (reflect.Kind * reflect.Record_);
  execute : nat  (* which handler: the function itself is the caller's *) }.
End command.

(** [ICommand]: a command or a group of commands. *)
#[warnings="-register-all"]
Inductive ICommand :=
| Command_ (c : command.t)
| CommandGroup_ (name usage : string) (commands : list ICommand).

Abbreviation Commands := (list ICommand).

(** [command.Name]: the first word of the declared name. *)
Definition command_Name (c : command.t) : string :=
  match strings.SplitN2 (strings.ReplaceDoubleSpace (command.name c)) " " with
  | part0 :: _ => part0
  | [] => EmptyString
  end.

Definition Name (c : ICommand) : string :=
  match c with
  | Command_ c => command_Name c
  | CommandGroup_ n _ _ => n
  end.

Definition Usage (c : ICommand) : string :=
  match c with
  | Command_ c => command.usage c
  | CommandGroup_ _ u _ => u
  end.

(** [command.PositionalArgs]: the words after the first, each of which must
    be a bracketed name. *)
Fixpoint positionalParts (whole : string) (parts : list string) : result (list string) :=
  match parts with
  | [] => Ok []
  | arg :: parts' =>
      let a := readPositionalArg arg in
      if String.eqb a EmptyString then Panic (InvalidPositionalArgs whole)
      else args ← positionalParts whole parts'; Ok (a :: args)
  end.

Definition PositionalArgs (c : command.t) : result (list string) :=
  positionalParts (command.name c)
    (drop 1 (strings.Split (strings.ReplaceDoubleSpace (command.name c)) " ")).

(** The values the dispatcher keeps in the [context.Context]. *)
Record Context := {
  parentCommands : list string;
  argFile : option ArgFile;
  remainingArgs : list string }.

Definition withParentCommands (ctx : Context) (parents : list string) : Context :=
  {| parentCommands := parents; argFile := argFile ctx; remainingArgs := remainingArgs ctx |}.
Definition withArgFile (ctx : Context) (af : ArgFile) : Context :=
  {| parentCommands := parentCommands ctx; argFile := Some af;
     remainingArgs := remainingArgs ctx |}.
Definition withRemainingArgs (ctx : Context) (remaining : list string) : Context :=
  {| parentCommands := parentCommands ctx; argFile := argFile ctx;
     remainingArgs := remaining |}.

(** What reading and decoding a file gives. *)
Inductive fileResult :=
| NoSuchFile
| BadJSON
| Decoded (af : ArgFile).

(** The part of the world that [Run] changes: the process environment, and
    the names of the files read so far (a record of the calls of
    [ioutil.ReadFile], latest first). *)
Record World := {
  environ : os.environ;
  reads : list string }.

Inductive RunError :=
| CouldNotOpen
| CouldNotRead
| FailedToApply (entry : string)
| FlagError (err : flag.Error).

(** How a call of [Run] ends when it does not panic: with the usage text of
    a forest, with an error, or by calling [Execute] of a command with the
    context and the flags (what [Execute] returns is then returned, a
    validation error being reworded line by line). *)
Inductive Outcome :=
| UsageOf (cs : list (string * string)) (exe : string)
| Failed (err : RunError)
| Executed (c : command.t) (ctx : Context) (arg : flagsValue).

(** [Commands.usage]: needs [args[0]] and a name for every entry; the result
    lists the names and usage texts in order. *)
Definition usage_ (cs : Commands) (args : list string) : result Outcome :=
  match args with
  | [] => Panic IndexOutOfRange
  | exe :: _ =>
      if existsb (fun c => String.eqb (Name c) EmptyString) cs then Panic NoCommandName
      else Ok (UsageOf (map (fun c => (Name c, Usage c)) cs) exe)
  end.

(** The loop of [mergeArgsFileArgs] over the [env] entries.  An entry
    without [=] splits into one piece and [kv[1]] is out of range. *)
Fixpoint applyEnv (e : os.environ) (entries : list string)
  : result (os.environ * option RunError) :=
  match entries with
  | [] => Ok (e, None)
  | entry :: entries' =>
      match strings.SplitN2 entry "=" with
      | k :: v :: _ =>
          match os.Setenv e k (os.ExpandEnv e v) with
          | Some e' => applyEnv e' entries'
          | None => Ok (e, Some (FailedToApply entry))
          end
      | _ => Panic IndexOutOfRange
      end
  end.

(** The loop of [Run] over the forest: a matching command is remembered and
    the loop goes on (the [break] leaves the [switch] only); a matching
    group ends the loop. *)
Inductive selection :=
| SelectedGroup (commands : list ICommand)
| SelectedCommand (c : option command.t).

Fixpoint selectCommand (cs : Commands) (currentCommandName : string)
    (command : option command.t) : selection :=
  match cs with
  | [] => SelectedCommand command
  | c :: cs' =>
      if String.eqb (strings.ToLower (Name c)) currentCommandName then
        match c with
        | Command_ t => selectCommand cs' currentCommandName (Some t)
        | CommandGroup_ _ _ sub => SelectedGroup sub
        end
      else selectCommand cs' currentCommandName command
  end.

Section Dispatch.

Variable types : reflect.Types.
Variable files : string -> fileResult.

(** [mergeArgsFileArgs]. *)
Definition mergeArgsFileArgs (filename : string) (ctx : Context) (w : World)
    (args : list string)
  : result (World * (RunError + list string * Context)) :=
  let w := {| environ := environ w; reads := filename :: reads w |} in
  match files filename with
  | NoSuchFile => Ok (w, inl CouldNotOpen)
  | BadJSON => Ok (w, inl CouldNotRead)
  | Decoded af =>
      let ctx := withArgFile ctx af in
      '(e, err) ← applyEnv (environ w) (Env af);
      let w := {| environ := e; reads := reads w |} in
      match err with
      | Some err => Ok (w, inl err)
      | None =>
          let n := length (parentCommands ctx) in
          let mergedArgs :=
            (take (n + 1) args ++ Command af ++ map (os.ExpandEnv e) (Args af)
               ++ drop (n + 2) args)%list in
          Ok (w, inr (mergedArgs, ctx))
      end
  end.

(** [Commands.Run]. *)
Fixpoint Run (fuel : nat) (cs : Commands) (ctx : Context) (w : World) (args : list string)
  : result (World * Outcome) :=
  match fuel with
  | O => OutOfFuel
  | S fuel' =>
      let parents := parentCommands ctx in
      let minArgs := (length parents + 2)%nat in
      if (length args <? minArgs)%nat then u ← usage_ cs args; Ok (w, u)
      else
        match args !! (length parents + 1)%nat with
        | None => Panic IndexOutOfRange
        | Some a =>
            let currentCommandName := strings.ToLower a in
            if strings.HasPrefix currentCommandName "@" && bool_decide (argFile ctx = None)
            then
              '(w', r) ← mergeArgsFileArgs (os.drop 1 currentCommandName) ctx w args;
              match r with
              | inl err => Ok (w', Failed err)
              | inr (mergedArgs, ctx') => Run fuel' cs ctx' w' mergedArgs
              end
            else
              match selectCommand cs currentCommandName None with
              | SelectedGroup sub =>
                  Run fuel' sub
                    (withParentCommands ctx (parents ++ [currentCommandName])) w args
              | SelectedCommand None => u ← usage_ cs args; Ok (w, u)
              | SelectedCommand (Some c) =>
                  if String.eqb (command_Name c) EmptyString
                  then u ← usage_ cs args; Ok (w, u)
                  else
                    positionalArgs ← PositionalArgs c;
                    r ← parseCommandFlags types (environ w) (command.defaultFlags c)
                          positionalArgs (drop minArgs args);
                    match r with
                    | inl err => Ok (w, Failed (FlagError err))
                    | inr (remaining, arg) =>
                        Ok (w, Executed c (withRemainingArgs ctx remaining) arg)
                    end
              end
        end
  end.

End Dispatch.

(** The nesting depth of a forest: the fuel [Run] needs beyond the one
    argument file it may load. *)
Fixpoint depth (c : ICommand) : nat :=
  match c with
  | Command_ _ => 0
  | CommandGroup_ _ _ sub => S (list_max (map depth sub))
  end.

Definition forestDepth (cs : Commands) : nat := list_max (map depth cs).

Definition runFuel (cs : Commands) : nat := forestDepth cs + 3.

(** ** Sample records, commands and files *)

Definition field (n tag envVar : string) (k : reflect.Kind) : reflect.StructField :=
  {| reflect.Name := n; reflect.flagTag := tag; reflect.usageTag := EmptyString;
     reflect.envTag := envVar; reflect.validateTag := EmptyString; reflect.Type_ := k |}.

(** The record types of the package's tests, and a few more: [Node], [Ping]
    and [Pong] are recursive (with plain and with bracketed flag names),
    [Pair] has two fields of one type. *)
Definition sampleTypes : reflect.Types :=
  {[ "Object" := [field "String1" "string1" "" reflect.String;
                  field "String2" "string2" "" reflect.String];
     "Flags" := [field "String" "string" "" reflect.String;
                 field "Int" "int" "INT" reflect.Int;
                 field "Bool" "bool" "BOOL" reflect.Bool;
                 field "List" "list" "" (reflect.Slice true);
                 field "NestedFlags" "nested" "" (reflect.Struct "Object");
                 field "Map" "map" "" (reflect.Map true true)];
     "cmd" := [field "Flag" "flag" "" reflect.String];
     "ex1" := [field "String" "string" "" reflect.String;
               field "Hidden" "" "" reflect.String];
     "pos" := [field "File" "[file]" "" reflect.String;
               field "Rest" "[rest...]" "" (reflect.Slice true)];
     "Node" := [field "Next" "next" "" (reflect.Struct "Node")];
     "Ping" := [field "Pong" "[pong]" "" (reflect.Struct "Pong")];
     "Pong" := [field "Ping" "[ping]" "" (reflect.Struct "Ping")];
     "Pair" := [field "Left" "left" "" (reflect.Struct "Object");
                field "Right" "right" "" (reflect.Struct "Object")] ]}.

Definition sampleCommand (n : string) (t : string) (handler : nat) : command.t :=
  {| command.name := n; command.usage := EmptyString;
     command.defaultFlags := Some (reflect.Struct t, ∅); command.execute := handler |}.

Definition sampleFiles (filename : string) : fileResult :=
  if String.eqb filename "args.json" then
    Decoded {| Command := ["cmd"]; Args := ["--flag=$b"]; Env := ["b=1"; "x=a$b"] |}
  else if String.eqb filename "self.json" then
    Decoded {| Command := ["@self.json"]; Args := []; Env := [] |}
  else if String.eqb filename "foo.json" then
    Decoded {| Command := ["cmd"]; Args := []; Env := ["FOO"] |}
  else NoSuchFile.

Definition emptyContext : Context :=
  {| parentCommands := []; argFile := None; remainingArgs := [] |}.

Definition emptyWorld : World := {| environ := ∅; reads := [] |}.

(** Defaults for [Flags]: a string and a list that are not the zero
    value. *)
Definition sampleDefaults : reflect.Record_ :=
  {[ [0%nat] := reflect.VString "default"; [3%nat] := reflect.VSlice ["x"] ]}.

(** ** Notions used in the statements *)

(** The field a descriptor's closure writes. *)
Definition target (f : flagInfo) : option (list nat) :=
  match set f with
  | Some (setString p) | Some (setBool p) | Some (setInt p)
  | Some (setMap p _) | Some (setSlice p _) => Some p
  | None => None
  end.

(** The value a flag starts from: the environment's value when the
    descriptor names a variable that is set and parses, otherwise the value
    in [defaults]; accumulating flags start empty. *)
Definition initialValue (environ : os.environ) (defaults : reflect.Record_)
    (f : flagInfo) : option flag.Value :=
  match set f with
  | Some (setString p) =>
      Some (flag.stringValue
              (match readEnv f environ reflect.String
                       (reflect.VString (reflect.getString defaults p)) with
               | Some (reflect.VString s) => s
               | _ => reflect.getString defaults p
               end))
  | Some (setBool p) =>
      Some (flag.boolValue
              (match readEnv f environ reflect.Bool
                       (reflect.VBool (reflect.getBool defaults p)) with
               | Some (reflect.VBool b) => b
               | _ => reflect.getBool defaults p
               end))
  | Some (setInt p) =>
      Some (flag.intValue
              (match readEnv f environ reflect.Int64
                       (reflect.VInt (reflect.getInt defaults p)) with
               | Some (reflect.VInt z) => z
               | _ => reflect.getInt defaults p
               end))
  | Some (setMap _ _) => Some (flag.stringMap [])
  | Some (setSlice _ _) => Some (flag.stringArray [])
  | None => None
  end.

(** Every collected descriptor has its flag registered with its initial
    value. *)
Definition registeredAll (environ : os.environ) (defaults : reflect.Record_)
    (w : walk) : Prop :=
  forall f, f ∈ collected w ->
    is_Some (target f) /\ flagSet w !! name f = initialValue environ defaults f.

(** The descriptors a call at path [p] adds write below [p], each to a
    field of its own. *)
Definition below (p : list nat) (new : list flagInfo) : Prop :=
  NoDup (map target new) /\
  forall f, f ∈ new -> exists j rest, target f = Some (p ++ j :: rest)%list.

(** The same for the loop from field [i] on. *)
Definition belowFrom (p : list nat) (i : nat) (new : list flagInfo) : Prop :=
  NoDup (map target new) /\
  forall f, f ∈ new -> exists j rest, target f = Some (p ++ j :: rest)%list /\ (i <= j)%nat.

(** A token selects the flag [n]: it reads [-n], [--n], [-n=v] or [--n=v]. *)
Definition selects (n : string) (token : string) : bool :=
  match flag.classify token with
  | flag.IsFlag m _ => String.eqb m n
  | _ => false
  end.

(** What [UnmarshalFlags] leaves in the record when it returns without
    error (the empty record otherwise). *)
Definition resolved (r : result (flag.Error + reflect.Record_ * list string))
  : reflect.Record_ :=
  match r with
  | Ok (inr (focus, _)) => focus
  | _ => ∅
  end.

(** The state of a walk that returned (the empty state otherwise). *)
Definition walked (r : result walk) : walk :=
  match r with
  | Ok w => w
  | _ => emptyWalk
  end.

(** The value a descriptor's closure stores when it is run. *)
Definition written (fs : flag.FlagSet) (f : flagInfo) : option reflect.Leaf :=
  match set f with
  | Some (setString _) => Some (reflect.VString (flagString fs (name f)))
  | Some (setBool _) => Some (reflect.VBool (flagBool fs (name f)))
  | Some (setInt _) => Some (reflect.VInt (flagInt fs (name f)))
  | Some (setMap _ _) => Some (reflect.VMap (buildMap (flagMap fs (name f))))
  | Some (setSlice _ _) => Some (reflect.VSlice (flagArray fs (name f)))
  | None => None
  end.

(** The walk follows a field of [t], met under the prefix [prefix], into
    the type [u] under the prefix [prefix']: the field has a descriptor that
    the loop's guard lets through, and its type is a struct or an
    interface. *)
Definition follows (rev : revision) (types : reflect.Types)
    (from to : string * reflect.Kind) : Prop :=
  exists n f info,
    from.2 = reflect.Struct n /\
    f ∈ reflect.fields types n /\
    readFlagInfo rev f from.1 = Some info /\
    skipped rev info = false /\
    reflect.Type_ f = to.2 /\
    (exists m, to.2 = reflect.Struct m \/ to.2 = reflect.Interface m) /\
    to.1 = childPrefix info.

(** The struct types of the table that are not on the current chain. *)
Definition pending (types : reflect.Types) (seen : gset reflect.Kind) : gset string :=
  filter (fun n => reflect.Struct n ∉ seen) (dom types).

Definition isOk {A} (r : result A) : Prop :=
  match r with Ok _ => True | _ => False end.
Definition isPanic {A} (r : result A) : Prop :=
  match r with Panic _ => True | _ => False end.

(** Tokens bound one by one, from the left, to the string fields with the
    given indices. *)
Definition bindStrings (indices : list nat) (tokens : list string)
    (focus : reflect.Record_) : reflect.Record_ :=
  fold_left (fun r b => <[ [b.1] := reflect.VString b.2 ]> r) (zip indices tokens) focus.

(** The rounds of argument-file loading a context still allows. *)
Definition expansionsLeft (ctx : Context) : nat :=
  match argFile ctx with None => 1 | Some _ => 0 end.

(** What the proofs about the loop over the fields assume of the recursive
    call: that it keeps the chain of types, and that it keeps the
    descriptors registered and adds descriptors below its path only. *)
Definition keepsSeen
    (rec : walk -> string -> reflect.Kind -> option reflect.Kind -> list nat -> result walk)
  : Prop :=
  forall w prefix t ft p w', rec w prefix t ft p = Ok w' -> seen w' = seen w.

Definition walkSpec (environ : os.environ) (defaults : reflect.Record_)
    (rec : walk -> string -> reflect.Kind -> option reflect.Kind -> list nat -> result walk)
  : Prop :=
  forall w prefix t ft p w',
    registeredAll environ defaults w -> rec w prefix t ft p = Ok w' ->
    registeredAll environ defaults w' /\ seen w' = seen w /\
    exists new, collected w' = (collected w ++ new)%list /\ below p new.

(** ** Further functions of [flags.go] *)

(** [strings.Join]. *)
Fixpoint Join (elems : list string) (sep : string) : string :=
  match elems with
  | [] => EmptyString
  | [e] => e
  | e :: elems' => e ++ sep ++ Join elems' sep
  end.

(** [stringArray.String]. *)
Definition stringArray_String (sa : list string) : string := Join sa ",".

(** [stringMap.String]: the entries as [key=value], joined by commas. *)
Definition stringMap_String (sm : list stringMapEntry) : string :=
  Join (map (fun e => key e ++ "=" ++ value e) sm) ",".

(** The entry that [Set] on a [stringMap] makes of one piece. *)
Definition entryOf (piece : string) : stringMapEntry :=
  match strings.SplitN2 piece "=" with
  | k :: v :: _ => {| key := k; value := v |}
  | k :: _ => {| key := k; value := EmptyString |}
  | [] => {| key := EmptyString; value := EmptyString |}
  end.

(** [parseCommandFlags]: the name it gives the flag set, the program's name
    followed by each positional name in brackets.  A command is declared
    with a name of the same form. *)
Definition flagSetName (exe : string) (positionalArgs : list string) : string :=
  fold_left (fun name posArg => name ++ " [" ++ posArg ++ "]") positionalArgs exe.

(** The group, or the command, that an entry of a forest is when its name
    is the wanted one in lower case. *)
Definition matchingGroup (currentCommandName : string) (c : ICommand)
  : option (list ICommand) :=
  match c with
  | CommandGroup_ n _ sub =>
      if String.eqb (strings.ToLower n) currentCommandName then Some sub else None
  | Command_ _ => None
  end.

Definition matchingCommand (currentCommandName : string) (c : ICommand)
  : option command.t :=
  match c with
  | Command_ t =>
      if String.eqb (strings.ToLower (command_Name t)) currentCommandName
      then Some t else None
  | CommandGroup_ _ _ _ => None
  end.

(** The commands of a forest, at any depth. *)
Fixpoint commandsOf (c : ICommand) : list command.t :=
  match c with
  | Command_ t => [t]
  | CommandGroup_ _ _ sub => concat (map commandsOf sub)
  end.

Definition forestCommands (cs : Commands) : list command.t := concat (map commandsOf cs).

(** No argument file can be loaded: the context holds one, or no token
    begins with [@]. *)
Definition noExpansion (ctx : Context) (args : list string) : Prop :=
  argFile ctx <> None \/
  Forall (fun a => strings.HasPrefix (strings.ToLower a) "@" = false) args.

(** The forest of the package's test of nested commands: a command and a
    group with one command. *)
Definition nestedForest : Commands :=
  [Command_ (sampleCommand "top" "cmd" 1);
   CommandGroup_ "has_sub" "" [Command_ (sampleCommand "cmd" "cmd" 2)]].

(** The field a descriptor writes lies under the record at path [p], in its
    field [j] or below it, for some [j] from [i] on. *)
Definition under (p : list nat) (i : nat) (f : flagInfo) : Prop :=
  exists j rest, (i <= j)%nat /\ target f = Some (p ++ j :: rest)%list.

(** What a walk over the record at [p] adds, from field [i] on: descriptors
    of distinct fields, all under [p]. *)
Definition addsUnder (w w' : walk) (p : list nat) (i : nat) : Prop :=
  exists new, collected w' = (collected w ++ new)%list /\
    NoDup (map target new) /\ Forall (under p i) new.

(** A record with two positional strings, and an argument file without
    environment entries. *)
Definition copyTypes : reflect.Types :=
  {[ "copy" := [field "Src" "[src]" "" reflect.String;
                field "Dst" "[dst]" "" reflect.String] ]}.

Definition plainFiles (filename : string) : fileResult :=
  if String.eqb filename "plain.json" then
    Decoded {| Command := ["cmd"]; Args := ["--flag=v"; "rest"]; Env := [] |}
  else NoSuchFile.


(** * Properties *)

(** ** Strings *)

Lemma SplitN2_no_separator (s : string) (sep : ascii) :
  strings.ContainsByte s sep = false -> strings.SplitN2 s sep = [s].
Proof.
  induction s as [|c r IH]; simpl; [reflexivity|].
  intros H. apply orb_false_iff in H as [Hc Hr].
  rewrite Hc, (IH Hr). reflexivity.
Qed.

(** ** The argument file's environment entries *)

Lemma applyEnv_app (e e' : os.environ) (pre post : list string) :
  applyEnv e pre = Ok (e', None) ->
  applyEnv e (pre ++ post) = applyEnv e' post.
Proof.
  revert e. induction pre as [|x pre IH]; intros e; simpl.
  - intros [= ->]. reflexivity.
  - destruct (strings.SplitN2 x "=") as [|k [|v t]]; try discriminate.
    destruct (os.Setenv e k (os.ExpandEnv e v)); [apply IH | discriminate].
Qed.

Lemma applyEnv_no_equals (e : os.environ) (entry : string) (post : list string) :
  strings.ContainsByte entry "=" = false ->
  applyEnv e (entry :: post) = Panic IndexOutOfRange.
Proof. intros H. simpl. rewrite (SplitN2_no_separator _ _ H). reflexivity. Qed.

Section DispatchFacts.

Variable types : reflect.Types.
Variable files : string -> fileResult.

(** C10.  Expansion of an argument file is not total: when the token at the
    command position names a file that decodes, no file was loaded before,
    and the [env] list holds an entry without [=] after entries that were
    all applied, the dispatch panics with an index out of range instead of
    returning an error. *)
Theorem Run_env_entry_without_equals_panics
    (fuel : nat) (cs : Commands) (ctx : Context) (w : World) (args : list string)
    (a : string) (af : ArgFile) (pre post : list string) (entry : string)
    (e' : os.environ) :
  argFile ctx = None ->
  args !! (length (parentCommands ctx) + 1)%nat = Some a ->
  strings.HasPrefix (strings.ToLower a) "@" = true ->
  files (os.drop 1 (strings.ToLower a)) = Decoded af ->
  Env af = (pre ++ entry :: post)%list ->
  applyEnv (environ w) pre = Ok (e', None) ->
  strings.ContainsByte entry "=" = false ->
  Run types files (S fuel) cs ctx w args = Panic IndexOutOfRange.
Proof.
  intros Hnone Ha Hat Hfile Henv Hpre Hentry.
  pose proof (lookup_lt_Some _ _ _ Ha) as Hlen.
  cbn [Run].
  destruct (Nat.ltb_spec (length args) (length (parentCommands ctx) + 2)); [lia|].
  rewrite Ha, Hat, Hnone. rewrite bool_decide_eq_true_2 by reflexivity.
  cbn [andb]. unfold mergeArgsFileArgs. rewrite Hfile. cbn [environ].
  rewrite Henv, (applyEnv_app _ _ _ _ Hpre), (applyEnv_no_equals _ _ _ Hentry).
  reflexivity.
Qed.

End DispatchFacts.

Lemma Run_env_entry_without_equals_panics_witness :
  Run sampleTypes sampleFiles 1 [Command_ (sampleCommand "cmd" "cmd" 1)]
    emptyContext emptyWorld ["exe"; "@foo.json"] = Panic IndexOutOfRange.
Proof.
  apply (Run_env_entry_without_equals_panics sampleTypes sampleFiles 0
           [Command_ (sampleCommand "cmd" "cmd" 1)] emptyContext emptyWorld
           ["exe"; "@foo.json"] "@foo.json"
           {| Command := ["cmd"]; Args := []; Env := ["FOO"] |} [] [] "FOO" ∅);
    reflexivity.
Defined.

(** ** The schema walker: what a walk that returns has done *)

Section WalkerFacts.

Variable rev : revision.
Variable types : reflect.Types.
Variable environ : os.environ.
Variable defaults : reflect.Record_.

Abbreviation registered := (registeredAll environ defaults).

Lemma register_spec (w w' : walk) (info : flagInfo) (v : flag.Value) (s : setter) :
  let f := {| name := name info; usage := usage info; env := env info;
              validate := validate info; set := Some s |} in
  initialValue environ defaults f = Some v ->
  registered w -> register w info v s = Ok w' ->
  registered w' /\ seen w' = seen w /\ collected w' = (collected w ++ [f])%list.
Proof.
  intros f Hinit Hreg. unfold register, flag.Var.
  destruct (flagSet w !! name info) eqn:Hfresh; [discriminate|].
  intros [= <-]. cbn [seen collected flagSet]. split; [|split; reflexivity].
  intros g Hg. cbn [seen collected flagSet] in *.
  apply elem_of_app in Hg as [Hg | Hg].
  - destruct (Hreg g Hg) as [Ht Hl]. split; [exact Ht|].
    rewrite lookup_insert_ne; [exact Hl|].
    intros Heq. rewrite <- Heq, Hfresh in Hl.
    destruct Ht as [q Hq]. unfold target in Hq. unfold initialValue in Hl.
    destruct (set g) as [[]|]; discriminate.
  - apply list_elem_of_singleton in Hg as ->. split.
    + unfold target, f. cbn. destruct s; eauto.
    + cbn [name f]. rewrite lookup_insert_eq. symmetry. exact Hinit.
Qed.

Lemma registered_same (w w' : walk) :
  flagSet w' = flagSet w -> collected w' = collected w ->
  registered w -> registered w'.
Proof. intros Hf Hc H g. rewrite Hf, Hc. apply H. Qed.

Lemma collectField_spec rec (w w' : walk) (prefix : string) (p : list nat) (i : nat)
    (f : reflect.StructField) :
  walkSpec environ defaults rec -> registered w ->
  collectField rev environ defaults rec w prefix p i f = Ok w' ->
  registered w' /\ seen w' = seen w /\
  exists new, collected w' = (collected w ++ new)%list /\
    NoDup (map target new) /\
    forall g, g ∈ new -> exists rest, target g = Some (p ++ i :: rest)%list.
Proof.
  intros Hrec Hreg. unfold collectField.
  assert (Hnone : w' = w -> registered w' /\ seen w' = seen w /\
    exists new, collected w' = (collected w ++ new)%list /\
      NoDup (map target new) /\
      forall g, g ∈ new -> exists rest, target g = Some (p ++ i :: rest)%list).
  { intros ->. split; [exact Hreg|]. split; [reflexivity|].
    exists []. rewrite app_nil_r. split; [reflexivity|]. split; [constructor|].
    intros g Hg. inversion Hg. }
  assert (Hone : forall info v s,
    target {| name := name info; usage := usage info; env := env info;
              validate := validate info; set := Some s |} = Some (p ++ [i])%list ->
    initialValue environ defaults
      {| name := name info; usage := usage info; env := env info;
         validate := validate info; set := Some s |} = Some v ->
    register w info v s = Ok w' ->
    registered w' /\ seen w' = seen w /\
    exists new, collected w' = (collected w ++ new)%list /\
      NoDup (map target new) /\
      forall g, g ∈ new -> exists rest, target g = Some (p ++ i :: rest)%list).
  { intros info v s Ht Hi Hr.
    destruct (register_spec w w' info v s Hi Hreg Hr) as (H1 & H2 & H3).
    split; [exact H1|]. split; [exact H2|].
    eexists. split; [exact H3|]. split.
    - cbn [map]. apply NoDup_singleton.
    - intros g Hg. apply list_elem_of_singleton in Hg as ->.
      exists []. exact Ht. }
  destruct (readFlagInfo rev f prefix) as [info|]; [|intros [= <-]; auto].
  destruct (skipped rev info); [intros [= <-]; auto|].
  destruct (reflect.Type_ f) as [ | | | |ks es|es|t|t| ] eqn:Hk;
    try (intros [= <-]; auto; fail).
  - apply Hone; [reflexivity|]. unfold initialValue, readEnv, os.LookupEnv; cbn.
    destruct (String.eqb (env info) ""); [reflexivity|].
    destruct (environ !! env info); reflexivity.
  - apply Hone; [reflexivity|]. unfold initialValue, readEnv, os.LookupEnv; cbn.
    destruct (String.eqb (env info) ""); [reflexivity|].
    destruct (environ !! env info) as [s|]; [|reflexivity].
    destruct (strconv.ParseBool s); reflexivity.
  - apply Hone; [reflexivity|]. unfold initialValue, readEnv, os.LookupEnv; cbn.
    destruct (String.eqb (env info) ""); [reflexivity|].
    destruct (environ !! env info); reflexivity.
  - destruct ks; cbn [negb]; [|intros [= <-]; auto].
    apply Hone; reflexivity.
  - apply Hone; reflexivity.
  - intros Hr. destruct (Hrec _ _ _ _ _ _ Hreg Hr) as (H1 & H2 & new & H3 & Hnd & Hb).
    split; [exact H1|]. split; [exact H2|]. exists new. split; [exact H3|].
    split; [exact Hnd|]. intros g Hg. destruct (Hb g Hg) as (j & rest & Ht).
    exists (j :: rest). rewrite Ht, <- app_assoc. reflexivity.
  - intros Hr. destruct (Hrec _ _ _ _ _ _ Hreg Hr) as (H1 & H2 & new & H3 & Hnd & Hb).
    split; [exact H1|]. split; [exact H2|]. exists new. split; [exact H3|].
    split; [exact Hnd|]. intros g Hg. destruct (Hb g Hg) as (j & rest & Ht).
    exists (j :: rest). rewrite Ht, <- app_assoc. reflexivity.
Qed.

Lemma collectFields_spec rec (fs : list reflect.StructField) :
  walkSpec environ defaults rec ->
  forall (w w' : walk) (prefix : string) (p : list nat) (i : nat),
  registered w ->
  collectFields rev environ defaults rec w prefix p i fs = Ok w' ->
  registered w' /\ seen w' = seen w /\
  exists new, collected w' = (collected w ++ new)%list /\ belowFrom p i new.
Proof.
  intros Hrec. induction fs as [|f fs IH]; intros w w' prefix p i Hreg; cbn [collectFields].
  - intros [= <-]. split; [exact Hreg|]. split; [reflexivity|].
    exists []. rewrite app_nil_r. split; [reflexivity|]. split; [constructor|].
    intros g Hg. inversion Hg.
  - destruct (collectField rev environ defaults rec w prefix p i f) as [w1| |] eqn:H1;
      cbn; try discriminate.
    intros H2.
    destruct (collectField_spec _ _ _ _ _ _ _ Hrec Hreg H1)
      as (Hr1 & Hs1 & new1 & Hc1 & Hnd1 & Hb1).
    destruct (IH _ _ _ _ _ Hr1 H2) as (Hr2 & Hs2 & new2 & Hc2 & Hnd2 & Hb2).
    split; [exact Hr2|]. split; [congruence|].
    exists (new1 ++ new2)%list. split; [rewrite Hc2, Hc1, app_assoc; reflexivity|].
    split.
    + rewrite map_app. apply NoDup_app. split; [exact Hnd1|]. split; [|exact Hnd2].
      intros t Ht1 Ht2.
      apply list_elem_of_fmap in Ht1 as (g1 & -> & Hg1).
      apply list_elem_of_fmap in Ht2 as (g2 & Heq & Hg2).
      destruct (Hb1 g1 Hg1) as (r1 & Ht1).
      destruct (Hb2 g2 Hg2) as (j & r2 & Ht2 & Hj).
      rewrite Ht1, Ht2 in Heq. injection Heq as Heq.
      apply app_inv_head in Heq. injection Heq as Heq _. lia.
    + intros g Hg. apply elem_of_app in Hg as [Hg|Hg].
      * destruct (Hb1 g Hg) as (r & Ht). exists i, r. split; [exact Ht|lia].
      * destruct (Hb2 g Hg) as (j & r & Ht & Hj). exists j, r. split; [exact Ht|lia].
Qed.

Lemma collectStructFlags_spec (fuel : nat) :
  walkSpec environ defaults (collectStructFlags rev types environ defaults fuel).
Proof.
  induction fuel as [|fuel IH]; intros w prefix t ft p w' Hreg; cbn [collectStructFlags];
    [discriminate|].
  destruct (negb (bool_decide (ft = Some t))); [discriminate|].
  destruct (bool_decide (t ∈ seen w)) eqn:Hseen; [discriminate|].
  apply bool_decide_eq_false in Hseen.
  destruct t as [ | | | | | |n| | ]; try discriminate.
  match goal with
  | |- context [collectFields _ _ _ _ ?w1 _ _ _ _] => set (w1' := w1)
  end.
  destruct (collectFields rev environ defaults _ w1' prefix p 0 (reflect.fields types n))
    as [w2| |] eqn:H2; cbn; try discriminate.
  intros [= <-].
  assert (Hreg1 : registered w1') by (apply (registered_same w); auto).
  destruct (collectFields_spec _ _ IH _ _ _ _ _ Hreg1 H2) as (Hr2 & Hs2 & new & Hc2 & Hnd & Hb).
  split; [apply (registered_same w2); auto|].
  split; [cbn [seen]; rewrite Hs2; subst w1'; cbn [seen];
          apply set_eq; intros x;
          rewrite elem_of_difference, elem_of_union, elem_of_singleton;
          split; [tauto | intros Hx; split; [tauto | congruence]]|].
  exists new. split; [exact Hc2|]. split; [exact Hnd|].
  intros g Hg. destruct (Hb g Hg) as (j & r & Ht & _). eauto.
Qed.

End WalkerFacts.

(** ** Parsing leaves the flags it was not given alone *)

Lemma Parse_frame_bounded (n : string) (k : nat) :
  forall (fs fs' : flag.FlagSet) (args rest : list string),
  (length args <= k)%nat ->
  Forall (fun token => selects n token = false) args ->
  flag.Parse fs args = inr (fs', rest) ->
  fs' !! n = fs !! n.
Proof.
  induction k as [|k IH]; intros fs fs' args rest Hlen Hno.
  - destruct args; [|cbn in Hlen; lia]. cbn. intros [= <- _]. reflexivity.
  - destruct args as [|s args]; [cbn; intros [= <- _]; reflexivity|].
    cbn [flag.Parse]. cbn in Hlen.
    apply Forall_cons in Hno as [Hs Htail].
    destruct (flag.classify s) as [ | | |m hv] eqn:Hc; try discriminate;
      try (intros [= <- _]; reflexivity).
    assert (Hm : m <> n).
    { intros ->. unfold selects in Hs. rewrite Hc, String.eqb_refl in Hs. discriminate. }
    destruct (fs !! m) as [fl|] eqn:Hfl.
    2:{ destruct (String.eqb m "help" || String.eqb m "h"); discriminate. }
    assert (Hstep : forall fl' args',
      (length args' <= k)%nat ->
      Forall (fun token => selects n token = false) args' ->
      flag.Parse (<[m := fl']> fs) args' = inr (fs', rest) -> fs' !! n = fs !! n).
    { intros fl' args' Hl Hn HP. rewrite (IH _ _ _ _ Hl Hn HP).
      apply lookup_insert_ne. exact Hm. }
    destruct (flag.IsBoolFlag fl).
    + destruct (flag.Set_ fl (default "true" hv)); [|discriminate].
      apply Hstep; [lia | exact Htail].
    + destruct hv as [v|].
      * destruct (flag.Set_ fl v); [|discriminate]. apply Hstep; [lia | exact Htail].
      * destruct args as [|v args']; [discriminate|].
        destruct (flag.Set_ fl v); [|discriminate].
        apply Forall_cons in Htail as [_ Htail].
        apply Hstep; [cbn in Hlen; lia | exact Htail].
Qed.

Lemma Parse_frame (n : string) (fs fs' : flag.FlagSet) (args rest : list string) :
  Forall (fun token => selects n token = false) args ->
  flag.Parse fs args = inr (fs', rest) ->
  fs' !! n = fs !! n.
Proof. apply (Parse_frame_bounded n (length args)). lia. Qed.

(** ** Running the closures *)

Lemma runSet_writes (fs : flag.FlagSet) (focus focus' : reflect.Record_) (f : flagInfo) :
  runSet fs focus f = Ok focus' ->
  exists p v, target f = Some p /\ written fs f = Some v /\ focus' = <[p := v]> focus.
Proof.
  unfold runSet, target, written.
  destruct (set f) as [[p|p|p|p a|p a]|]; try discriminate;
    try destruct a; try discriminate; intros [= <-]; eauto.
Qed.

Lemma runSets_elsewhere (fs : flag.FlagSet) (p : list nat) (flags : list flagInfo) :
  forall focus focus' : reflect.Record_,
  runSets fs focus flags = Ok focus' ->
  (forall g, g ∈ flags -> target g <> Some p) ->
  focus' !! p = focus !! p.
Proof.
  induction flags as [|g flags IH]; intros focus focus'; cbn [runSets].
  - intros [= <-] _. reflexivity.
  - destruct (runSet fs focus g) as [focus1| |] eqn:H1; cbn; try discriminate.
    intros H2 Hno. destruct (runSet_writes _ _ _ _ H1) as (q & v & Hq & _ & ->).
    rewrite (IH _ _ H2); [|intros h Hh; apply Hno; right; exact Hh].
    apply lookup_insert_ne. intros ->. apply (Hno g); [left | exact Hq].
Qed.

Lemma runSets_written (fs : flag.FlagSet) (p : list nat) (f : flagInfo)
    (flags : list flagInfo) :
  forall focus focus' : reflect.Record_,
  runSets fs focus flags = Ok focus' ->
  NoDup (map target flags) -> f ∈ flags -> target f = Some p ->
  focus' !! p = written fs f.
Proof.
  induction flags as [|g flags IH]; intros focus focus'; cbn [runSets map].
  - intros _ _ Hf. inversion Hf.
  - destruct (runSet fs focus g) as [focus1| |] eqn:H1; cbn; try discriminate.
    intros H2 Hnd Hf Hp. apply NoDup_cons in Hnd as [Hfresh Hnd].
    apply elem_of_cons in Hf as [-> | Hf].
    + destruct (runSet_writes _ _ _ _ H1) as (q & v & Hq & Hv & ->).
      rewrite Hp in Hq. injection Hq as <-.
      rewrite (runSets_elsewhere _ p _ _ _ H2).
      * rewrite lookup_insert_eq. symmetry. exact Hv.
      * intros h Hh Heq. apply Hfresh. rewrite Hp, <- Heq.
        apply list_elem_of_fmap. exists h. split; [reflexivity | exact Hh].
    + apply (IH _ _ H2 Hnd Hf Hp).
Qed.

(** ** Resolved values *)

Section Resolution.

Variable rev : revision.
Variable types : reflect.Types.
Variable environ : os.environ.
Variable defaultsT : reflect.Kind.
Variable defaults : reflect.Record_.
Variable focusT : option reflect.Kind.

Lemma walk_from_empty (w : walk) :
  collectStructFlags rev types environ defaults (walkFuel types) emptyWalk
    EmptyString defaultsT focusT [] = Ok w ->
  registeredAll environ defaults w /\ NoDup (map target (collected w)).
Proof.
  intros Hw.
  destruct (collectStructFlags_spec rev types environ defaults _ _ _ _ _ _ _
              (fun f (H : f ∈ []) => match not_elem_of_nil f H with end) Hw)
    as (Hreg & _ & new & Hc & Hnd & _).
  cbn in Hc. split; [exact Hreg | rewrite Hc; exact Hnd].
Qed.

(** After a successful [UnmarshalFlags], the field of every collected
    descriptor holds what its flag holds at the end of parsing. *)
Lemma UnmarshalFlags_resolved (w : walk) (args rest : list string)
    (focus focus' : reflect.Record_) :
  collectStructFlags rev types environ defaults (walkFuel types) emptyWalk
    EmptyString defaultsT focusT [] = Ok w ->
  UnmarshalFlags rev types environ defaultsT defaults args focusT focus
    = Ok (inr (focus', rest)) ->
  exists fs', flag.Parse (flagSet w) args = inr (fs', rest) /\
    forall f p, f ∈ collected w -> target f = Some p -> focus' !! p = written fs' f.
Proof.
  intros Hw. unfold UnmarshalFlags. rewrite Hw. cbn.
  destruct (flag.Parse (flagSet w) args) as [err|[fs' rest']] eqn:HP; [discriminate|].
  destruct (runSets fs' focus (reverse (collected w))) as [focus1| |] eqn:HS;
    cbn; try discriminate.
  intros [= <- <-]. exists fs'. split; [reflexivity|].
  intros f p Hf Hp. apply (runSets_written _ _ _ _ _ _ HS).
  - eapply NoDup_Permutation_proper; [|apply (walk_from_empty w Hw)].
    apply Permutation_map, reverse_Permutation.
  - apply elem_of_reverse. exact Hf.
  - exact Hp.
Qed.

(** C4, amended.  When parsing succeeds, no token selects the flag of a
    collected descriptor and its environment variable (if it names one) is
    not set, then the descriptor's field holds the value of [defaults] if it
    is a string, a bool or an integer, and the empty list or the empty map
    if it is a list or a map, whatever [defaults] holds there. *)
Theorem unset_field_resolves_to_default (w : walk) (args rest : list string)
    (focus focus' : reflect.Record_) (f : flagInfo) (i : nat) :
  collectStructFlags rev types environ defaults (walkFuel types) emptyWalk
    EmptyString defaultsT focusT [] = Ok w ->
  UnmarshalFlags rev types environ defaultsT defaults args focusT focus
    = Ok (inr (focus', rest)) ->
  collected w !! i = Some f ->
  Forall (fun token => selects (name f) token = false) args ->
  env f = EmptyString \/ environ !! env f = None ->
  match set f with
  | Some (setString p) => focus' !! p = Some (reflect.VString (reflect.getString defaults p))
  | Some (setBool p) => focus' !! p = Some (reflect.VBool (reflect.getBool defaults p))
  | Some (setInt p) => focus' !! p = Some (reflect.VInt (reflect.getInt defaults p))
  | Some (setMap p _) => focus' !! p = Some (reflect.VMap ∅)
  | Some (setSlice p _) => focus' !! p = Some (reflect.VSlice [])
  | None => False
  end.
Proof.
  intros Hw HU Hi Hno Henv.
  apply list_elem_of_lookup_2 in Hi.
  destruct (UnmarshalFlags_resolved w args rest focus focus' Hw HU) as (fs' & HP & Hres).
  destruct (walk_from_empty w Hw) as [Hreg _].
  destruct (Hreg f Hi) as [[p Hp] Hinit].
  pose proof (Hres f p Hi Hp) as Hval.
  rewrite <- (Parse_frame _ _ _ _ _ Hno HP) in Hinit.
  assert (Hread : forall k v, readEnv f environ k v = None).
  { intros k v. unfold readEnv, os.LookupEnv. destruct Henv as [-> | ->]; [reflexivity|].
    destruct (String.eqb (env f) ""); reflexivity. }
  unfold target in Hp. unfold written in Hval. unfold initialValue in Hinit.
  destruct (set f) as [[q|q|q|q a|q a]|]; try discriminate;
    injection Hp as ->; rewrite Hval; f_equal; f_equal.
  - rewrite Hread in Hinit. unfold flagString. rewrite Hinit. reflexivity.
  - rewrite Hread in Hinit. unfold flagBool. rewrite Hinit. reflexivity.
  - rewrite Hread in Hinit. unfold flagInt. rewrite Hinit. reflexivity.
  - unfold flagMap. rewrite Hinit. reflexivity.
  - unfold flagArray. rewrite Hinit. reflexivity.
Qed.

End Resolution.

Lemma unset_field_resolves_to_default_witness :
  resolved (UnmarshalFlags Earlier sampleTypes ∅ (reflect.Struct "Flags") sampleDefaults
              ["--int=1"; "arg1"] (Some (reflect.Struct "Flags")) ∅) !! [0%nat]
  = Some (reflect.VString (reflect.getString sampleDefaults [0%nat])).
Proof.
  apply (unset_field_resolves_to_default Earlier sampleTypes ∅ (reflect.Struct "Flags")
           sampleDefaults (Some (reflect.Struct "Flags"))
           (walked (collectStructFlags Earlier sampleTypes ∅ sampleDefaults
                      (walkFuel sampleTypes) emptyWalk EmptyString
                      (reflect.Struct "Flags") (Some (reflect.Struct "Flags")) []))
           ["--int=1"; "arg1"] ["arg1"] ∅ _
           {| name := "string"; usage := ""; env := ""; validate := "";
              set := Some (setString [0%nat]) |} 0).
  - vm_compute. reflexivity.
  - vm_compute. reflexivity.
  - vm_compute. reflexivity.
  - repeat constructor.
  - left. reflexivity.
Defined.

(** C4 as stated fails: a list default is not kept.  With defaults holding
    the list [["x"]] and no argument at all, the list field resolves to the
    empty list, in the earlier and in the later revision. *)
Lemma list_default_is_dropped :
  reflect.getSlice
    (resolved (UnmarshalFlags Earlier sampleTypes ∅ (reflect.Struct "Flags") sampleDefaults
                 [] (Some (reflect.Struct "Flags")) ∅)) [3%nat]
  <> reflect.getSlice sampleDefaults [3%nat] /\
  reflect.getSlice
    (resolved (UnmarshalFlags Later sampleTypes ∅ (reflect.Struct "Flags") sampleDefaults
                 [] (Some (reflect.Struct "Flags")) ∅)) [3%nat]
  <> reflect.getSlice sampleDefaults [3%nat] /\
  UnmarshalFlags Earlier sampleTypes ∅ (reflect.Struct "Flags") sampleDefaults
    [] (Some (reflect.Struct "Flags")) ∅
  = Ok (inr ({[ [0%nat] := reflect.VString "default"; [1%nat] := reflect.VInt 0;
                [2%nat] := reflect.VBool false; [3%nat] := reflect.VSlice [];
                [4%nat; 0%nat] := reflect.VString ""; [4%nat; 1%nat] := reflect.VString "";
                [5%nat] := reflect.VMap ∅ ]}, [])).
Proof. repeat split; vm_compute; (reflexivity || discriminate). Qed.

(** ** The schema walker: the chain of types, fuel and cycles *)

Section WalkerChain.

Variable rev : revision.
Variable types : reflect.Types.
Variable environ : os.environ.
Variable defaults : reflect.Record_.

Abbreviation walker := (collectStructFlags rev types environ defaults).
Abbreviation recursion :=
  (walk -> string -> reflect.Kind -> option reflect.Kind -> list nat -> result walk).

Lemma register_seen (w w' : walk) (info : flagInfo) (v : flag.Value) (s : setter) :
  register w info v s = Ok w' -> seen w' = seen w.
Proof.
  unfold register. destruct (flag.Var (flagSet w) (name info) v); [|discriminate].
  intros [= <-]. reflexivity.
Qed.

Lemma register_no_cycle (w : walk) (info : flagInfo) (v : flag.Value) (s : setter) :
  (exists w', register w info v s = Ok w') \/
  register w info v s = Panic (FlagRedefined (name info)).
Proof.
  unfold register. destruct (flag.Var (flagSet w) (name info) v); eauto.
Qed.

(** A field either leaves the state alone, registers one flag, or is
    followed by a recursive call. *)
Lemma collectField_cases (rec : recursion) (w : walk) (prefix : string) (p : list nat)
    (i : nat) (f : reflect.StructField) :
  collectField rev environ defaults rec w prefix p i f = Ok w \/
  (exists info v s, skipped rev info = false /\
     collectField rev environ defaults rec w prefix p i f = register w info v s) \/
  (exists info, readFlagInfo rev f prefix = Some info /\ skipped rev info = false /\
     (exists m, reflect.Type_ f = reflect.Struct m \/ reflect.Type_ f = reflect.Interface m) /\
     collectField rev environ defaults rec w prefix p i f
     = rec w (childPrefix info) (reflect.Type_ f) (Some (reflect.Type_ f)) (p ++ [i])%list).
Proof.
  unfold collectField.
  destruct (readFlagInfo rev f prefix) as [info|]; [|left; reflexivity].
  destruct (skipped rev info) eqn:Hs; [left; reflexivity|].
  destruct (reflect.Type_ f) as [ | | | |ks es|es|t|t| ]; eauto 7.
  - destruct ks; cbn [negb]; eauto 7.
  - right. right. exists info. eauto 8.
  - right. right. exists info. eauto 8.
Qed.

Lemma collectField_seen (rec : recursion) (w w' : walk) (prefix : string) (p : list nat)
    (i : nat) (f : reflect.StructField) :
  keepsSeen rec ->
  collectField rev environ defaults rec w prefix p i f = Ok w' -> seen w' = seen w.
Proof.
  intros Hrec.
  destruct (collectField_cases rec w prefix p i f)
    as [-> | [(info & v & s & _ & ->) | (info & _ & _ & _ & ->)]].
  - intros [= <-]. reflexivity.
  - apply register_seen.
  - apply Hrec.
Qed.

Lemma collectFields_seen (rec : recursion) (fs : list reflect.StructField) :
  keepsSeen rec ->
  forall (w w' : walk) (prefix : string) (p : list nat) (i : nat),
  collectFields rev environ defaults rec w prefix p i fs = Ok w' -> seen w' = seen w.
Proof.
  intros Hrec. induction fs as [|f fs IH]; intros w w' prefix p i; cbn [collectFields].
  - intros [= <-]. reflexivity.
  - destruct (collectField rev environ defaults rec w prefix p i f) as [w1| |] eqn:H1;
      cbn; try discriminate.
    intros H2. rewrite (IH _ _ _ _ _ H2). apply (collectField_seen _ _ _ _ _ _ _ Hrec H1).
Qed.

Lemma walker_seen (fuel : nat) : keepsSeen (walker fuel).
Proof.
  induction fuel as [|fuel IH]; intros w prefix t ft p w'; cbn [collectStructFlags];
    [discriminate|].
  destruct (negb (bool_decide (ft = Some t))); [discriminate|].
  destruct (bool_decide (t ∈ seen w)) eqn:Hseen; [discriminate|].
  apply bool_decide_eq_false in Hseen.
  destruct t as [ | | | | | |n| | ]; try discriminate.
  match goal with
  | |- context [collectFields _ _ _ _ ?w1 _ _ _ _] => set (w1' := w1)
  end.
  destruct (collectFields rev environ defaults _ w1' prefix p 0 (reflect.fields types n))
    as [w2| |] eqn:H2; cbn; try discriminate.
  intros [= <-]. cbn [seen]. rewrite (collectFields_seen _ _ IH _ _ _ _ _ H2).
  subst w1'. cbn [seen]. apply set_eq. intros x.
  rewrite elem_of_difference, elem_of_union, elem_of_singleton.
  split; [tauto | intros Hx; split; [tauto | congruence]].
Qed.

(** *** Fuel *)

Lemma pending_shrinks (n : string) (seen0 : gset reflect.Kind) :
  n ∈ dom types -> reflect.Struct n ∉ seen0 ->
  (size (pending types ({[ reflect.Struct n ]} ∪ seen0)) < size (pending types seen0))%nat.
Proof.
  intros Hdom Hnew. apply subset_size. unfold pending. split.
  - intros m. rewrite !elem_of_filter, elem_of_union, elem_of_singleton. tauto.
  - intros Hsub. specialize (Hsub n). rewrite !elem_of_filter in Hsub.
    destruct Hsub as [Hn _]; [split; assumption|].
    apply Hn. apply elem_of_union. left. apply elem_of_singleton. reflexivity.
Qed.

Lemma collectFields_fuel (rec : recursion) (fs : list reflect.StructField)
    (chain : gset reflect.Kind) :
  keepsSeen rec ->
  (forall w prefix t ft p, seen w = chain -> rec w prefix t ft p <> OutOfFuel) ->
  forall (w : walk) (prefix : string) (p : list nat) (i : nat),
  seen w = chain ->
  collectFields rev environ defaults rec w prefix p i fs <> OutOfFuel.
Proof.
  intros Hkeep Hrec. induction fs as [|f fs IH]; intros w prefix p i Hw; cbn [collectFields];
    [discriminate|].
  destruct (collectField rev environ defaults rec w prefix p i f) as [w1| |] eqn:H1; cbn.
  - apply IH. rewrite (collectField_seen _ _ _ _ _ _ _ Hkeep H1). exact Hw.
  - discriminate.
  - exfalso.
    destruct (collectField_cases rec w prefix p i f)
      as [H | [(info & v & s & _ & H) | (info & _ & _ & _ & H)]]; rewrite H in H1.
    + discriminate.
    + destruct (register_no_cycle w info v s) as [[w' Hr] | Hr]; rewrite Hr in H1; discriminate.
    + apply (Hrec _ _ _ _ _ Hw H1).
Qed.

(** The walk does not run out of fuel when it has more fuel than there are
    struct types off the chain. *)
Lemma walker_fuel (fuel : nat) :
  forall (w : walk) (prefix : string) (t : reflect.Kind) (ft : option reflect.Kind)
         (p : list nat),
  (size (pending types (seen w)) < fuel)%nat ->
  walker fuel w prefix t ft p <> OutOfFuel.
Proof.
  induction fuel as [|fuel IH]; intros w prefix t ft p Hfuel; [lia|].
  cbn [collectStructFlags].
  destruct (negb (bool_decide (ft = Some t))); [discriminate|].
  destruct (bool_decide (t ∈ seen w)) eqn:Hseen; [discriminate|].
  apply bool_decide_eq_false in Hseen.
  destruct t as [ | | | | | |n| | ]; try discriminate.
  match goal with
  | |- context [collectFields _ _ _ _ ?w1 _ _ _ _] => set (w1' := w1)
  end.
  assert (Hloop : collectFields rev environ defaults (walker fuel) w1' prefix p 0
                    (reflect.fields types n) <> OutOfFuel).
  { unfold reflect.fields. destruct (types !! n) as [fs|] eqn:Hn; [|discriminate].
    apply (collectFields_fuel _ _ (seen w1') (walker_seen fuel)); [|reflexivity].
    intros w2 prefix2 t2 ft2 p2 Hw2. apply IH. rewrite Hw2. subst w1'. cbn [seen].
    assert (Hdom : n ∈ dom types) by (apply elem_of_dom; eauto).
    pose proof (pending_shrinks n (seen w) Hdom Hseen). lia. }
  destruct (collectFields rev environ defaults (walker fuel) w1' prefix p 0
              (reflect.fields types n)); cbn; congruence.
Qed.

(** The fuel [UnmarshalFlags] gives is enough. *)
Lemma walker_fuel_from_empty (prefix : string) (t : reflect.Kind)
    (ft : option reflect.Kind) (p : list nat) :
  walker (walkFuel types) emptyWalk prefix t ft p <> OutOfFuel.
Proof.
  apply walker_fuel. unfold walkFuel, pending. cbn [seen emptyWalk].
  apply Nat.lt_succ_r. apply subseteq_size. intros n Hn.
  apply elem_of_filter in Hn as [_ Hn]. exact Hn.
Qed.

End WalkerChain.

Section WalkerCycles.

Variable rev : revision.
Variable types : reflect.Types.
Variable environ : os.environ.
Variable defaults : reflect.Record_.

Abbreviation walker' := (collectStructFlags rev types environ defaults).
Abbreviation recursion' :=
  (walk -> string -> reflect.Kind -> option reflect.Kind -> list nat -> result walk).

Lemma collectField_followed (rec : recursion') (w : walk) (x y : string * reflect.Kind)
    (n : string) (f : reflect.StructField) (info : flagInfo) (p : list nat) (i : nat) :
  readFlagInfo rev f x.1 = Some info -> skipped rev info = false ->
  reflect.Type_ f = y.2 ->
  (exists m, y.2 = reflect.Struct m \/ y.2 = reflect.Interface m) ->
  y.1 = childPrefix info ->
  collectField rev environ defaults rec w x.1 p i f = rec w y.1 y.2 (Some y.2) (p ++ [i])%list.
Proof.
  intros Hread Hskip Hty (m & Hm) Hpre. unfold collectField.
  rewrite Hread, Hskip, Hty, Hpre. destruct Hm as [-> | ->]; reflexivity.
Qed.

Lemma collectFields_fails (rec : recursion') (fs : list reflect.StructField)
    (f : reflect.StructField) (chain : gset reflect.Kind) (prefix : string) (p : list nat) :
  keepsSeen rec -> f ∈ fs ->
  (forall w i, seen w = chain ->
     ~ isOk (collectField rev environ defaults rec w prefix p i f)) ->
  forall (w : walk) (i : nat), seen w = chain ->
  ~ isOk (collectFields rev environ defaults rec w prefix p i fs).
Proof.
  intros Hkeep Hf Hfail. induction fs as [|g fs IH]; intros w i Hw; [inversion Hf|].
  cbn [collectFields].
  destruct (collectField rev environ defaults rec w prefix p i g) as [w1| |] eqn:H1; cbn;
    [|tauto|tauto].
  apply elem_of_cons in Hf as [<- | Hf].
  - exfalso. apply (Hfail w i Hw). rewrite H1. exact I.
  - apply (IH Hf). rewrite (collectField_seen _ _ _ _ _ _ _ _ _ _ Hkeep H1). exact Hw.
Qed.

Lemma walker_follows_fails (fuel : nat) (w : walk) (x y : string * reflect.Kind)
    (ft : option reflect.Kind) (p : list nat) :
  follows rev types x y ->
  (forall w1 ft1 q, seen w1 = {[ x.2 ]} ∪ seen w -> ~ isOk (walker' fuel w1 y.1 y.2 ft1 q)) ->
  ~ isOk (walker' (S fuel) w x.1 x.2 ft p).
Proof.
  intros (n & f & info & Hx & Hf & Hread & Hskip & Hty & Hm & Hpre) Hrec.
  cbn [collectStructFlags].
  destruct (negb (bool_decide (ft = Some x.2))); [tauto|].
  destruct (bool_decide (x.2 ∈ seen w)); [tauto|].
  rewrite Hx.
  match goal with
  | |- context [collectFields _ _ _ _ ?w1 _ _ _ _] => set (w1' := w1)
  end.
  assert (Hloop : ~ isOk (collectFields rev environ defaults (walker' fuel) w1' x.1 p 0
                            (reflect.fields types n))).
  { apply (collectFields_fails _ _ f (seen w1') _ _ (walker_seen _ _ _ _ fuel) Hf);
      [|reflexivity].
    intros w2 i Hw2.
    rewrite (collectField_followed _ w2 x y n f info p i Hread Hskip Hty Hm Hpre).
    apply Hrec. rewrite Hw2. subst w1'. cbn [seen]. rewrite Hx. reflexivity. }
  destruct (collectFields rev environ defaults (walker' fuel) w1' x.1 p 0
              (reflect.fields types n)); cbn; tauto.
Qed.

(** A walk that can reach a type of its chain does not return. *)
Lemma walker_reaches_seen (x y : string * reflect.Kind) :
  rtc (follows rev types) x y ->
  forall fuel w ft p, y.2 ∈ seen w -> ~ isOk (walker' fuel w x.1 x.2 ft p).
Proof.
  induction 1 as [x | x y z Hxy Hyz IH]; intros fuel w ft p Hin.
  - destruct fuel as [|fuel]; cbn [collectStructFlags]; [tauto|].
    destruct (negb (bool_decide (ft = Some x.2))); [tauto|].
    rewrite bool_decide_eq_true_2 by exact Hin. tauto.
  - destruct fuel as [|fuel]; [cbn; tauto|].
    apply (walker_follows_fails fuel w x y ft p Hxy).
    intros w1 ft1 q Hw1. apply IH. rewrite Hw1. apply elem_of_union. right. exact Hin.
Qed.

(** A walk that can reach a type that leads back to itself does not
    return. *)
Lemma walker_reaches_cycle (x a a' : string * reflect.Kind) :
  rtc (follows rev types) x a -> tc (follows rev types) a a' -> a'.2 = a.2 ->
  forall fuel w ft p, ~ isOk (walker' fuel w x.1 x.2 ft p).
Proof.
  intros Hxa Hcycle Hsame. induction Hxa as [a | x y a Hxy Hya IH]; intros fuel w ft p.
  - destruct fuel as [|fuel]; [cbn; tauto|].
    assert (Hfirst : exists y, follows rev types a y /\ rtc (follows rev types) y a').
    { inversion Hcycle as [? ? Hstep | ? y ? Hstep Hrest]; subst.
      - exists a'. split; [exact Hstep | apply rtc_refl].
      - exists y. split; [exact Hstep | apply tc_rtc; exact Hrest]. }
    destruct Hfirst as (y & Hay & Hya).
    apply (walker_follows_fails fuel w a y ft p Hay).
    intros w1 ft1 q Hw1. apply (walker_reaches_seen y a' Hya).
    rewrite Hw1, Hsame. apply elem_of_union. left. apply elem_of_singleton. reflexivity.
  - destruct fuel as [|fuel]; [cbn; tauto|].
    apply (walker_follows_fails fuel w x y ft p Hxy).
    intros w1 ft1 q _. apply (IH Hcycle Hsame).
Qed.

End WalkerCycles.

Section CycleOrigin.

Variable rev : revision.
Variable types : reflect.Types.
Variable environ : os.environ.
Variable defaults : reflect.Record_.

Abbreviation walker'' := (collectStructFlags rev types environ defaults).
Abbreviation recursion'' :=
  (walk -> string -> reflect.Kind -> option reflect.Kind -> list nat -> result walk).

(** When the loop over the fields ends with the cycle panic, the panic came
    from the recursive call for a field that the walk follows. *)
Lemma collectFields_cycle_origin (rec : recursion'') (u : reflect.Kind)
    (fs : list reflect.StructField) (prefix : string) (p : list nat) :
  keepsSeen rec ->
  forall (w : walk) (i : nat),
  collectFields rev environ defaults rec w prefix p i fs = Panic (CycleInFlagTypes u) ->
  exists w2 f info q,
    f ∈ fs /\ seen w2 = seen w /\
    readFlagInfo rev f prefix = Some info /\ skipped rev info = false /\
    (exists m, reflect.Type_ f = reflect.Struct m \/ reflect.Type_ f = reflect.Interface m) /\
    rec w2 (childPrefix info) (reflect.Type_ f) (Some (reflect.Type_ f)) q
    = Panic (CycleInFlagTypes u).
Proof.
  intros Hkeep. induction fs as [|f fs IH]; intros w i; cbn [collectFields]; [discriminate|].
  destruct (collectField rev environ defaults rec w prefix p i f) as [w1|m|] eqn:H1; cbn.
  - intros H2. destruct (IH _ _ H2) as (w2 & g & info & q & Hg & Hs & Hrest).
    exists w2, g, info, q. split; [right; exact Hg|]. split; [|exact Hrest].
    rewrite Hs. apply (collectField_seen _ _ _ _ _ _ _ _ _ _ Hkeep H1).
  - intros [= ->].
    destruct (collectField_cases rev environ defaults rec w prefix p i f)
      as [H | [(info & v & s & _ & H) | (info & Hread & Hskip & Hm & H)]]; rewrite H in H1.
    + discriminate.
    + destruct (register_no_cycle w info v s) as [[w' Hr] | Hr]; rewrite Hr in H1;
        discriminate.
    + exists w, f, info, (p ++ [i])%list. split; [left|]. auto.
  - discriminate.
Qed.

(** The cycle panic names a type that is on the chain already and that the
    walk reaches again, or a type that the walk reaches and that leads back
    to itself. *)
Lemma walker_cycle_origin (fuel : nat) :
  forall (w : walk) (prefix : string) (t : reflect.Kind) (ft : option reflect.Kind)
         (p : list nat) (u : reflect.Kind),
  walker'' fuel w prefix t ft p = Panic (CycleInFlagTypes u) ->
  (u ∈ seen w /\ exists pu, rtc (follows rev types) (prefix, t) (pu, u)) \/
  (exists pa pc, rtc (follows rev types) (prefix, t) (pa, u) /\
                 tc (follows rev types) (pa, u) (pc, u)).
Proof.
  induction fuel as [|fuel IH]; intros w prefix t ft p u; cbn [collectStructFlags];
    [discriminate|].
  destruct (negb (bool_decide (ft = Some t))); [discriminate|].
  destruct (bool_decide (t ∈ seen w)) eqn:Hseen.
  { intros [= <-]. apply bool_decide_eq_true in Hseen. left. split; [exact Hseen|].
    exists prefix. apply rtc_refl. }
  destruct t as [ | | | | | |n| | ]; try discriminate.
  match goal with
  | |- context [collectFields _ _ _ _ ?w1 _ _ _ _] => set (w1' := w1)
  end.
  destruct (collectFields rev environ defaults (walker'' fuel) w1' prefix p 0
              (reflect.fields types n)) as [w2|m|] eqn:H2; cbn; try discriminate.
  intros [= ->].
  destruct (collectFields_cycle_origin _ _ _ _ _ (walker_seen _ _ _ _ fuel) _ _ H2)
    as (w3 & f & info & q & Hf & Hs & Hread & Hskip & Hm & Hrec).
  assert (Hstep : follows rev types (prefix, reflect.Struct n)
                    (childPrefix info, reflect.Type_ f)).
  { exists n, f, info. cbn [fst snd]. repeat split; auto. }
  destruct (IH _ _ _ _ _ _ Hrec) as [(Hin & pu & Hpath) | (pa & pc & Hpath & Hcycle)].
  - rewrite Hs in Hin. subst w1'. cbn [seen] in Hin.
    apply elem_of_union in Hin as [Hin | Hin].
    + apply elem_of_singleton in Hin as ->. right.
      exists prefix, pu. split; [apply rtc_refl|].
      apply (tc_rtc_r _ (childPrefix info, reflect.Type_ f)); [|exact Hpath].
      apply tc_once. exact Hstep.
    + left. split; [exact Hin|]. exists pu. apply (rtc_l _ _ _ _ Hstep Hpath).
  - right. exists pa, pc. split; [|exact Hcycle]. apply (rtc_l _ _ _ _ Hstep Hpath).
Qed.

(** C6.  The schema walk always comes to an end with the fuel
    [UnmarshalFlags] gives it, whatever the type table, recursive or not.
    When the walk, following nested fields (fields with a flag name that the
    loop's guard lets through, of struct or interface type), reaches a type
    that leads back to itself along such fields, it ends in a panic.  And
    the cycle panic arises in no other way: the type it names is reached by
    the walk and leads back to itself, so a type that only repeats in
    sibling fields does not give it. *)
Theorem walk_terminates_and_detects_cycles (prefix : string) (root : reflect.Kind)
    (ft : option reflect.Kind) (p : list nat) :
  let r := walker'' (walkFuel types) emptyWalk prefix root ft p in
  r <> OutOfFuel /\
  (forall a a', rtc (follows rev types) (prefix, root) a ->
                tc (follows rev types) a a' -> a'.2 = a.2 -> isPanic r) /\
  (forall u, r = Panic (CycleInFlagTypes u) ->
     exists pa pc, rtc (follows rev types) (prefix, root) (pa, u) /\
                   tc (follows rev types) (pa, u) (pc, u)).
Proof.
  intros r.
  assert (Hfuel : r <> OutOfFuel) by apply walker_fuel_from_empty.
  split; [exact Hfuel|]. split.
  - intros a a' Hpath Hcycle Hsame.
    pose proof (walker_reaches_cycle rev types environ defaults _ a a' Hpath Hcycle Hsame
                  (walkFuel types) emptyWalk ft p) as Hfail.
    cbn [fst snd] in Hfail. fold r in Hfail.
    destruct r; cbn in *; tauto.
  - intros u Hu.
    destruct (walker_cycle_origin _ _ _ _ _ _ _ Hu) as [(Hin & _) | H]; [|exact H].
    cbn [seen emptyWalk] in Hin. apply not_elem_of_empty in Hin. contradiction.
Qed.

End CycleOrigin.

Lemma walk_terminates_and_detects_cycles_witness :
  isPanic (collectStructFlags Later sampleTypes ∅ ∅ (walkFuel sampleTypes) emptyWalk
             EmptyString (reflect.Struct "Ping") (Some (reflect.Struct "Ping")) []).
Proof.
  assert (H1 : follows Later sampleTypes ("", reflect.Struct "Ping")
                 ("[pong].", reflect.Struct "Pong")).
  { exists "Ping", (field "Pong" "[pong]" "" (reflect.Struct "Pong")),
      {| name := "[pong]"; usage := ""; env := ""; validate := ""; set := None |}.
    repeat split; try reflexivity; [vm_compute; left | eauto]. }
  assert (H2 : follows Later sampleTypes ("[pong].", reflect.Struct "Pong")
                 ("[pong].[ping].", reflect.Struct "Ping")).
  { exists "Pong", (field "Ping" "[ping]" "" (reflect.Struct "Ping")),
      {| name := "[pong].[ping]"; usage := ""; env := ""; validate := ""; set := None |}.
    repeat split; try reflexivity; [vm_compute; left | eauto]. }
  apply (proj1 (proj2 (walk_terminates_and_detects_cycles Later sampleTypes ∅ ∅
                         EmptyString (reflect.Struct "Ping")
                         (Some (reflect.Struct "Ping")) []))
           ("", reflect.Struct "Ping") ("[pong].[ping].", reflect.Struct "Ping")).
  - apply rtc_refl.
  - apply (tc_l _ _ _ _ H1). apply tc_once. exact H2.
  - reflexivity.
Defined.

(** The walker on the sample types: a type that contains itself and two
    types that contain each other end in the cycle panic; two sibling
    fields of one type do not.  The later revision does not follow the
    plain-named field of [Node] at all: its walk returns with nothing
    collected. *)
Lemma walk_examples :
  collectStructFlags Later sampleTypes ∅ ∅ (walkFuel sampleTypes) emptyWalk
    EmptyString (reflect.Struct "Node") (Some (reflect.Struct "Node")) []
  = Ok emptyWalk /\
  collectStructFlags Earlier sampleTypes ∅ ∅ (walkFuel sampleTypes) emptyWalk
    EmptyString (reflect.Struct "Node") (Some (reflect.Struct "Node")) []
  = Panic (CycleInFlagTypes (reflect.Struct "Node")) /\
  collectStructFlags Later sampleTypes ∅ ∅ (walkFuel sampleTypes) emptyWalk
    EmptyString (reflect.Struct "Ping") (Some (reflect.Struct "Ping")) []
  = Panic (CycleInFlagTypes (reflect.Struct "Ping")) /\
  map name (collected (walked
    (collectStructFlags Earlier sampleTypes ∅ ∅ (walkFuel sampleTypes) emptyWalk
       EmptyString (reflect.Struct "Pair") (Some (reflect.Struct "Pair")) [])))
  = ["left.string1"; "left.string2"; "right.string1"; "right.string2"].
Proof. repeat split; vm_compute; reflexivity. Qed.

(** ** The dispatcher: fuel, and the files it reads *)

Lemma runSets_not_OutOfFuel (fs : flag.FlagSet) (flags : list flagInfo) :
  forall focus, runSets fs focus flags <> OutOfFuel.
Proof.
  induction flags as [|f flags IH]; intros focus; cbn [runSets]; [discriminate|].
  destruct (runSet fs focus f) as [focus1| |] eqn:H1; cbn; [apply IH | discriminate |].
  unfold runSet in H1.
  destruct (set f) as [[p|p|p|p a|p a]|]; try destruct a; discriminate.
Qed.

Lemma UnmarshalFlags_not_OutOfFuel (rev : revision) (types : reflect.Types)
    (environ : os.environ) (defaultsT : reflect.Kind) (defaults : reflect.Record_)
    (args : list string) (focusT : option reflect.Kind) (focus : reflect.Record_) :
  UnmarshalFlags rev types environ defaultsT defaults args focusT focus <> OutOfFuel.
Proof.
  unfold UnmarshalFlags.
  pose proof (walker_fuel_from_empty rev types environ defaults
                EmptyString defaultsT focusT []) as Hfuel.
  destruct (collectStructFlags rev types environ defaults (walkFuel types) emptyWalk
              EmptyString defaultsT focusT []) as [w| |]; cbn; [|discriminate|congruence].
  destruct (flag.Parse (flagSet w) args) as [err|[fs rest]]; [discriminate|].
  pose proof (runSets_not_OutOfFuel fs (reverse (collected w)) focus).
  destruct (runSets fs focus (reverse (collected w))); cbn; congruence.
Qed.

Lemma fillArgs_not_OutOfFuel (fields : list reflect.StructField) (total : nat)
    (names : list string) (args : list string) :
  forall focus pos, fillArgs fields total names focus pos args <> OutOfFuel.
Proof.
  induction names as [|n names IH]; intros focus pos; cbn [fillArgs]; [discriminate|].
  destruct ((total <=? pos)%nat || (length args <=? pos)%nat); [discriminate|].
  destruct (findPositional fields 0 n) as [|i|i a]; [discriminate| |].
  - destruct (args !! pos); [apply IH | discriminate].
  - destruct a; discriminate.
Qed.

Lemma parseCommandFlags_not_OutOfFuel (types : reflect.Types) (environ : os.environ)
    (commandFlags : option (reflect.Kind * reflect.Record_))
    (positionalArgs commandArgs : list string) :
  parseCommandFlags types environ commandFlags positionalArgs commandArgs <> OutOfFuel.
Proof.
  unfold parseCommandFlags. destruct commandFlags as [[ft defaults]|]; [|discriminate].
  destruct ft as [ | | | | | |n| | ]; try discriminate.
  pose proof (UnmarshalFlags_not_OutOfFuel Later types environ (reflect.Struct n) defaults
                commandArgs (Some (reflect.Struct n)) ∅) as HU.
  destruct (UnmarshalFlags Later types environ (reflect.Struct n) defaults commandArgs
              (Some (reflect.Struct n)) ∅) as [[err|[focus remaining]]| |];
    cbn; try discriminate; [|congruence].
  unfold fillPositionalArgs.
  pose proof (fillArgs_not_OutOfFuel (reflect.fields types n) (length positionalArgs)
                positionalArgs remaining focus 0) as HF.
  destruct (fillArgs (reflect.fields types n) (length positionalArgs) positionalArgs
              focus 0 remaining) as [[focus' remaining']| |]; cbn; congruence.
Qed.

Lemma positionalParts_not_OutOfFuel (whole : string) (parts : list string) :
  positionalParts whole parts <> OutOfFuel.
Proof.
  induction parts as [|a parts IH]; cbn [positionalParts]; [discriminate|].
  destruct (String.eqb (readPositionalArg a) ""); [discriminate|].
  destruct (positionalParts whole parts); cbn; congruence.
Qed.

Lemma usage_not_OutOfFuel (cs : Commands) (args : list string) :
  usage_ cs args <> OutOfFuel.
Proof.
  unfold usage_. destruct args; [discriminate|].
  destruct (existsb _ cs); discriminate.
Qed.

Lemma applyEnv_not_OutOfFuel (entries : list string) :
  forall e, applyEnv e entries <> OutOfFuel.
Proof.
  induction entries as [|x entries IH]; intros e; cbn [applyEnv]; [discriminate|].
  destruct (strings.SplitN2 x "=") as [|k [|v t]]; try discriminate.
  destruct (os.Setenv e k (os.ExpandEnv e v)); [apply IH | discriminate].
Qed.

(** What [mergeArgsFileArgs] does to the world and the context. *)
Lemma mergeArgsFileArgs_spec (files : string -> fileResult) (filename : string)
    (ctx : Context) (w : World) (args : list string) :
  mergeArgsFileArgs files filename ctx w args <> OutOfFuel /\
  forall w' r, mergeArgsFileArgs files filename ctx w args = Ok (w', r) ->
    reads w' = filename :: reads w /\
    forall mergedArgs ctx', r = inr (mergedArgs, ctx') -> argFile ctx' <> None.
Proof.
  unfold mergeArgsFileArgs. destruct (files filename) as [ | |af].
  - split; [discriminate|]. intros w' r [= <- <-]. split; [reflexivity | discriminate].
  - split; [discriminate|]. intros w' r [= <- <-]. split; [reflexivity | discriminate].
  - cbn [environ reads].
    pose proof (applyEnv_not_OutOfFuel (Env af) (environ w)) as HE.
    destruct (applyEnv (environ w) (Env af)) as [[e [err|]]| |]; cbn; try congruence.
    + split; [discriminate|]. intros w' r [= <- <-]. split; [reflexivity | discriminate].
    + split; [discriminate|]. intros w' r [= <- <-]. split; [reflexivity|].
      intros mergedArgs ctx' [= _ <-]. discriminate.
    + split; [discriminate|]. discriminate.
Qed.

Lemma selectCommand_depth (cs : Commands) (cur : string) :
  forall c sub, selectCommand cs cur c = SelectedGroup sub ->
  (forestDepth sub < forestDepth cs)%nat.
Proof.
  induction cs as [|x cs IH]; intros c sub; cbn [selectCommand]; [discriminate|].
  unfold forestDepth in *.
  change (list_max (map depth (x :: cs)))
    with (Nat.max (depth x) (list_max (map depth cs))).
  destruct (String.eqb (strings.ToLower (Name x)) cur).
  - destruct x as [t|n u sub'].
    + intros H. specialize (IH _ _ H). lia.
    + intros [= <-]. cbn [depth]. fold (map depth sub'). lia.
  - intros H. specialize (IH _ _ H). lia.
Qed.

Section RunFacts.

Variable types : reflect.Types.
Variable files : string -> fileResult.

(** [Run] does not run out of fuel when it has more fuel than the forest is
    deep, plus one round for the argument file it may still load. *)
Lemma Run_fuel (fuel : nat) :
  forall (cs : Commands) (ctx : Context) (w : World) (args : list string),
  (forestDepth cs + expansionsLeft ctx < fuel)%nat ->
  Run types files fuel cs ctx w args <> OutOfFuel.
Proof.
  induction fuel as [|fuel IH]; intros cs ctx w args Hfuel; [lia|].
  cbn [Run].
  assert (Husage : (u ← usage_ cs args; Ok (w, u)) <> (OutOfFuel : result (World * Outcome))).
  { pose proof (usage_not_OutOfFuel cs args). destruct (usage_ cs args); cbn; congruence. }
  destruct (length args <? length (parentCommands ctx) + 2)%nat; [exact Husage|].
  destruct (args !! (length (parentCommands ctx) + 1)%nat) as [a|]; [|discriminate].
  destruct (strings.HasPrefix (strings.ToLower a) "@" && bool_decide (argFile ctx = None))
    eqn:Hat.
  - apply andb_true_iff in Hat as [_ Hnone]. apply bool_decide_eq_true in Hnone.
    destruct (mergeArgsFileArgs_spec files (os.drop 1 (strings.ToLower a)) ctx w args)
      as [Hm Hspec].
    destruct (mergeArgsFileArgs files (os.drop 1 (strings.ToLower a)) ctx w args)
      as [[w' r]| |]; cbn; [|discriminate|congruence].
    destruct r as [err|[mergedArgs ctx']]; [discriminate|].
    apply IH. destruct (Hspec _ _ eq_refl) as [_ Hctx].
    specialize (Hctx _ _ eq_refl). unfold expansionsLeft in *.
    rewrite Hnone in Hfuel. destruct (argFile ctx'); [lia | congruence].
  - destruct (selectCommand cs (strings.ToLower a) None) as [sub|[c|]] eqn:Hsel.
    + apply IH. pose proof (selectCommand_depth _ _ _ _ Hsel).
      unfold expansionsLeft in *. cbn [argFile withParentCommands]. lia.
    + destruct (String.eqb (command_Name c) ""); [exact Husage|].
      pose proof (positionalParts_not_OutOfFuel (command.name c)
                    (drop 1 (strings.Split (strings.ReplaceDoubleSpace (command.name c)) " ")))
        as HP.
      unfold PositionalArgs.
      destruct (positionalParts _ _) as [positionalArgs| |]; cbn; [|discriminate|congruence].
      pose proof (parseCommandFlags_not_OutOfFuel types (environ w) (command.defaultFlags c)
                    positionalArgs (drop (length (parentCommands ctx) + 2) args)) as HF.
      destruct (parseCommandFlags _ _ _ _ _) as [[err|[remaining arg]]| |]; cbn;
        (discriminate || congruence).
    + exact Husage.
Qed.

(** A call of [Run] reads no file when the context holds an argument file,
    and at most one file otherwise. *)
Lemma Run_reads (fuel : nat) :
  forall (cs : Commands) (ctx : Context) (w w' : World) (args : list string) (o : Outcome),
  Run types files fuel cs ctx w args = Ok (w', o) ->
  (argFile ctx <> None -> reads w' = reads w) /\
  (reads w' = reads w \/ exists filename, reads w' = filename :: reads w).
Proof.
  induction fuel as [|fuel IH]; intros cs ctx w w' args o; [discriminate|].
  cbn [Run].
  assert (Husage : (u ← usage_ cs args; Ok (w, u)) = Ok (w', o) ->
                   (argFile ctx <> None -> reads w' = reads w) /\
                   (reads w' = reads w \/ exists filename, reads w' = filename :: reads w)).
  { destruct (usage_ cs args); cbn; try discriminate. intros [= <- _]. auto. }
  destruct (length args <? length (parentCommands ctx) + 2)%nat; [exact Husage|].
  destruct (args !! (length (parentCommands ctx) + 1)%nat) as [a|]; [|discriminate].
  destruct (strings.HasPrefix (strings.ToLower a) "@" && bool_decide (argFile ctx = None))
    eqn:Hat.
  - apply andb_true_iff in Hat as [_ Hnone]. apply bool_decide_eq_true in Hnone.
    destruct (mergeArgsFileArgs_spec files (os.drop 1 (strings.ToLower a)) ctx w args)
      as [_ Hspec].
    destruct (mergeArgsFileArgs files (os.drop 1 (strings.ToLower a)) ctx w args)
      as [[w1 r]| |]; cbn; try discriminate.
    destruct (Hspec _ _ eq_refl) as [Hreads Hctx].
    destruct r as [err|[mergedArgs ctx']].
    + intros [= <- _]. split; [congruence|]. right. eauto.
    + intros HR. destruct (IH _ _ _ _ _ _ HR) as [Hsame _].
      rewrite (Hsame (Hctx _ _ eq_refl)), Hreads. split; [congruence|]. right. eauto.
  - destruct (selectCommand cs (strings.ToLower a) None) as [sub|[c|]].
    + intros HR. apply (IH _ _ _ _ _ _ HR).
    + destruct (String.eqb (command_Name c) ""); [exact Husage|].
      destruct (PositionalArgs c) as [positionalArgs| |]; cbn; try discriminate.
      destruct (parseCommandFlags _ _ _ _ _) as [[err|[remaining arg]]| |]; cbn;
        try discriminate; intros [= <- _]; auto.
    + exact Husage.
Qed.

(** C7.  A dispatch loads at most one argument file.  [Run] comes to an end
    with the fuel of the forest's depth (so an argument file that names
    itself does not make it recurse without bound); when the context holds
    an argument file already, no file is read, whatever tokens start with
    [@]; and otherwise at most one file is read. *)
Theorem Run_expands_at_most_one_file (cs : Commands) (ctx : Context) (w : World)
    (args : list string) :
  Run types files (runFuel cs) cs ctx w args <> OutOfFuel /\
  forall fuel w' o,
    Run types files fuel cs ctx w args = Ok (w', o) ->
    (argFile ctx <> None -> reads w' = reads w) /\
    (length (reads w') <= S (length (reads w)))%nat.
Proof.
  split.
  - apply Run_fuel. unfold runFuel, expansionsLeft. destruct (argFile ctx); lia.
  - intros fuel w' o HR. destruct (Run_reads fuel _ _ _ _ _ _ HR) as [Hsame Hone].
    split; [exact Hsame|].
    destruct Hone as [-> | [filename ->]]; cbn [length]; lia.
Qed.

End RunFacts.

Lemma Run_expands_at_most_one_file_witness :
  (argFile emptyContext <> None ->
   reads {| environ := ∅; reads := ["self.json"] |} = reads emptyWorld) /\
  (length (reads {| environ := ∅; reads := ["self.json"] |})
   <= S (length (reads emptyWorld)))%nat.
Proof.
  apply (proj2 (Run_expands_at_most_one_file sampleTypes sampleFiles
                  [Command_ (sampleCommand "cmd" "cmd" 1)] emptyContext emptyWorld
                  ["exe"; "@self.json"])
           (runFuel [Command_ (sampleCommand "cmd" "cmd" 1)])
           {| environ := ∅; reads := ["self.json"] |}
           (UsageOf [("cmd", "")] "exe")).
  vm_compute. reflexivity.
Defined.

(** ** Positional arguments *)

Section Positional.

Variable fields : list reflect.StructField.

Lemma fillArgs_strings (names : list string) (indices : list nat) :
  Forall2 (fun n i => findPositional fields 0 n = StringField i) names indices ->
  forall (total pos : nat) (focus : reflect.Record_) (args : list string),
  (pos + length names <= total)%nat ->
  (pos + length names <= length args)%nat ->
  fillArgs fields total names focus pos args
  = Ok (bindStrings indices (drop pos args) focus, drop (pos + length names) args).
Proof.
  induction 1 as [|n i names indices Hn _ IH]; intros total pos focus args Ht Ha;
    cbn [fillArgs length] in *.
  - rewrite Nat.add_0_r. reflexivity.
  - destruct (Nat.leb_spec total pos); [lia|].
    destruct (Nat.leb_spec (length args) pos); [lia|]. cbn [orb]. rewrite Hn.
    destruct (lookup_lt_is_Some_2 args pos) as [s Hs]; [lia|]. rewrite Hs.
    rewrite IH by lia. rewrite (drop_S _ _ _ Hs).
    replace (S pos + length names)%nat with (pos + S (length names))%nat by lia.
    reflexivity.
Qed.

Lemma fillArgs_strings_then_slice (names : list string) (indices : list nat)
    (v : string) (iv : nat) (more : list string) :
  Forall2 (fun n i => findPositional fields 0 n = StringField i) names indices ->
  findPositional fields 0 v = SliceField iv true ->
  forall (total pos : nat) (focus : reflect.Record_) (args : list string),
  (pos + length names < total)%nat ->
  (pos + length names < length args)%nat ->
  fillArgs fields total (names ++ v :: more) focus pos args
  = Ok (<[ [iv] := reflect.VSlice (drop (pos + length names) args) ]>
          (bindStrings indices (drop pos args) focus), []).
Proof.
  intros Hnames Hv.
  induction Hnames as [|n i names indices Hn _ IH]; intros total pos focus args Ht Ha;
    cbn [fillArgs length app] in *.
  - destruct (Nat.leb_spec total pos); [lia|].
    destruct (Nat.leb_spec (length args) pos); [lia|]. cbn [orb]. rewrite Hv.
    rewrite Nat.add_0_r. reflexivity.
  - destruct (Nat.leb_spec total pos); [lia|].
    destruct (Nat.leb_spec (length args) pos); [lia|]. cbn [orb]. rewrite Hn.
    destruct (lookup_lt_is_Some_2 args pos) as [s Hs]; [lia|]. rewrite Hs.
    rewrite IH by lia. rewrite (drop_S _ _ _ Hs).
    replace (S pos + length names)%nat with (pos + S (length names))%nat by lia.
    reflexivity.
Qed.

End Positional.

(** C9.  Positional binding consumes the leftover tokens from the left.
    When the declared names are those of string fields, each takes one
    token and the tokens after them are left; when they are followed by the
    name of a list field (and a token is left for it), the list field takes
    all the tokens that are left, binding ends, and no token remains. *)
Theorem positional_binding_left_to_right (types : reflect.Types) (t : string)
    (names : list string) (indices : list nat) (focus : reflect.Record_)
    (args : list string) :
  Forall2 (fun n i => findPositional (reflect.fields types t) 0 n = StringField i)
    names indices ->
  ((length names <= length args)%nat ->
   fillPositionalArgs types names (reflect.Struct t) focus args
   = Ok (bindStrings indices args focus, drop (length names) args)) /\
  (forall v iv more,
     findPositional (reflect.fields types t) 0 v = SliceField iv true ->
     (length names < length args)%nat ->
     fillPositionalArgs types (names ++ v :: more) (reflect.Struct t) focus args
     = Ok (<[ [iv] := reflect.VSlice (drop (length names) args) ]>
             (bindStrings indices args focus), [])).
Proof.
  intros Hnames. unfold fillPositionalArgs. split.
  - intros Hlen. apply (fillArgs_strings _ _ _ Hnames); cbn; lia.
  - intros v iv more Hv Hlen.
    apply (fillArgs_strings_then_slice _ _ _ _ _ _ Hnames Hv); [|cbn; lia].
    rewrite length_app. cbn. lia.
Qed.

Lemma positional_binding_left_to_right_witness :
  fillPositionalArgs sampleTypes (["file"] ++ "rest..." :: []) (reflect.Struct "pos") ∅
    ["a"; "b"; "c"]
  = Ok (<[ [1%nat] := reflect.VSlice (drop (length ["file"]) ["a"; "b"; "c"]) ]>
          (bindStrings [0%nat] ["a"; "b"; "c"] ∅), []).
Proof.
  apply (proj2 (positional_binding_left_to_right sampleTypes "pos" ["file"] [0%nat] ∅
                  ["a"; "b"; "c"]
                  ltac:(repeat constructor))
           "rest..." 1%nat []).
  - vm_compute. reflexivity.
  - cbn. lia.
Defined.

Lemma positional_example :
  PositionalArgs (sampleCommand "p [file] [rest...]" "pos" 1) = Ok ["file"; "rest..."] /\
  Run sampleTypes sampleFiles 3 [Command_ (sampleCommand "p [file] [rest...]" "pos" 1)]
    emptyContext emptyWorld ["exe"; "p"; "a"; "b"; "c"]
  = Ok (emptyWorld,
        Executed (sampleCommand "p [file] [rest...]" "pos" 1) emptyContext
          (StructFlags {[ [0%nat] := reflect.VString "a";
                          [1%nat] := reflect.VSlice ["b"; "c"] ]})).
Proof. split; vm_compute; reflexivity. Qed.

(** ** The guard of the later revision *)

(** In the later revision a field whose flag name is not of the form
    [[name]] is passed over, whatever its kind. *)
Lemma Later_skips_plain_names (environ : os.environ) (defaults : reflect.Record_)
    rec (w : walk) (prefix : string) (p : list nat) (i : nat)
    (f : reflect.StructField) (info : flagInfo) :
  readFlagInfo Later f prefix = Some info ->
  readPositionalArg (name info) = EmptyString ->
  collectField Later environ defaults rec w prefix p i f = Ok w.
Proof.
  intros Hread Hplain. unfold collectField, skipped. rewrite Hread, Hplain. reflexivity.
Qed.

(** In the earlier revision a field with a flag name and a string, bool or
    integer type gets one descriptor of that name, and a field without flag
    name gets none. *)
Lemma Earlier_registers_primitives (environ : os.environ) (defaults : reflect.Record_)
    rec (w w' : walk) (prefix : string) (p : list nat) (i : nat)
    (f : reflect.StructField) :
  collectField Earlier environ defaults rec w prefix p i f = Ok w' ->
  match readFlagInfo Earlier f prefix with
  | None => w' = w
  | Some info =>
      reflect.Type_ f = reflect.String \/ reflect.Type_ f = reflect.Bool \/
      reflect.Type_ f = reflect.Int ->
      exists d, collected w' = (collected w ++ [d])%list /\ name d = name info /\
                target d = Some (p ++ [i])%list /\ is_Some (flagSet w' !! name info)
  end.
Proof.
  unfold collectField.
  destruct (readFlagInfo Earlier f prefix) as [info|]; [|intros [= <-]; reflexivity].
  cbn [skipped]. intros H Hk.
  assert (Hreg : forall v s,
    target {| name := name info; usage := usage info; env := env info;
              validate := validate info; set := Some s |} = Some (p ++ [i])%list ->
    register w info v s = Ok w' ->
    exists d, collected w' = (collected w ++ [d])%list /\ name d = name info /\
              target d = Some (p ++ [i])%list /\ is_Some (flagSet w' !! name info)).
  { intros v s Ht. unfold register, flag.Var.
    destruct (flagSet w !! name info); [discriminate|]. intros [= <-].
    cbn [collected flagSet]. eexists. split; [reflexivity|]. split; [reflexivity|].
    split; [exact Ht|]. rewrite lookup_insert_eq. eauto. }
  destruct Hk as [Hk | [Hk | Hk]]; rewrite Hk in H;
    (eapply Hreg; [|exact H]; reflexivity).
Qed.

(** C1 fails on the later revision.  For the record type with one string
    field of flag name [string] and one field without flag name, the later
    walk collects nothing and [-string=x] is rejected as not defined; the
    earlier walk registers the flag [string] and binds the value. *)
Theorem Later_walk_registers_no_plain_flag :
  collected (walked (collectStructFlags Later sampleTypes ∅ ∅ (walkFuel sampleTypes)
                       emptyWalk EmptyString (reflect.Struct "ex1")
                       (Some (reflect.Struct "ex1")) [])) = [] /\
  UnmarshalFlags Later sampleTypes ∅ (reflect.Struct "ex1") ∅ ["-string=x"]
    (Some (reflect.Struct "ex1")) ∅
  = Ok (inl (flag.ErrNotDefined "string")) /\
  map name (collected (walked (collectStructFlags Earlier sampleTypes ∅ ∅
                                 (walkFuel sampleTypes) emptyWalk EmptyString
                                 (reflect.Struct "ex1") (Some (reflect.Struct "ex1")) [])))
  = ["string"] /\
  UnmarshalFlags Earlier sampleTypes ∅ (reflect.Struct "ex1") ∅ ["-string=x"]
    (Some (reflect.Struct "ex1")) ∅
  = Ok (inr ({[ [0%nat] := reflect.VString "x" ]}, [])).
Proof. repeat split; vm_compute; reflexivity. Qed.

(** ** Environment variables *)

(** [readEnv] is given the address of an [int64] for an integer field, a
    kind it has no case for: the environment never changes an integer
    default. *)
Lemma readEnv_Int64 (fi : flagInfo) (environ : os.environ) (v : reflect.Leaf) :
  readEnv fi environ reflect.Int64 v = None.
Proof.
  unfold readEnv. destruct (String.eqb (env fi) ""); [reflexivity|].
  destruct (os.LookupEnv environ (env fi)); reflexivity.
Qed.

(** C2 fails.  With [INT=5] and [BOOL=true] in the environment and no
    argument, the earlier revision resolves the integer field to its
    default 0 (and the bool field to true, as the test expects); the later
    revision leaves both fields untouched. *)
Theorem environment_value_not_applied :
  UnmarshalFlags Earlier sampleTypes {[ "INT" := "5"; "BOOL" := "true" ]}
    (reflect.Struct "Flags") ∅ [] (Some (reflect.Struct "Flags")) ∅
  = Ok (inr ({[ [0%nat] := reflect.VString ""; [1%nat] := reflect.VInt 0;
                [2%nat] := reflect.VBool true; [3%nat] := reflect.VSlice [];
                [4%nat; 0%nat] := reflect.VString ""; [4%nat; 1%nat] := reflect.VString "";
                [5%nat] := reflect.VMap ∅ ]}, [])) /\
  strconv.ParseInt10 "5" = Some 5 /\
  UnmarshalFlags Later sampleTypes {[ "INT" := "5"; "BOOL" := "true" ]}
    (reflect.Struct "Flags") ∅ [] (Some (reflect.Struct "Flags")) ∅
  = Ok (inr (∅, [])).
Proof. repeat split; vm_compute; reflexivity. Qed.

(** ** Commands of one name *)

(** Among commands only, the last one of the name is selected. *)
Lemma selectCommand_last (cs : Commands) (t : command.t) (cur : string) :
  Forall (fun x => exists t', x = Command_ t') cs ->
  strings.ToLower (command_Name t) = cur ->
  forall c, selectCommand (cs ++ [Command_ t]) cur c = SelectedCommand (Some t).
Proof.
  intros Hcs Ht. induction Hcs as [|x cs [t' ->] _ IH]; intros c; cbn [app selectCommand Name].
  - rewrite Ht, String.eqb_refl. reflexivity.
  - destruct (String.eqb (strings.ToLower (command_Name t')) cur); apply IH.
Qed.

(** C3 fails.  Of two commands of one name (in any letter case) the
    dispatcher runs the second: the [break] in the loop leaves the [switch],
    not the loop, so a later match replaces an earlier one. *)
Theorem Run_duplicate_name_runs_last :
  Run sampleTypes sampleFiles 3
    [Command_ (sampleCommand "cmd" "cmd" 1); Command_ (sampleCommand "CMD" "cmd" 2)]
    emptyContext emptyWorld ["exe"; "cmd"]
  = Ok (emptyWorld, Executed (sampleCommand "CMD" "cmd" 2) emptyContext (StructFlags ∅)) /\
  command.execute (sampleCommand "CMD" "cmd" 2) <> command.execute (sampleCommand "cmd" "cmd" 1).
Proof. split; [vm_compute; reflexivity | discriminate]. Qed.

(** ** Map flags *)

Lemma buildMap_app (a b : list stringMapEntry) :
  buildMap (a ++ b) = fold_left (fun m e => <[key e := value e]> m) b (buildMap a).
Proof. unfold buildMap. apply fold_left_app. Qed.

Lemma fold_insert_other (k : string) (b : list stringMapEntry) :
  Forall (fun e => key e <> k) b ->
  forall m : gmap string string,
  fold_left (fun m e => <[key e := value e]> m) b m !! k = m !! k.
Proof.
  induction 1 as [|e b He _ IH]; intros m; cbn [fold_left]; [reflexivity|].
  rewrite IH. apply lookup_insert_ne. exact He.
Qed.

(** The map is built in one pass over the collected entries, so the last
    entry of a key gives its value. *)
Lemma buildMap_last_wins (a b : list stringMapEntry) (k v : string) :
  Forall (fun e => key e <> k) b ->
  buildMap (a ++ {| key := k; value := v |} :: b) !! k = Some v.
Proof.
  intros Hb. rewrite buildMap_app. cbn [fold_left key value].
  rewrite (fold_insert_other k b Hb). apply lookup_insert_eq.
Qed.

(** C5 fails on the later revision.  The tokens [-map=a=1 -map=a=2] for the
    record of the tests give the map with [a] bound to [2] in the earlier
    revision; in the later one the flag [map] is not defined. *)
Theorem Later_map_flag_not_defined :
  UnmarshalFlags Later sampleTypes ∅ (reflect.Struct "Flags") ∅ ["-map=a=1"; "-map=a=2"]
    (Some (reflect.Struct "Flags")) ∅
  = Ok (inl (flag.ErrNotDefined "map")) /\
  reflect.getMap
    (resolved (UnmarshalFlags Earlier sampleTypes ∅ (reflect.Struct "Flags") ∅
                 ["-map=a=1"; "-map=a=2"] (Some (reflect.Struct "Flags")) ∅)) [5%nat]
  = {[ "a" := "2" ]}.
Proof. split; vm_compute; reflexivity. Qed.

(** ** Argument files *)

(** The sample file: its entries are applied from the left, each expanded
    in the environment the earlier ones left, and the rewritten vector holds
    the expanded argument. *)
Lemma mergeArgsFileArgs_example :
  mergeArgsFileArgs sampleFiles "args.json" emptyContext emptyWorld ["exe"; "@args.json"]
  = Ok ({| environ := {[ "b" := "1"; "x" := "a1" ]}; reads := ["args.json"] |},
        inr (["exe"; "cmd"; "--flag=1"],
             withArgFile emptyContext
               {| Command := ["cmd"]; Args := ["--flag=$b"]; Env := ["b=1"; "x=a$b"] |})).
Proof. vm_compute. reflexivity. Qed.

(** C8 fails on the later revision.  Loading the sample file sets [x] to
    [a1] and rewrites the vector to [exe cmd --flag=1], but the dispatch then
    ends with the error that the flag [flag] is not defined instead of
    binding it; the earlier walker binds [1] for the same tokens. *)
Theorem Run_argfile_flag_not_bound :
  Run sampleTypes sampleFiles 3 [Command_ (sampleCommand "cmd" "cmd" 1)]
    emptyContext emptyWorld ["exe"; "@args.json"]
  = Ok ({| environ := {[ "b" := "1"; "x" := "a1" ]}; reads := ["args.json"] |},
        Failed (FlagError (flag.ErrNotDefined "flag"))) /\
  UnmarshalFlags Earlier sampleTypes {[ "b" := "1"; "x" := "a1" ]} (reflect.Struct "cmd") ∅
    ["--flag=1"] (Some (reflect.Struct "cmd")) ∅
  = Ok (inr ({[ [0%nat] := reflect.VString "1" ]}, [])).
Proof. split; vm_compute; reflexivity. Qed.

(** ** Precedence without an explicit flag *)

(** X21.  When parsing succeeds and no token selects the flag of a collected
    descriptor, a string field holds the value of its environment variable
    if that is set, a bool field the parsed value of its variable if that is
    set and parses, and both hold the default otherwise; an integer field
    holds the default whatever the environment says. *)
Lemma unselected_field_resolves_to_environment_or_default
    (rev : revision) (types : reflect.Types) (environ : os.environ)
    (defaultsT : reflect.Kind) (defaults : reflect.Record_) (focusT : option reflect.Kind)
    (w : walk) (args rest : list string) (focus focus' : reflect.Record_)
    (f : flagInfo) (i : nat) :
  collectStructFlags rev types environ defaults (walkFuel types) emptyWalk
    EmptyString defaultsT focusT [] = Ok w ->
  UnmarshalFlags rev types environ defaultsT defaults args focusT focus
    = Ok (inr (focus', rest)) ->
  collected w !! i = Some f ->
  Forall (fun token => selects (name f) token = false) args ->
  let declared := if String.eqb (env f) EmptyString then None else environ !! env f in
  match set f with
  | Some (setString p) =>
      focus' !! p = Some (reflect.VString (default (reflect.getString defaults p) declared))
  | Some (setBool p) =>
      focus' !! p = Some (reflect.VBool (default (reflect.getBool defaults p)
                                           (declared ≫= strconv.ParseBool)))
  | Some (setInt p) => focus' !! p = Some (reflect.VInt (reflect.getInt defaults p))
  | _ => True
  end.
Proof.
  intros Hw HU Hi Hno declared.
  apply list_elem_of_lookup_2 in Hi.
  destruct (UnmarshalFlags_resolved rev types environ defaultsT defaults focusT
              w args rest focus focus' Hw HU) as (fs' & HP & Hres).
  destruct (walk_from_empty rev types environ defaultsT defaults focusT w Hw) as [Hreg _].
  destruct (Hreg f Hi) as [[p Hp] Hinit].
  pose proof (Hres f p Hi Hp) as Hval.
  rewrite <- (Parse_frame _ _ _ _ _ Hno HP) in Hinit.
  unfold target in Hp. unfold written in Hval. unfold initialValue in Hinit.
  destruct (set f) as [[q|q|q|q a|q a]|]; try exact I;
    injection Hp as ->; rewrite Hval; f_equal; f_equal.
  - unfold flagString. rewrite Hinit. unfold readEnv, os.LookupEnv. subst declared.
    destruct (String.eqb (env f) ""); [reflexivity|].
    destruct (environ !! env f); reflexivity.
  - unfold flagBool. rewrite Hinit. unfold readEnv, os.LookupEnv. subst declared.
    destruct (String.eqb (env f) ""); [reflexivity|].
    destruct (environ !! env f) as [v|]; [|reflexivity]. cbn.
    destruct (strconv.ParseBool v); reflexivity.
  - unfold flagInt. rewrite Hinit, readEnv_Int64. reflexivity.
Qed.

(** ** The package's tests, replayed *)

(** [TestFlagSet_UnmarshalFlags], its last case with flags: the earlier
    revision gives what the test expects; the later revision rejects the
    first flag. *)
Lemma TestFlagSet_UnmarshalFlags :
  UnmarshalFlags Earlier sampleTypes ∅ (reflect.Struct "Flags")
    {[ [1%nat] := reflect.VInt 2; [4%nat; 0%nat] := reflect.VString "default" ]}
    ["--list=a,b,c"; "--nested.string2=d"; "--map=a=1,b=2"; "--map=x=z"; "--list=d";
     "arg1"; "arg2"]
    (Some (reflect.Struct "Flags")) ∅
  = Ok (inr ({[ [0%nat] := reflect.VString ""; [1%nat] := reflect.VInt 2;
                [2%nat] := reflect.VBool false;
                [3%nat] := reflect.VSlice ["a"; "b"; "c"; "d"];
                [4%nat; 0%nat] := reflect.VString "default";
                [4%nat; 1%nat] := reflect.VString "d";
                [5%nat] := reflect.VMap {[ "a" := "1"; "b" := "2"; "x" := "z" ]} ]},
             ["arg1"; "arg2"])) /\
  UnmarshalFlags Later sampleTypes ∅ (reflect.Struct "Flags")
    {[ [1%nat] := reflect.VInt 2; [4%nat; 0%nat] := reflect.VString "default" ]}
    ["--list=a,b,c"; "--nested.string2=d"; "--map=a=1,b=2"; "--map=x=z"; "--list=d";
     "arg1"; "arg2"]
    (Some (reflect.Struct "Flags")) ∅
  = Ok (inl (flag.ErrNotDefined "list")).
Proof. split; vm_compute; reflexivity. Qed.

(** The library functions on a few inputs. *)
Lemma library_examples :
  strings.Split "a,b,,c" "," = ["a"; "b"; ""; "c"] /\
  strings.SplitN2 "a=b=c" "=" = ["a"; "b=c"] /\
  strings.SplitN2 "FOO" "=" = ["FOO"] /\
  strings.ReplaceDoubleSpace "cmd  [file]   [rest]" = "cmd [file]  [rest]" /\
  strings.ToLower "Print-Args" = "print-args" /\
  strconv.ParseInt10 "-12" = Some (-12) /\
  strconv.ParseInt10 "9223372036854775808" = None /\
  strconv.ParseInt0 "0x1F" = Some 31 /\
  strconv.ParseBool "T" = Some true /\
  strconv.ParseBool "yes" = None /\
  os.ExpandEnv {[ "b" := "1" ]} "a${b}-$b$c.${}x$" = "a1-1.x$" /\
  readPositionalArg "[rest...]" = "rest..." /\
  readPositionalArg "[]" = "" /\
  flag.classify "--map=a=1" = flag.IsFlag "map" (Some "a=1") /\
  flag.classify "--" = flag.Terminator /\
  flag.classify "-" = flag.NonFlag /\
  flag.classify "---x" = flag.BadSyntax.
Proof. repeat split; vm_compute; reflexivity. Qed.

(** ** Properties kept by every walk *)

Section WalkerInvariant.

Variable rev : revision.
Variable types : reflect.Types.
Variable environ : os.environ.
Variable defaults : reflect.Record_.

(** A property of the walk state that does not depend on the chain of types
    and that registering a flag for a field the guard lets through keeps. *)
Variable P : walk -> Prop.
Hypothesis P_seen : forall w chain,
  P w -> P {| flagSet := flagSet w; collected := collected w; seen := chain |}.
Hypothesis P_register : forall w info v s w',
  skipped rev info = false -> P w -> register w info v s = Ok w' -> P w'.

Lemma collectFields_invariant
    (rec : walk -> string -> reflect.Kind -> option reflect.Kind -> list nat -> result walk)
    (fs : list reflect.StructField) :
  (forall w prefix t ft p w', P w -> rec w prefix t ft p = Ok w' -> P w') ->
  forall (w w' : walk) (prefix : string) (p : list nat) (i : nat),
  P w -> collectFields rev environ defaults rec w prefix p i fs = Ok w' -> P w'.
Proof.
  intros Hrec. induction fs as [|f fs IH]; intros w w' prefix p i HP; cbn [collectFields].
  - intros [= <-]. exact HP.
  - destruct (collectField rev environ defaults rec w prefix p i f) as [w1| |] eqn:H1;
      cbn; try discriminate.
    apply IH.
    destruct (collectField_cases rev environ defaults rec w prefix p i f)
      as [H | [(info & v & s & Hskip & H) | (info & _ & _ & _ & H)]]; rewrite H in H1.
    + injection H1 as <-. exact HP.
    + apply (P_register _ _ _ _ _ Hskip HP H1).
    + apply (Hrec _ _ _ _ _ _ HP H1).
Qed.

Lemma walker_invariant (fuel : nat) :
  forall (w w' : walk) (prefix : string) (t : reflect.Kind) (ft : option reflect.Kind)
         (p : list nat),
  P w -> collectStructFlags rev types environ defaults fuel w prefix t ft p = Ok w' -> P w'.
Proof.
  induction fuel as [|fuel IH]; intros w w' prefix t ft p HP; cbn [collectStructFlags];
    [discriminate|].
  destruct (negb (bool_decide (ft = Some t))); [discriminate|].
  destruct (bool_decide (t ∈ seen w)); [discriminate|].
  destruct t as [ | | | | | |n| | ]; try discriminate.
  match goal with
  | |- context [collectFields _ _ _ _ ?w1 _ _ _ _] => set (w1' := w1)
  end.
  destruct (collectFields rev environ defaults _ w1' prefix p 0 (reflect.fields types n))
    as [w2| |] eqn:H2; cbn; try discriminate.
  intros [= <-]. apply P_seen.
  apply (collectFields_invariant _ _ (fun w0 pre t0 ft0 p0 w0' => IH w0 w0' pre t0 ft0 p0)
           _ _ _ _ _ (P_seen w _ HP) H2).
Qed.

End WalkerInvariant.

(** In the later revision every registered flag has a bracketed name. *)
Lemma Later_registers_bracketed_names_only (types : reflect.Types) (environ : os.environ)
    (defaults : reflect.Record_) (fuel : nat) (w : walk) (prefix : string)
    (t : reflect.Kind) (ft : option reflect.Kind) (p : list nat) (n : string) :
  collectStructFlags Later types environ defaults fuel emptyWalk prefix t ft p = Ok w ->
  readPositionalArg n = EmptyString ->
  flagSet w !! n = None.
Proof.
  intros Hw Hn.
  pose proof (walker_invariant Later types environ defaults
                (fun w => forall m, is_Some (flagSet w !! m) ->
                                    readPositionalArg m <> EmptyString)) as Hinv.
  destruct (flagSet w !! n) eqn:Hl; [exfalso|reflexivity].
  refine (Hinv _ _ fuel emptyWalk w prefix t ft p _ Hw n _ Hn).
  - intros w0 chain H0. exact H0.
  - intros w0 info x s w0' Hskip H0. unfold register, flag.Var.
    destruct (flagSet w0 !! name info); [discriminate|]. intros [= <-] m.
    cbn [flagSet]. rewrite lookup_insert. case_decide as Hm.
    + intros _. subst m. cbn [skipped] in Hskip.
      intros Heq. rewrite Heq in Hskip. discriminate.
    + apply H0.
  - intros m [x Hx]. cbn in Hx. rewrite lookup_empty in Hx. discriminate.
  - rewrite Hl. eauto.
Qed.

(** So whenever the later [UnmarshalFlags] returns on tokens that begin
    with a flag of a plain name, it returns the error that the flag is not
    defined, whatever the record type. *)
Lemma Later_rejects_plain_flags (types : reflect.Types) (environ : os.environ)
    (defaultsT : reflect.Kind) (defaults : reflect.Record_)
    (focusT : option reflect.Kind) (focus : reflect.Record_)
    (token : string) (args : list string) (n : string) (v : option string) r :
  flag.classify token = flag.IsFlag n v ->
  readPositionalArg n = EmptyString ->
  n <> "help" -> n <> "h" ->
  UnmarshalFlags Later types environ defaultsT defaults (token :: args) focusT focus = Ok r ->
  r = inl (flag.ErrNotDefined n).
Proof.
  intros Hc Hn Hhelp Hh. unfold UnmarshalFlags.
  destruct (collectStructFlags Later types environ defaults (walkFuel types) emptyWalk
              EmptyString defaultsT focusT []) as [w| |] eqn:Hw; cbn; try discriminate.
  cbn [flag.Parse]. rewrite Hc.
  rewrite (Later_registers_bracketed_names_only _ _ _ _ _ _ _ _ _ n Hw Hn).
  apply String.eqb_neq in Hhelp, Hh. rewrite Hhelp, Hh. cbn [orb].
  intros [= <-]. reflexivity.
Qed.

(** * Further properties *)

(** ** Splitting and joining *)

Lemma append_empty (s : string) : EmptyString ++ s = s.
Proof. reflexivity. Qed.

Lemma append_String (c : ascii) (a b : string) : String c a ++ b = String c (a ++ b).
Proof. reflexivity. Qed.

Lemma Split_nonempty (s : string) (sep : ascii) : strings.Split s sep <> [].
Proof.
  destruct s as [|c r]; cbn; [discriminate|].
  destruct (Ascii.eqb c sep); [discriminate|].
  destruct (strings.Split r sep); discriminate.
Qed.

Lemma Split_no_separator (s : string) (sep : ascii) :
  strings.ContainsByte s sep = false -> strings.Split s sep = [s].
Proof.
  induction s as [|c r IH]; cbn [strings.Split strings.ContainsByte]; [reflexivity|].
  intros H. apply orb_false_iff in H as [Hc Hr].
  rewrite Hc, (IH Hr). reflexivity.
Qed.

Lemma Split_app (a b : string) (sep : ascii) :
  strings.Split (a ++ String sep b) sep
  = (strings.Split a sep ++ strings.Split b sep)%list.
Proof.
  induction a as [|c a IH];
    rewrite ?append_empty, ?append_String; cbn [strings.Split app].
  - rewrite Ascii.eqb_refl. reflexivity.
  - destruct (Ascii.eqb c sep); rewrite IH; [reflexivity|].
    pose proof (Split_nonempty a sep).
    destruct (strings.Split a sep); [congruence | reflexivity].
Qed.

Lemma Join_cons (x y : string) (l : list string) (sep : string) :
  Join (x :: y :: l) sep = x ++ sep ++ Join (y :: l) sep.
Proof. reflexivity. Qed.

Lemma Split_Join (l : list string) (sep : ascii) :
  l <> [] ->
  Forall (fun s => strings.ContainsByte s sep = false) l ->
  strings.Split (Join l (String sep EmptyString)) sep = l.
Proof.
  intros Hne Hl. induction Hl as [|x l Hx Hl IH]; [congruence|].
  destruct l as [|y l].
  - apply Split_no_separator. exact Hx.
  - rewrite Join_cons, append_String, append_empty.
    rewrite Split_app, (Split_no_separator _ _ Hx), IH by discriminate. reflexivity.
Qed.

Lemma ContainsByte_app (a b : string) (c : ascii) :
  strings.ContainsByte (a ++ b) c
  = strings.ContainsByte a c || strings.ContainsByte b c.
Proof.
  induction a as [|x a IH];
    rewrite ?append_empty, ?append_String; cbn [strings.ContainsByte]; [reflexivity|].
  rewrite IH. apply orb_assoc.
Qed.

Lemma SplitN2_at_separator (k v : string) (sep : ascii) :
  strings.ContainsByte k sep = false ->
  strings.SplitN2 (k ++ String sep v) sep = [k; v].
Proof.
  induction k as [|c k IH];
    rewrite ?append_empty, ?append_String; cbn [strings.SplitN2 strings.ContainsByte].
  - intros _. rewrite Ascii.eqb_refl. reflexivity.
  - intros H. apply orb_false_iff in H as [Hc Hk]. rewrite Hc, (IH Hk). reflexivity.
Qed.

(** ** The accumulating flag values *)

Lemma stringMap_Set_pieces (pieces : list string) :
  forall sm,
  fold_left
    (fun sm e =>
       match strings.SplitN2 e "=" with
       | [k] => (sm ++ [{| key := k; value := EmptyString |}])%list
       | k :: v :: _ => (sm ++ [{| key := k; value := v |}])%list
       | [] => sm
       end) pieces sm
  = (sm ++ map entryOf pieces)%list.
Proof.
  induction pieces as [|e pieces IH]; intros sm; cbn [fold_left map].
  - rewrite app_nil_r. reflexivity.
  - rewrite IH. unfold entryOf.
    assert (Hne : strings.SplitN2 e "=" <> []).
    { destruct e as [|c r]; cbn; [discriminate|].
      destruct (Ascii.eqb c "="); [discriminate|].
      destruct (strings.SplitN2 r "=") as [|h [|h' t]]; discriminate. }
    destruct (strings.SplitN2 e "=") as [|k [|v t]]; [congruence| |];
      rewrite <- app_assoc; reflexivity.
Qed.

(** X1.  [Set] on a [stringMap] never changes or drops what was collected:
    the entries so far stay, in order, and one entry is appended for each
    comma-separated piece of the value, so the list grows by one more than
    the value has commas. *)
Theorem stringMap_Set_appends (sm : list stringMapEntry) (v : string) :
  stringMap_Set sm v = (sm ++ map entryOf (strings.Split v ","))%list /\
  length (stringMap_Set sm v) = (length sm + length (strings.Split v ","))%nat /\
  (1 <= length (strings.Split v ","))%nat.
Proof.
  assert (H : stringMap_Set sm v = (sm ++ map entryOf (strings.Split v ","))%list)
    by apply stringMap_Set_pieces.
  split; [exact H|]. split.
  - rewrite H, length_app, length_map. reflexivity.
  - pose proof (Split_nonempty v ","). destruct (strings.Split v ","); [congruence|cbn; lia].
Qed.

(** X2.  A [stringArray] that is not empty and whose elements hold no comma
    is read back by [Set] from its [String]; the empty one is not: its
    [String] is the empty text, which [Set] turns into a list of one empty
    element. *)
Theorem stringArray_String_Set (sa : list string) :
  Forall (fun s => strings.ContainsByte s "," = false) sa ->
  stringArray_Set [] (stringArray_String sa)
  = match sa with [] => [EmptyString] | _ => sa end.
Proof.
  intros Hsa. unfold stringArray_Set, stringArray_String. cbn [app].
  destruct sa as [|x sa]; [reflexivity|].
  apply Split_Join; [discriminate | exact Hsa].
Qed.

Lemma stringArray_String_Set_witness :
  stringArray_Set [] (stringArray_String ["a"; ""; "b c"]) = ["a"; ""; "b c"].
Proof.
  apply (stringArray_String_Set ["a"; ""; "b c"]). repeat constructor.
Defined.

(** X3.  A [stringMap] that is not empty, whose keys hold neither comma nor
    [=] and whose values hold no comma, is read back by [Set] from its
    [String]. *)
Theorem stringMap_String_Set (sm : list stringMapEntry) :
  sm <> [] ->
  Forall (fun e => strings.ContainsByte (key e) "," = false /\
                   strings.ContainsByte (key e) "=" = false /\
                   strings.ContainsByte (value e) "," = false) sm ->
  stringMap_Set [] (stringMap_String sm) = sm.
Proof.
  intros Hne Hsm. unfold stringMap_Set, stringMap_String.
  rewrite stringMap_Set_pieces. cbn [app].
  rewrite Split_Join.
  - rewrite map_map. clear Hne. induction Hsm as [|e sm (_ & He & _) _ IH]; [reflexivity|].
    cbn [map]. rewrite IH. f_equal. unfold entryOf.
    change (key e ++ "=" ++ value e) with (key e ++ String "=" (value e)).
    rewrite (SplitN2_at_separator _ _ _ He). destruct e; reflexivity.
  - destruct sm; [congruence | discriminate].
  - apply Forall_map. eapply Forall_impl; [exact Hsm|].
    intros e (Hk & _ & Hv). cbn beta.
    rewrite ContainsByte_app, Hk. cbn. exact Hv.
Qed.

Lemma stringMap_String_Set_witness :
  stringMap_Set [] (stringMap_String
                      [{| key := "a"; value := "1" |}; {| key := "b"; value := "x=y" |};
                       {| key := "c"; value := "" |}])
  = [{| key := "a"; value := "1" |}; {| key := "b"; value := "x=y" |};
     {| key := "c"; value := "" |}].
Proof.
  apply stringMap_String_Set; [discriminate | repeat constructor].
Defined.

(** X4.  The map that the closure of a map flag builds binds every key to
    the value of the last collected entry with that key, and binds no other
    key. *)
Theorem buildMap_lookup (sm : list stringMapEntry) (k : string) :
  buildMap sm !! k = value <$> last (filter (fun e => key e = k) sm).
Proof.
  induction sm as [|e sm IH] using rev_ind; [reflexivity|].
  rewrite buildMap_app. cbn [fold_left]. rewrite filter_app, filter_cons, filter_nil.
  destruct (decide (key e = k)) as [He | He].
  - rewrite last_snoc, He. cbn. apply lookup_insert_eq.
  - rewrite app_nil_r, lookup_insert_ne by exact He. exact IH.
Qed.

(** ** Bracketed names *)

Lemma length_append (a b : string) :
  String.length (a ++ b) = (String.length a + String.length b)%nat.
Proof.
  induction a as [|c a IH]; rewrite ?append_empty, ?append_String; cbn [String.length];
    [reflexivity | rewrite IH; reflexivity].
Qed.

Lemma get_after (a : string) (c : ascii) (b : string) :
  String.get (String.length a) (a ++ String c b) = Some c.
Proof.
  induction a as [|x a IH]; rewrite ?append_empty, ?append_String; cbn; [reflexivity|exact IH].
Qed.

Lemma substring_before (a b : string) :
  String.substring 0 (String.length a) (a ++ b) = a.
Proof.
  induction a as [|x a IH]; rewrite ?append_empty, ?append_String; cbn.
  - destruct b; reflexivity.
  - rewrite IH. reflexivity.
Qed.

Lemma split_last_byte (r : string) :
  forall (x c : ascii),
  String.get (String.length r) (String x r) = Some c ->
  String x r = String.substring 0 (String.length r) (String x r) ++ String c EmptyString.
Proof.
  induction r as [|y r IH]; intros x c Hget.
  - cbn in Hget. injection Hget as ->. reflexivity.
  - cbn [String.length String.get] in Hget.
    change (String.substring 0 (String.length (String y r)) (String x (String y r)))
      with (String x (String.substring 0 (String.length r) (String y r))).
    rewrite append_String. f_equal. apply IH.
    destruct (String.length r); exact Hget.
Qed.

Lemma readPositionalArg_bracketed (s : string) :
  s <> EmptyString -> readPositionalArg ("[" ++ s ++ "]") = s.
Proof.
  intros Hs. unfold readPositionalArg.
  rewrite append_String, append_empty. cbn [String.length String.get].
  rewrite length_append. cbn [String.length].
  assert (Hlen : (1 <= String.length s)%nat) by (destruct s; [congruence | cbn; lia]).
  destruct (Nat.ltb_spec 2 (S (String.length s + 1))); [|lia].
  replace (S (String.length s + 1) - 1)%nat with (S (String.length s)) by lia.
  cbn [String.get]. rewrite get_after.
  rewrite !bool_decide_eq_true_2 by reflexivity. cbn [andb String.substring].
  replace (S (String.length s + 1) - 2)%nat with (String.length s) by lia.
  apply substring_before.
Qed.

(** X5.  [readPositionalArg] gives a name exactly for the arguments that
    are that name in brackets: it reads [[name]] back as [name], and gives
    the empty string for everything else, also for [[]]. *)
Theorem readPositionalArg_brackets (arg s : string) :
  s <> EmptyString ->
  (readPositionalArg arg = s <-> arg = "[" ++ s ++ "]").
Proof.
  intros Hs. split.
  - unfold readPositionalArg. intros H.
    destruct ((2 <? String.length arg)%nat
              && bool_decide (String.get 0 arg = Some "["%char)
              && bool_decide (String.get (String.length arg - 1) arg = Some "]"%char))
      eqn:Hcond; [|congruence].
    apply andb_true_iff in Hcond as [Hcond Hlast].
    apply andb_true_iff in Hcond as [Hlen Hfirst].
    apply Nat.ltb_lt in Hlen. apply bool_decide_eq_true in Hfirst, Hlast.
    destruct arg as [|c [|y r]]; [cbn in Hlen; lia | cbn in Hlen; lia |].
    cbn in Hfirst. injection Hfirst as ->.
    rewrite append_String, append_empty. f_equal.
    rewrite <- H. cbn [String.length] in *.
    replace (S (S (String.length r)) - 2)%nat with (String.length r) by lia.
    replace (S (S (String.length r)) - 1)%nat with (S (String.length r)) in Hlast by lia.
    change (String.substring 1 (String.length r) (String "[" (String y r)))
      with (String.substring 0 (String.length r) (String y r)).
    apply split_last_byte. exact Hlast.
  - intros ->. apply readPositionalArg_bracketed. exact Hs.
Qed.

Lemma readPositionalArg_brackets_witness :
  readPositionalArg "[rest...]" = "rest..." <-> "[rest...]" = "[" ++ "rest..." ++ "]".
Proof. apply readPositionalArg_brackets. discriminate. Defined.

(** ** Declared command names *)

Lemma append_assoc' (a b c : string) : (a ++ b) ++ c = a ++ (b ++ c).
Proof.
  induction a as [|x a IH]; rewrite ?append_empty, ?append_String; [reflexivity|].
  rewrite IH. reflexivity.
Qed.

Lemma append_empty_r (a : string) : a ++ EmptyString = a.
Proof.
  induction a as [|x a IH]; rewrite ?append_empty, ?append_String; [reflexivity|].
  rewrite IH. reflexivity.
Qed.

(** The brackets that follow a name, as one text. *)
Lemma flagSetName_from (positionalArgs : list string) :
  forall exe,
  flagSetName exe positionalArgs
  = exe ++ fold_right (fun a t => String " " (("[" ++ a ++ "]") ++ t)) EmptyString positionalArgs.
Proof.
  unfold flagSetName.
  induction positionalArgs as [|a l IH]; intros exe; cbn [fold_left fold_right].
  - rewrite append_empty_r. reflexivity.
  - rewrite IH, !append_assoc'. reflexivity.
Qed.

Lemma ReplaceDoubleSpace_byte (c : ascii) (r : string) :
  Ascii.eqb c " " = false ->
  strings.ReplaceDoubleSpace (String c r) = String c (strings.ReplaceDoubleSpace r).
Proof.
  intros H. destruct r as [|c' r]; [reflexivity|].
  change (strings.ReplaceDoubleSpace (String c (String c' r)))
    with (if Ascii.eqb c " " && Ascii.eqb c' " "
          then String " " (strings.ReplaceDoubleSpace r)
          else String c (strings.ReplaceDoubleSpace (String c' r))).
  rewrite H. reflexivity.
Qed.

Lemma ReplaceDoubleSpace_space (c : ascii) (r : string) :
  Ascii.eqb c " " = false ->
  strings.ReplaceDoubleSpace (String " " (String c r))
  = String " " (strings.ReplaceDoubleSpace (String c r)).
Proof.
  intros H.
  change (strings.ReplaceDoubleSpace (String " " (String c r)))
    with (if Ascii.eqb " " " " && Ascii.eqb c " "
          then String " " (strings.ReplaceDoubleSpace r)
          else String " " (strings.ReplaceDoubleSpace (String c r))).
  rewrite H, andb_false_r. reflexivity.
Qed.

Lemma ReplaceDoubleSpace_word (a t : string) :
  strings.ContainsByte a " " = false ->
  strings.ReplaceDoubleSpace (a ++ t) = a ++ strings.ReplaceDoubleSpace t.
Proof.
  induction a as [|c a IH]; rewrite ?append_empty, ?append_String; [reflexivity|].
  cbn [strings.ContainsByte]. intros H. apply orb_false_iff in H as [Hc Ha].
  rewrite (ReplaceDoubleSpace_byte _ _ Hc), (IH Ha). reflexivity.
Qed.

Lemma ReplaceDoubleSpace_brackets (l : list string) :
  Forall (fun a => a <> EmptyString /\ strings.ContainsByte a " " = false) l ->
  let t := fold_right (fun a t => String " " (("[" ++ a ++ "]") ++ t)) EmptyString l in
  strings.ReplaceDoubleSpace t = t.
Proof.
  induction 1 as [|a l [_ Ha] _ IH]; cbn [fold_right]; [reflexivity|].
  cbn zeta in IH.
  rewrite !append_String, append_empty.
  rewrite ReplaceDoubleSpace_space by reflexivity.
  rewrite ReplaceDoubleSpace_byte by reflexivity.
  rewrite append_assoc', (ReplaceDoubleSpace_word a _ Ha).
  rewrite append_String, append_empty.
  rewrite ReplaceDoubleSpace_byte by reflexivity.
  rewrite IH. reflexivity.
Qed.

Lemma Split_brackets (l : list string) :
  Forall (fun a => a <> EmptyString /\ strings.ContainsByte a " " = false) l ->
  forall w, strings.ContainsByte w " " = false ->
  strings.Split
    (w ++ fold_right (fun a t => String " " (("[" ++ a ++ "]") ++ t)) EmptyString l) " "
  = w :: map (fun a => "[" ++ a ++ "]") l.
Proof.
  induction 1 as [|a l [_ Ha] _ IH]; intros w Hw; cbn [fold_right map].
  - rewrite append_empty_r. apply Split_no_separator. exact Hw.
  - rewrite Split_app, (Split_no_separator _ _ Hw), IH; [reflexivity|].
    rewrite !ContainsByte_app, Ha. reflexivity.
Qed.

Lemma positionalParts_brackets (whole : string) (l : list string) :
  Forall (fun a => a <> EmptyString /\ strings.ContainsByte a " " = false) l ->
  positionalParts whole (map (fun a => "[" ++ a ++ "]") l) = Ok l.
Proof.
  induction 1 as [|a l [Ha _] _ IH]; cbn [map positionalParts]; [reflexivity|].
  rewrite (readPositionalArg_bracketed a Ha), IH.
  apply String.eqb_neq in Ha. rewrite Ha. reflexivity.
Qed.

(** X6.  A command declared under the name that [parseCommandFlags] prints
    for it (a word, then each positional name in brackets after one space,
    names not empty and free of spaces) has that word as its [Name] and
    those names, in order, as its [PositionalArgs]. *)
Theorem declared_name_reads_back (c : command.t) (n : string) (positionalArgs : list string) :
  strings.ContainsByte n " " = false ->
  Forall (fun a => a <> EmptyString /\ strings.ContainsByte a " " = false) positionalArgs ->
  command.name c = flagSetName n positionalArgs ->
  command_Name c = n /\ PositionalArgs c = Ok positionalArgs.
Proof.
  intros Hn Hargs Hname. unfold command_Name, PositionalArgs.
  rewrite Hname, flagSetName_from.
  rewrite (ReplaceDoubleSpace_word _ _ Hn), (ReplaceDoubleSpace_brackets _ Hargs).
  split.
  - destruct positionalArgs as [|a l]; cbn [fold_right].
    + rewrite append_empty_r, (SplitN2_no_separator _ _ Hn). reflexivity.
    + rewrite (SplitN2_at_separator _ _ _ Hn). reflexivity.
  - rewrite (Split_brackets _ Hargs _ Hn). cbn [drop].
    apply positionalParts_brackets. exact Hargs.
Qed.

Lemma declared_name_reads_back_witness :
  command_Name (sampleCommand "p [file] [rest...]" "pos" 1) = "p" /\
  PositionalArgs (sampleCommand "p [file] [rest...]" "pos" 1) = Ok ["file"; "rest..."].
Proof.
  apply declared_name_reads_back.
  - reflexivity.
  - repeat constructor; discriminate.
  - reflexivity.
Defined.

(** X7.  [PositionalArgs] gives the names in the brackets when every word
    after the first is a bracketed name, and panics otherwise, naming the
    whole declaration: it never returns a part of the names.  A trailing
    space or three spaces in a row leave an empty word, so they panic. *)
Theorem PositionalArgs_all_or_panic (c : command.t) :
  let parts := drop 1 (strings.Split (strings.ReplaceDoubleSpace (command.name c)) " ") in
  PositionalArgs c
  = if forallb (fun part => negb (String.eqb (readPositionalArg part) EmptyString)) parts
    then Ok (map readPositionalArg parts)
    else Panic (InvalidPositionalArgs (command.name c)).
Proof.
  intros parts. unfold PositionalArgs. fold parts.
  induction parts as [|part parts IH]; cbn [positionalParts forallb map]; [reflexivity|].
  destruct (String.eqb (readPositionalArg part) ""); cbn [negb andb]; [reflexivity|].
  rewrite IH.
  destruct (forallb _ parts); reflexivity.
Qed.

(** ** Positional binding: running out of tokens, and what is left alone *)

Lemma fillArgs_strings_any (fields : list reflect.StructField)
    (names : list string) (indices : list nat) :
  Forall2 (fun n i => findPositional fields 0 n = StringField i) names indices ->
  forall (total pos : nat) (focus : reflect.Record_) (args : list string),
  (pos + length names <= total)%nat ->
  fillArgs fields total names focus pos args
  = Ok (bindStrings indices (drop pos args) focus,
        drop (pos + Nat.min (length names) (length args - pos)) args).
Proof.
  induction 1 as [|n i names indices Hn _ IH]; intros total pos focus args Ht;
    cbn [fillArgs length] in *.
  - rewrite Nat.add_0_r. reflexivity.
  - destruct (Nat.leb_spec total pos); [lia|]. cbn [orb].
    destruct (Nat.leb_spec (length args) pos) as [Hshort | Hlong].
    + rewrite (drop_ge args pos Hshort).
      replace (length args - pos)%nat with 0%nat by lia.
      rewrite Nat.min_0_r, Nat.add_0_r, (drop_ge args pos Hshort). reflexivity.
    + rewrite Hn. destruct (lookup_lt_is_Some_2 args pos) as [s Hs]; [lia|]. rewrite Hs.
      rewrite IH by lia. rewrite (drop_S _ _ _ Hs).
      apply f_equal. apply (f_equal2 pair); [reflexivity | f_equal; lia].
Qed.

(** X8.  When fewer tokens are left than string-typed positional names are
    declared, binding stops without error once the tokens are used up: the
    first names get one token each, the fields of the other names are not
    written, and no token remains. *)
Theorem fillPositionalArgs_runs_out_of_tokens (types : reflect.Types) (t : string)
    (names : list string) (indices : list nat) (focus : reflect.Record_)
    (args : list string) :
  Forall2 (fun n i => findPositional (reflect.fields types t) 0 n = StringField i)
    names indices ->
  (length args < length names)%nat ->
  fillPositionalArgs types names (reflect.Struct t) focus args
  = Ok (bindStrings (take (length args) indices) args focus, []).
Proof.
  intros Hnames Hlen. unfold fillPositionalArgs.
  rewrite (fillArgs_strings_any _ _ _ Hnames) by (cbn; lia).
  cbn [drop Nat.add]. rewrite Nat.sub_0_r.
  replace (Nat.min (length names) (length args)) with (length args) by lia.
  rewrite drop_all. f_equal. f_equal. unfold bindStrings. f_equal.
  clear. revert indices. induction args as [|a args IH]; intros [|i indices]; cbn;
    try reflexivity. rewrite IH. reflexivity.
Qed.

Lemma fillPositionalArgs_runs_out_of_tokens_witness :
  fillPositionalArgs copyTypes ["src"; "dst"] (reflect.Struct "copy") ∅ ["a"]
  = Ok (bindStrings (take (length ["a"]) [0%nat; 1%nat]) ["a"] ∅, []).
Proof.
  apply fillPositionalArgs_runs_out_of_tokens; [repeat constructor | cbn; lia].
Defined.

Lemma fillArgs_safe (fields : list reflect.StructField) (total : nat)
    (names : list string) (args : list string) :
  forall (focus : reflect.Record_) (pos : nat),
  match fillArgs fields total names focus pos args with
  | Ok (focus', remaining) =>
      (exists k, remaining = drop k args) /\
      forall p, length p <> 1%nat -> focus' !! p = focus !! p
  | Panic m => m = NotAssignable
  | OutOfFuel => False
  end.
Proof.
  induction names as [|n names IH]; intros focus pos; cbn [fillArgs].
  - split; [eauto | reflexivity].
  - destruct (Nat.leb_spec total pos); cbn [orb]; [split; [eauto | reflexivity]|].
    destruct (Nat.leb_spec (length args) pos); [split; [eauto | reflexivity]|].
    destruct (findPositional fields 0 n) as [|i|i a]; [split; [eauto | reflexivity]| |].
    + destruct (lookup_lt_is_Some_2 args pos) as [s Hs]; [lia|]. rewrite Hs.
      specialize (IH (<[ [i] := reflect.VString s ]> focus) (S pos)).
      destruct (fillArgs fields total names _ (S pos) args) as [[focus' remaining]| |];
        [|exact IH|exact IH].
      destruct IH as [Hk Hframe]. split; [exact Hk|].
      intros p Hp. rewrite (Hframe p Hp). apply lookup_insert_ne.
      intros <-. apply Hp. reflexivity.
    + destruct a; [|reflexivity]. split.
      * exists (length args). rewrite drop_all. reflexivity.
      * intros p Hp. apply lookup_insert_ne. intros <-. apply Hp. reflexivity.
Qed.

(** X9.  [fillPositionalArgs] never indexes a token that is not there: on a
    struct its only panic is the assignment of the tokens to a slice field
    of another element type.  When it returns, the remaining tokens are a
    tail of the tokens it was given, and only fields of the record itself
    were written, none of a nested record. *)
Theorem fillPositionalArgs_safe (types : reflect.Types) (positionalArgs : list string)
    (t : string) (focus : reflect.Record_) (argsAfterFlags : list string) :
  match fillPositionalArgs types positionalArgs (reflect.Struct t) focus argsAfterFlags with
  | Ok (focus', remaining) =>
      (exists k, remaining = drop k argsAfterFlags) /\
      forall p, length p <> 1%nat -> focus' !! p = focus !! p
  | Panic m => m = NotAssignable
  | OutOfFuel => False
  end.
Proof. apply fillArgs_safe. Qed.

(** ** The schema walker: names *)

(** X10.  When a walk returns, no two collected descriptors have the same
    name, and the flag set holds exactly the flags of the collected names: a
    clash of names never gets through, since registering a name twice
    panics. *)
Theorem collected_names_are_distinct (rev : revision) (types : reflect.Types)
    (environ : os.environ) (defaults : reflect.Record_) (fuel : nat) (w : walk)
    (prefix : string) (t : reflect.Kind) (ft : option reflect.Kind) (p : list nat) :
  collectStructFlags rev types environ defaults fuel emptyWalk prefix t ft p = Ok w ->
  NoDup (map name (collected w)) /\
  forall n, is_Some (flagSet w !! n) <-> n ∈ map name (collected w).
Proof.
  apply (walker_invariant rev types environ defaults
           (fun w => NoDup (map name (collected w)) /\
                     forall n, is_Some (flagSet w !! n) <-> n ∈ map name (collected w))).
  - intros w0 chain H0. exact H0.
  - intros w0 info v s w0' _ [Hnd Hdom]. unfold register, flag.Var.
    destruct (flagSet w0 !! name info) eqn:Hfresh; [discriminate|]. intros [= <-].
    cbn [collected flagSet]. rewrite map_app. cbn [map name]. split.
    + apply NoDup_app. split; [exact Hnd|]. split; [|apply NoDup_singleton].
      intros n Hn Hn'. apply list_elem_of_singleton in Hn'. subst n.
      apply Hdom in Hn. rewrite Hfresh in Hn. destruct Hn. discriminate.
    + intros n. rewrite elem_of_app, list_elem_of_singleton, lookup_insert.
      case_decide as Hn.
      * subst n. split; [auto | eauto].
      * rewrite Hdom. split; [auto | intros [H | H]; [exact H | congruence]].
  - cbn. split; [constructor|]. intros n. rewrite lookup_empty. split.
    + intros [x Hx]. discriminate.
    + intros Hn. inversion Hn.
Qed.

Lemma collected_names_are_distinct_witness :
  NoDup (map name (collected (walked
    (collectStructFlags Earlier sampleTypes ∅ ∅ (walkFuel sampleTypes) emptyWalk
       EmptyString (reflect.Struct "Flags") (Some (reflect.Struct "Flags")) [])))) /\
  forall n, is_Some (flagSet (walked
    (collectStructFlags Earlier sampleTypes ∅ ∅ (walkFuel sampleTypes) emptyWalk
       EmptyString (reflect.Struct "Flags") (Some (reflect.Struct "Flags")) [])) !! n)
    <-> n ∈ map name (collected (walked
    (collectStructFlags Earlier sampleTypes ∅ ∅ (walkFuel sampleTypes) emptyWalk
       EmptyString (reflect.Struct "Flags") (Some (reflect.Struct "Flags")) []))).
Proof.
  apply (collected_names_are_distinct Earlier sampleTypes ∅ ∅ (walkFuel sampleTypes) _
           EmptyString (reflect.Struct "Flags") (Some (reflect.Struct "Flags")) []).
  vm_compute. reflexivity.
Defined.

Section WalkerPrefix.

Variable rev : revision.
Variable types : reflect.Types.
Variable environ : os.environ.
Variable defaults : reflect.Record_.

Lemma readFlagInfo_name (f : reflect.StructField) (prefix : string) (info : flagInfo) :
  readFlagInfo rev f prefix = Some info ->
  exists tag0, tag0 <> EmptyString /\ name info = prefix ++ tag0.
Proof.
  unfold readFlagInfo. destruct (strings.Split (reflect.flagTag f) ",") as [|tag0 ?];
    [discriminate|].
  destruct (String.eqb_spec tag0 ""); [discriminate|]. intros [= <-]. eauto.
Qed.

Lemma childPrefix_extends (prefix : string) (info : flagInfo) :
  (exists tag0, tag0 <> EmptyString /\ name info = prefix ++ tag0) ->
  exists rest, childPrefix info = prefix ++ rest.
Proof.
  intros (tag0 & Htag & Hname). unfold childPrefix.
  destruct (String.eqb_spec (name info) "-") as [Hdash | _].
  - exists EmptyString. rewrite append_empty_r.
    rewrite Hname in Hdash. destruct prefix as [|c prefix]; [reflexivity|].
    rewrite append_String in Hdash. injection Hdash as _ Hrest.
    destruct prefix; [rewrite append_empty in Hrest; congruence | discriminate].
  - exists (tag0 ++ "."). rewrite Hname, append_assoc'. reflexivity.
Qed.

Lemma collectFields_names_under
    (rec : walk -> string -> reflect.Kind -> option reflect.Kind -> list nat -> result walk)
    (fs : list reflect.StructField) :
  (forall w prefix t ft p w', rec w prefix t ft p = Ok w' ->
     exists new, collected w' = (collected w ++ new)%list /\
       Forall (fun f => exists rest, name f = prefix ++ rest) new) ->
  forall (w w' : walk) (prefix : string) (p : list nat) (i : nat),
  collectFields rev environ defaults rec w prefix p i fs = Ok w' ->
  exists new, collected w' = (collected w ++ new)%list /\
    Forall (fun f => exists rest, name f = prefix ++ rest) new.
Proof.
  intros Hrec. induction fs as [|f fs IH]; intros w w' prefix p i; cbn [collectFields].
  - intros [= <-]. exists []. rewrite app_nil_r. split; [reflexivity | constructor].
  - destruct (collectField rev environ defaults rec w prefix p i f) as [w1| |] eqn:H1;
      cbn; try discriminate.
    intros H2. destruct (IH _ _ _ _ _ H2) as (new2 & Hc2 & Hn2).
    assert (Hfield : exists new, collected w1 = (collected w ++ new)%list /\
                       Forall (fun f => exists rest, name f = prefix ++ rest) new).
    { clear H2 Hc2 Hn2 IH. unfold collectField in H1.
      destruct (readFlagInfo rev f prefix) as [info|] eqn:Hread.
      2:{ injection H1 as <-. exists []. rewrite app_nil_r. split; [reflexivity|constructor]. }
      pose proof (readFlagInfo_name _ _ _ Hread) as Hname.
      assert (Hsame : w1 = w -> exists new, collected w1 = (collected w ++ new)%list /\
                        Forall (fun f => exists rest, name f = prefix ++ rest) new).
      { intros ->. exists []. rewrite app_nil_r. split; [reflexivity|constructor]. }
      assert (Hreg : forall v s, register w info v s = Ok w1 ->
                exists new, collected w1 = (collected w ++ new)%list /\
                  Forall (fun f => exists rest, name f = prefix ++ rest) new).
      { intros v s. unfold register.
        destruct (flag.Var (flagSet w) (name info) v); [|discriminate]. intros [= <-].
        eexists. split; [reflexivity|]. constructor; [|constructor].
        cbn [name]. destruct Hname as (tag0 & _ & ->). eauto. }
      assert (Hnest : forall t, rec w (childPrefix info) t (Some t) (p ++ [i])%list = Ok w1 ->
                exists new, collected w1 = (collected w ++ new)%list /\
                  Forall (fun f => exists rest, name f = prefix ++ rest) new).
      { intros t Hr. destruct (Hrec _ _ _ _ _ _ Hr) as (new & Hc & Hn).
        exists new. split; [exact Hc|].
        destruct (childPrefix_extends prefix info Hname) as (mid & Hmid).
        eapply Forall_impl; [exact Hn|]. intros g (rest & Hg).
        exists (mid ++ rest). rewrite Hg, Hmid, append_assoc'. reflexivity. }
      destruct (skipped rev info); [injection H1 as <-; auto|].
      destruct (reflect.Type_ f) as [ | | | |ks a|a|t|t| ]; eauto;
        try (injection H1 as <-; auto; fail).
      destruct ks; cbn [negb] in H1; [eauto | injection H1 as <-; auto]. }
    destruct Hfield as (new1 & Hc1 & Hn1).
    exists (new1 ++ new2)%list. split; [rewrite Hc2, Hc1, app_assoc; reflexivity|].
    apply Forall_app. split; assumption.
Qed.

(** X11.  Every descriptor that a walk under a prefix adds has a name that
    begins with the prefix.  So the flags of a nested record all begin with
    the name of its field and a dot; and the squash marker is only
    recognised where the prefix is empty, since below a nested record the
    marker is part of a longer name. *)
Theorem names_begin_with_prefix (fuel : nat) :
  forall (w w' : walk) (prefix : string) (t : reflect.Kind) (ft : option reflect.Kind)
         (p : list nat),
  collectStructFlags rev types environ defaults fuel w prefix t ft p = Ok w' ->
  exists new, collected w' = (collected w ++ new)%list /\
    Forall (fun f => exists rest, name f = prefix ++ rest) new.
Proof.
  induction fuel as [|fuel IH]; intros w w' prefix t ft p; cbn [collectStructFlags];
    [discriminate|].
  destruct (negb (bool_decide (ft = Some t))); [discriminate|].
  destruct (bool_decide (t ∈ seen w)); [discriminate|].
  destruct t as [ | | | | | |n| | ]; try discriminate.
  match goal with
  | |- context [collectFields _ _ _ _ ?w1 _ _ _ _] => set (w1' := w1)
  end.
  destruct (collectFields rev environ defaults _ w1' prefix p 0 (reflect.fields types n))
    as [w2| |] eqn:H2; cbn; try discriminate.
  intros [= <-]. cbn [collected].
  apply (collectFields_names_under _ _ (fun w0 pre t0 ft0 p0 w0' => IH w0 w0' pre t0 ft0 p0)
           _ _ _ _ _ H2).
Qed.

End WalkerPrefix.

Lemma names_begin_with_prefix_witness :
  exists new,
    collected (walked
      (collectStructFlags Earlier sampleTypes ∅ ∅ 2 emptyWalk "nested."
         (reflect.Struct "Object") (Some (reflect.Struct "Object")) [4%nat]))
    = (collected emptyWalk ++ new)%list /\
    Forall (fun f => exists rest, name f = "nested." ++ rest) new.
Proof.
  apply (names_begin_with_prefix Earlier sampleTypes ∅ ∅ 2 emptyWalk _ "nested."
           (reflect.Struct "Object") (Some (reflect.Struct "Object")) [4%nat]).
  vm_compute. reflexivity.
Defined.

(** ** What [UnmarshalFlags] leaves alone *)

(** X12.  [UnmarshalFlags] writes the fields of the collected descriptors
    and nothing else: a field without descriptor (no flag name, a kind the
    walker passes over, or skipped by the guard) keeps the value it had in
    the destination record. *)
Theorem UnmarshalFlags_writes_collected_fields_only
    (rev : revision) (types : reflect.Types) (environ : os.environ)
    (defaultsT : reflect.Kind) (defaults : reflect.Record_) (focusT : option reflect.Kind)
    (w : walk) (args rest : list string) (focus focus' : reflect.Record_) (p : list nat) :
  collectStructFlags rev types environ defaults (walkFuel types) emptyWalk
    EmptyString defaultsT focusT [] = Ok w ->
  UnmarshalFlags rev types environ defaultsT defaults args focusT focus
    = Ok (inr (focus', rest)) ->
  Forall (fun f => target f <> Some p) (collected w) ->
  focus' !! p = focus !! p.
Proof.
  intros Hw. unfold UnmarshalFlags. rewrite Hw. cbn.
  destruct (flag.Parse (flagSet w) args) as [err|[fs' rest']]; [discriminate|].
  destruct (runSets fs' focus (reverse (collected w))) as [focus1| |] eqn:HS;
    cbn; try discriminate.
  intros [= <- _] Hno. apply (runSets_elsewhere _ _ _ _ _ HS).
  intros g Hg. rewrite elem_of_reverse in Hg.
  rewrite Forall_forall in Hno. apply Hno. exact Hg.
Qed.

Lemma UnmarshalFlags_writes_collected_fields_only_witness :
  resolved (UnmarshalFlags Earlier sampleTypes ∅ (reflect.Struct "ex1") ∅ ["-string=x"]
              (Some (reflect.Struct "ex1")) {[ [1%nat] := reflect.VString "kept" ]})
    !! [1%nat]
  = ({[ [1%nat] := reflect.VString "kept" ]} : reflect.Record_) !! [1%nat].
Proof.
  apply (UnmarshalFlags_writes_collected_fields_only Earlier sampleTypes ∅
           (reflect.Struct "ex1") ∅ (Some (reflect.Struct "ex1"))
           (walked (collectStructFlags Earlier sampleTypes ∅ ∅ (walkFuel sampleTypes)
                      emptyWalk EmptyString (reflect.Struct "ex1")
                      (Some (reflect.Struct "ex1")) []))
           ["-string=x"] []).
  - vm_compute. reflexivity.
  - vm_compute. reflexivity.
  - vm_compute. repeat constructor. discriminate.
Defined.

Lemma unselected_field_resolves_to_environment_or_default_witness :
  resolved (UnmarshalFlags Earlier sampleTypes {[ "BOOL" := "true" ]}
              (reflect.Struct "Flags") ∅ ["--string=x"; "arg"]
              (Some (reflect.Struct "Flags")) ∅) !! [2%nat]
  = Some (reflect.VBool
            (default (reflect.getBool ∅ [2%nat])
               ((if String.eqb "BOOL" EmptyString then None
                 else ({[ "BOOL" := "true" ]} : os.environ) !! "BOOL")
                ≫= strconv.ParseBool))).
Proof.
  apply (unselected_field_resolves_to_environment_or_default Earlier sampleTypes
           {[ "BOOL" := "true" ]} (reflect.Struct "Flags") ∅ (Some (reflect.Struct "Flags"))
           (walked (collectStructFlags Earlier sampleTypes {[ "BOOL" := "true" ]} ∅
                      (walkFuel sampleTypes) emptyWalk EmptyString
                      (reflect.Struct "Flags") (Some (reflect.Struct "Flags")) []))
           ["--string=x"; "arg"] ["arg"] ∅ _
           {| name := "bool"; usage := ""; env := "BOOL"; validate := "";
              set := Some (setBool [2%nat]) |} 2).
  - vm_compute. reflexivity.
  - vm_compute. reflexivity.
  - vm_compute. reflexivity.
  - repeat constructor.
Defined.

(** X13.  In the later revision, tokens that begin with a flag of a plain
    name (one that is not in brackets, and is not [help] or [h]) are never
    parsed, whatever the record type and the defaults: unless the walk
    panics, [UnmarshalFlags] returns the error that the flag is not
    defined. *)
Theorem Later_never_parses_a_plain_flag (types : reflect.Types) (environ : os.environ)
    (defaultsT : reflect.Kind) (defaults : reflect.Record_)
    (focusT : option reflect.Kind) (focus : reflect.Record_)
    (token : string) (args : list string) (n : string) (v : option string) :
  flag.classify token = flag.IsFlag n v ->
  readPositionalArg n = EmptyString ->
  n <> "help" -> n <> "h" ->
  UnmarshalFlags Later types environ defaultsT defaults (token :: args) focusT focus
  = Ok (inl (flag.ErrNotDefined n)) \/
  isPanic (UnmarshalFlags Later types environ defaultsT defaults (token :: args)
             focusT focus).
Proof.
  intros Hc Hn Hhelp Hh.
  pose proof (Later_rejects_plain_flags types environ defaultsT defaults focusT focus
                token args n v) as Hr.
  pose proof (UnmarshalFlags_not_OutOfFuel Later types environ defaultsT defaults
                (token :: args) focusT focus) as Hfuel.
  destruct (UnmarshalFlags Later types environ defaultsT defaults (token :: args)
              focusT focus) as [r| |].
  - left. rewrite (Hr r Hc Hn Hhelp Hh eq_refl). reflexivity.
  - right. exact I.
  - congruence.
Qed.

Lemma Later_never_parses_a_plain_flag_witness :
  UnmarshalFlags Later sampleTypes ∅ (reflect.Struct "Flags") sampleDefaults
    ["--int=1"; "arg"] (Some (reflect.Struct "Flags")) ∅
  = Ok (inl (flag.ErrNotDefined "int")) \/
  isPanic (UnmarshalFlags Later sampleTypes ∅ (reflect.Struct "Flags") sampleDefaults
             ["--int=1"; "arg"] (Some (reflect.Struct "Flags")) ∅).
Proof.
  apply (Later_never_parses_a_plain_flag sampleTypes ∅ (reflect.Struct "Flags")
           sampleDefaults (Some (reflect.Struct "Flags")) ∅ "--int=1" ["arg"] "int"
           (Some "1")); (reflexivity || discriminate).
Defined.

(** ** Dispatch *)

(** X14.  The loop of [Run] over a forest chooses the first group of the
    wanted name, wherever it stands among commands of that name; when no
    group has the name it chooses the last command of the name, and none
    when no entry has it. *)
Theorem selectCommand_group_first_command_last (cs : Commands) (cur : string) :
  forall c,
  selectCommand cs cur c
  = match head (omap (matchingGroup cur) cs) with
    | Some sub => SelectedGroup sub
    | None =>
        SelectedCommand (match last (omap (matchingCommand cur) cs) with
                         | Some t => Some t
                         | None => c
                         end)
    end.
Proof.
  induction cs as [|x cs IH]; intros c; cbn [selectCommand]; [reflexivity|].
  destruct x as [t|n u sub]; cbn [Name omap list_omap matchingGroup matchingCommand].
  - destruct (String.eqb (strings.ToLower (command_Name t)) cur).
    + rewrite IH. fold (omap (matchingGroup cur) cs). fold (omap (matchingCommand cur) cs).
      destruct (head (omap (matchingGroup cur) cs)); [reflexivity|].
      rewrite last_cons. destruct (last (omap (matchingCommand cur) cs)); reflexivity.
    + apply IH.
  - destruct (String.eqb (strings.ToLower n) cur); [reflexivity | apply IH].
Qed.

Lemma selectCommand_found (cs : Commands) (cur : string) :
  forall c0,
  match selectCommand cs cur c0 with
  | SelectedGroup sub =>
      exists n u, In (CommandGroup_ n u sub) cs /\ strings.ToLower n = cur
  | SelectedCommand (Some c) =>
      c0 = Some c \/ (In (Command_ c) cs /\ strings.ToLower (command_Name c) = cur)
  | SelectedCommand None => c0 = None
  end.
Proof.
  induction cs as [|x cs IH]; intros c0; cbn [selectCommand].
  - destruct c0; auto.
  - destruct (String.eqb_spec (strings.ToLower (Name x)) cur) as [Hx | _].
    + destruct x as [t|n u sub].
      * specialize (IH (Some t)).
        destruct (selectCommand cs cur (Some t)) as [sub|[c|]].
        -- destruct IH as (n & u & Hin & Hn). exists n, u. split; [right; exact Hin | exact Hn].
        -- right. destruct IH as [[= <-] | [Hin Hc]]; [split; [left; reflexivity | exact Hx]|].
           split; [right; exact Hin | exact Hc].
        -- discriminate.
      * exists n, u. split; [left; reflexivity | exact Hx].
    + specialize (IH c0).
      destruct (selectCommand cs cur c0) as [sub|[c|]].
      * destruct IH as (n & u & Hin & Hn). exists n, u. split; [right; exact Hin | exact Hn].
      * destruct IH as [H | [Hin Hc]]; [left; exact H | right; split; [right; exact Hin | exact Hc]].
      * exact IH.
Qed.

Lemma forestCommands_group (cs sub : Commands) (n u : string) (c : command.t) :
  In (CommandGroup_ n u sub) cs -> In c (forestCommands sub) -> In c (forestCommands cs).
Proof.
  intros Hg Hc. unfold forestCommands. apply in_concat.
  exists (commandsOf (CommandGroup_ n u sub)). split; [|exact Hc].
  apply in_map. exact Hg.
Qed.

Lemma forestCommands_command (cs : Commands) (c : command.t) :
  In (Command_ c) cs -> In c (forestCommands cs).
Proof.
  intros Hc. unfold forestCommands. apply in_concat.
  exists (commandsOf (Command_ c)). split; [apply in_map; exact Hc | left; reflexivity].
Qed.

Section RunWithoutExpansion.

Variable types : reflect.Types.
Variable files : string -> fileResult.

Lemma noExpansion_token (ctx : Context) (args : list string) (i : nat) (a : string) :
  noExpansion ctx args -> args !! i = Some a ->
  strings.HasPrefix (strings.ToLower a) "@" && bool_decide (argFile ctx = None) = false.
Proof.
  intros [Hfile | Htokens] Ha.
  - rewrite bool_decide_eq_false_2 by exact Hfile. apply andb_false_r.
  - rewrite Forall_forall in Htokens.
    rewrite (Htokens a (list_elem_of_lookup_2 _ _ _ Ha)). reflexivity.
Qed.

Lemma Run_without_expansion_world (fuel : nat) :
  forall (cs : Commands) (ctx : Context) (w w' : World) (args : list string) (o : Outcome),
  noExpansion ctx args ->
  Run types files fuel cs ctx w args = Ok (w', o) ->
  w' = w.
Proof.
  induction fuel as [|fuel IH]; intros cs ctx w w' args o Hno; [discriminate|].
  cbn [Run].
  assert (Husage : (u ← usage_ cs args; Ok (w, u)) = Ok (w', o) -> w' = w).
  { destruct (usage_ cs args); cbn; try discriminate. intros [= <- _]. reflexivity. }
  destruct (length args <? length (parentCommands ctx) + 2)%nat; [exact Husage|].
  destruct (args !! (length (parentCommands ctx) + 1)%nat) as [a|] eqn:Ha; [|discriminate].
  rewrite (noExpansion_token _ _ _ _ Hno Ha).
  destruct (selectCommand cs (strings.ToLower a) None) as [sub|[c|]].
  - apply IH. exact Hno.
  - destruct (String.eqb (command_Name c) ""); [exact Husage|].
    destruct (PositionalArgs c) as [positionalArgs| |]; cbn; try discriminate.
    destruct (parseCommandFlags _ _ _ _ _) as [[err|[remaining arg]]| |]; cbn;
      try discriminate; intros [= <- _]; reflexivity.
  - exact Husage.
Qed.

(** X15.  A dispatch that cannot load an argument file (the context holds
    one already, or no token begins with [@]) leaves the process
    environment as it was and reads no file, however it ends. *)
Theorem Run_without_expansion_keeps_the_world (fuel : nat) (cs : Commands)
    (ctx : Context) (w : World) (args : list string) :
  noExpansion ctx args ->
  match Run types files fuel cs ctx w args with
  | Ok (w', _) => w' = w
  | _ => True
  end.
Proof.
  intros Hno.
  destruct (Run types files fuel cs ctx w args) as [[w' o]| |] eqn:HR; [|exact I|exact I].
  apply (Run_without_expansion_world fuel cs ctx w w' args o Hno HR).
Qed.

(** X16.  When such a dispatch executes a command, the command is one of the
    forest, at any depth; the context it gets keeps the argument file and
    has the parent path extended by the lower-cased tokens of the groups
    gone through; and the token after that path is the command's name up to
    letter case. *)
Theorem Run_executes_the_named_command (fuel : nat) :
  forall (cs : Commands) (ctx ctx' : Context) (w w' : World) (args : list string)
         (c : command.t) (arg : flagsValue),
  noExpansion ctx args ->
  Run types files fuel cs ctx w args = Ok (w', Executed c ctx' arg) ->
  In c (forestCommands cs) /\
  argFile ctx' = argFile ctx /\
  (exists path,
     parentCommands ctx' = (parentCommands ctx ++ path)%list /\
     path = map strings.ToLower
              (take (length path) (drop (length (parentCommands ctx) + 1) args))) /\
  strings.ToLower <$> args !! (length (parentCommands ctx') + 1)%nat
  = Some (strings.ToLower (command_Name c)).
Proof.
  induction fuel as [|fuel IH]; intros cs ctx ctx' w w' args c arg Hno; [discriminate|].
  cbn [Run].
  assert (Husage : forall R : Prop,
            (u ← usage_ cs args; Ok (w, u)) = Ok (w', Executed c ctx' arg) -> R).
  { intros R. unfold usage_. destruct args; cbn; try discriminate.
    destruct (existsb _ cs); cbn; discriminate. }
  destruct (length args <? length (parentCommands ctx) + 2)%nat; [apply Husage|].
  destruct (args !! (length (parentCommands ctx) + 1)%nat) as [a|] eqn:Ha; [|discriminate].
  rewrite (noExpansion_token _ _ _ _ Hno Ha).
  pose proof (selectCommand_found cs (strings.ToLower a) None) as Hsel.
  destruct (selectCommand cs (strings.ToLower a) None) as [sub|[c1|]].
  - intros HR. destruct Hsel as (n & u & Hin & Hn).
    assert (Hno2 : noExpansion
              (withParentCommands ctx (parentCommands ctx ++ [strings.ToLower a])) args)
      by exact Hno.
    destruct (IH sub _ ctx' w w' args c arg Hno2 HR)
      as (Hc & Hfile & (path & Hpath & Htok) & Hname).
    cbn [parentCommands argFile withParentCommands] in *.
    split; [apply (forestCommands_group cs sub n u c Hin Hc)|]. split; [exact Hfile|]. split.
    + exists (strings.ToLower a :: path). split; [rewrite Hpath, <- app_assoc; reflexivity|].
      cbn [length]. rewrite (drop_S _ _ _ Ha). cbn [take map]. f_equal.
      rewrite length_app in Htok. cbn [length] in Htok.
      replace (S (length (parentCommands ctx) + 1))
        with (length (parentCommands ctx) + 1 + 1)%nat by lia.
      exact Htok.
    + exact Hname.
  - destruct (String.eqb (command_Name c1) ""); [apply Husage|].
    destruct (PositionalArgs c1) as [positionalArgs| |]; cbn; try discriminate.
    destruct (parseCommandFlags _ _ _ _ _) as [[err|[remaining arg1]]| |]; cbn;
      try discriminate.
    intros [= _ <- <- _]. cbn [parentCommands argFile withRemainingArgs].
    destruct Hsel as [[=] | [Hin Hc]].
    split; [apply forestCommands_command; exact Hin|]. split; [reflexivity|]. split.
    + exists []. rewrite app_nil_r. split; reflexivity.
    + rewrite Ha. cbn. rewrite Hc. reflexivity.
  - apply Husage.
Qed.

End RunWithoutExpansion.

Lemma Run_without_expansion_keeps_the_world_witness :
  match Run sampleTypes sampleFiles 3 nestedForest emptyContext
          {| environ := {[ "x" := "1" ]}; reads := [] |} ["exe"; "Has_Sub"; "nothing"] with
  | Ok (w', _) => w' = {| environ := {[ "x" := "1" ]}; reads := [] |}
  | _ => True
  end.
Proof.
  apply Run_without_expansion_keeps_the_world.
  right. repeat constructor.
Defined.

Lemma Run_executes_the_named_command_witness :
  In (sampleCommand "cmd" "cmd" 2) (forestCommands nestedForest) /\
  argFile {| parentCommands := ["has_sub"]; argFile := None; remainingArgs := ["x"] |}
  = argFile emptyContext /\
  (exists path,
     parentCommands {| parentCommands := ["has_sub"]; argFile := None;
                       remainingArgs := ["x"] |}
     = (parentCommands emptyContext ++ path)%list /\
     path = map strings.ToLower
              (take (length path)
                 (drop (length (parentCommands emptyContext) + 1)
                    ["exe"; "Has_Sub"; "CMD"; "x"]))) /\
  strings.ToLower <$>
    ["exe"; "Has_Sub"; "CMD"; "x"]
      !! (length (parentCommands {| parentCommands := ["has_sub"]; argFile := None;
                                    remainingArgs := ["x"] |}) + 1)%nat
  = Some (strings.ToLower (command_Name (sampleCommand "cmd" "cmd" 2))).
Proof.
  apply (Run_executes_the_named_command sampleTypes sampleFiles 3 nestedForest
           emptyContext _ emptyWorld emptyWorld ["exe"; "Has_Sub"; "CMD"; "x"]
           (sampleCommand "cmd" "cmd" 2) (StructFlags ∅)).
  - right. repeat constructor.
  - vm_compute. reflexivity.
Defined.

(** ** The environment entries of an argument file *)

(** X17.  The entries are applied in order: after the entries before it, an
    entry [key=value] (the key free of [=]) sets the key to the value
    expanded in the environment those entries left; when the assignment
    fails (an empty key, a NUL byte) the loading stops with an error that
    names the entry, the earlier entries stay applied and the later ones are
    not looked at. *)
Theorem applyEnv_in_order (e e1 : os.environ) (pre post : list string) (k v : string) :
  applyEnv e pre = Ok (e1, None) ->
  strings.ContainsByte k "=" = false ->
  applyEnv e (pre ++ (k ++ "=" ++ v) :: post)
  = match os.Setenv e1 k (os.ExpandEnv e1 v) with
    | Some e2 => applyEnv e2 post
    | None => Ok (e1, Some (FailedToApply (k ++ "=" ++ v)))
    end.
Proof.
  intros Hpre Hk. rewrite (applyEnv_app _ _ _ _ Hpre). cbn [applyEnv].
  rewrite append_String, append_empty, (SplitN2_at_separator _ _ _ Hk). reflexivity.
Qed.

Lemma applyEnv_in_order_witness :
  applyEnv ∅ (["b=1"] ++ ("x" ++ "=" ++ "a$b") :: ["=bad"; "y=2"])
  = match os.Setenv {[ "b" := "1" ]} "x" (os.ExpandEnv {[ "b" := "1" ]} "a$b") with
    | Some e2 => applyEnv e2 ["=bad"; "y=2"]
    | None => Ok ({[ "b" := "1" ]}, Some (FailedToApply ("x" ++ "=" ++ "a$b")))
    end.
Proof.
  apply applyEnv_in_order; vm_compute; reflexivity.
Defined.

(** X18.  Applying the entries changes no variable but those the entries
    name before their first [=]: every other variable of the process
    environment keeps its value, whether the loading succeeds or stops with
    an error. *)
Theorem applyEnv_changes_named_variables_only (entries : list string) (k : string) :
  forall (e e' : os.environ) (err : option RunError),
  applyEnv e entries = Ok (e', err) ->
  Forall (fun entry => head (strings.SplitN2 entry "=") <> Some k) entries ->
  e' !! k = e !! k.
Proof.
  induction entries as [|entry entries IH]; intros e e' err; cbn [applyEnv].
  - intros [= <- _] _. reflexivity.
  - intros H Hno. apply Forall_cons in Hno as [Hentry Hno].
    destruct (strings.SplitN2 entry "=") as [|key [|v t]]; try discriminate.
    unfold os.Setenv in H.
    destruct (String.eqb key "" || strings.ContainsByte key "="
              || strings.ContainsByte key os.NUL
              || strings.ContainsByte (os.ExpandEnv e v) os.NUL).
    + injection H as <- _. reflexivity.
    + rewrite (IH _ _ _ H Hno). apply lookup_insert_ne.
      intros ->. apply Hentry. reflexivity.
Qed.

Lemma applyEnv_changes_named_variables_only_witness :
  ({[ "b" := "1"; "x" := "a1"; "HOME" := "/root" ]} : os.environ) !! "HOME"
  = ({[ "HOME" := "/root" ]} : os.environ) !! "HOME".
Proof.
  apply (applyEnv_changes_named_variables_only ["b=1"; "x=a$b"] "HOME"
           {[ "HOME" := "/root" ]} _ None).
  - vm_compute. reflexivity.
  - repeat constructor; discriminate.
Defined.

(** ** Arguments of an argument file *)

Lemma expandLoop_no_dollar (fuel : nat) (e : os.environ) :
  forall s, strings.ContainsByte s "$" = false -> os.expandLoop fuel e s = s.
Proof.
  induction fuel as [|fuel IH]; intros s Hs; [reflexivity|].
  destruct s as [|c r]; [reflexivity|]. cbn [strings.ContainsByte] in Hs.
  apply orb_false_iff in Hs as [Hc Hr]. cbn [os.expandLoop].
  rewrite Hc. cbn [andb]. rewrite (IH r Hr). reflexivity.
Qed.

Lemma ExpandEnv_plain_tokens (e : os.environ) (l : list string) :
  Forall (fun a => strings.ContainsByte a "$" = false) l ->
  map (os.ExpandEnv e) l = l.
Proof.
  induction 1 as [|a l Ha _ IH]; [reflexivity|]. cbn [map].
  rewrite IH. f_equal. apply expandLoop_no_dollar. exact Ha.
Qed.

(** X19.  An argument file without environment entries whose arguments hold
    no [$] is spliced in as it is: the rewritten vector is the tokens up to
    the parent path, the file's command, the file's arguments unchanged, and
    the tokens that followed the [@file] token; the environment is not
    changed and the context holds the file. *)
Theorem mergeArgsFileArgs_plain_file (files : string -> fileResult) (filename : string)
    (ctx : Context) (w : World) (args : list string) (af : ArgFile) :
  files filename = Decoded af ->
  Env af = [] ->
  Forall (fun a => strings.ContainsByte a "$" = false) (Args af) ->
  mergeArgsFileArgs files filename ctx w args
  = Ok ({| environ := environ w; reads := filename :: reads w |},
        inr ((take (length (parentCommands ctx) + 1) args ++ Command af ++ Args af
              ++ drop (length (parentCommands ctx) + 2) args)%list,
             withArgFile ctx af)).
Proof.
  intros Hfile Henv Hargs. unfold mergeArgsFileArgs. rewrite Hfile, Henv.
  cbn [applyEnv mbind result_bind environ reads parentCommands withArgFile].
  rewrite (ExpandEnv_plain_tokens _ _ Hargs). reflexivity.
Qed.

Lemma mergeArgsFileArgs_plain_file_witness :
  mergeArgsFileArgs plainFiles "plain.json" emptyContext emptyWorld
    ["exe"; "@plain.json"; "tail"]
  = Ok ({| environ := environ emptyWorld; reads := "plain.json" :: reads emptyWorld |},
        inr ((take (length (parentCommands emptyContext) + 1) ["exe"; "@plain.json"; "tail"]
              ++ Command {| Command := ["cmd"]; Args := ["--flag=v"; "rest"]; Env := [] |}
              ++ Args {| Command := ["cmd"]; Args := ["--flag=v"; "rest"]; Env := [] |}
              ++ drop (length (parentCommands emptyContext) + 2)
                   ["exe"; "@plain.json"; "tail"])%list,
             withArgFile emptyContext
               {| Command := ["cmd"]; Args := ["--flag=v"; "rest"]; Env := [] |})).
Proof.
  apply mergeArgsFileArgs_plain_file;
    [reflexivity | reflexivity | repeat constructor].
Defined.

(** ** Tokens left by parsing *)

Lemma Parse_rest_bounded (k : nat) :
  forall (fs fs' : flag.FlagSet) (args rest : list string),
  (length args <= k)%nat ->
  flag.Parse fs args = inr (fs', rest) ->
  exists j, rest = drop j args.
Proof.
  induction k as [|k IH]; intros fs fs' args rest Hlen.
  - destruct args; [|cbn in Hlen; lia]. cbn. intros [= _ <-]. exists 0%nat. reflexivity.
  - destruct args as [|s args]; [cbn; intros [= _ <-]; exists 0%nat; reflexivity|].
    cbn [flag.Parse]. cbn in Hlen.
    destruct (flag.classify s) as [ | | |m hv]; try discriminate.
    + intros [= _ <-]. exists 0%nat. reflexivity.
    + intros [= _ <-]. exists 1%nat. reflexivity.
    + destruct (fs !! m) as [fl|].
      2:{ destruct (String.eqb m "help" || String.eqb m "h"); discriminate. }
      assert (Hstep : forall fl' args' d,
        (length args' <= k)%nat -> drop d (s :: args) = args' ->
        flag.Parse (<[m := fl']> fs) args' = inr (fs', rest) ->
        exists j, rest = drop j (s :: args)).
      { intros fl' args' d Hl Hd HP. destruct (IH _ _ _ _ Hl HP) as [j ->].
        exists (d + j)%nat. rewrite <- Hd, drop_drop. reflexivity. }
      destruct (flag.IsBoolFlag fl).
      * destruct (flag.Set_ fl (default "true" hv)); [|discriminate].
        apply (Hstep _ _ 1%nat); [lia | reflexivity].
      * destruct hv as [v|].
        -- destruct (flag.Set_ fl v); [|discriminate].
           apply (Hstep _ _ 1%nat); [lia | reflexivity].
        -- destruct args as [|v args']; [discriminate|].
           destruct (flag.Set_ fl v); [|discriminate].
           apply (Hstep _ _ 2%nat); [cbn in Hlen; lia | reflexivity].
Qed.

(** X20.  The tokens that [UnmarshalFlags] returns are a tail of the tokens
    it was given: parsing consumes tokens from the front only, and returns
    what is left in order. *)
Theorem UnmarshalFlags_returns_a_tail (rev : revision) (types : reflect.Types)
    (environ : os.environ) (defaultsT : reflect.Kind) (defaults : reflect.Record_)
    (args : list string) (focusT : option reflect.Kind) (focus : reflect.Record_) :
  match UnmarshalFlags rev types environ defaultsT defaults args focusT focus with
  | Ok (inr (_, rest)) => exists j, rest = drop j args
  | _ => True
  end.
Proof.
  unfold UnmarshalFlags.
  destruct (collectStructFlags rev types environ defaults (walkFuel types) emptyWalk
              EmptyString defaultsT focusT []) as [w| |]; cbn; try exact I.
  destruct (flag.Parse (flagSet w) args) as [err|[fs' rest]] eqn:HP; [exact I|].
  destruct (runSets fs' focus (reverse (collected w))) as [focus'| |]; cbn; try exact I.
  apply (Parse_rest_bounded (length args) _ _ _ _ (le_n _) HP).
Qed.

(** ** The order in which the closures run *)





(** ** The fields of the collected descriptors *)

Section WalkerTargets.

Variable rev : revision.
Variable types : reflect.Types.
Variable environ : os.environ.
Variable defaults : reflect.Record_.

Lemma addsUnder_nothing (w : walk) (p : list nat) (i : nat) : addsUnder w w p i.
Proof.
  exists []. rewrite app_nil_r. repeat split; constructor.
Qed.

Lemma under_apart (p : list nat) (i : nat) (f g : flagInfo) :
  (exists rest, target f = Some (p ++ i :: rest)%list) -> under p (S i) g ->
  target f <> target g.
Proof.
  intros (r1 & H1) (j & r2 & Hj & H2). rewrite H1, H2. intros [= He].
  apply app_inv_head in He. injection He as He _. lia.
Qed.

Lemma collectField_targets
    (rec : walk -> string -> reflect.Kind -> option reflect.Kind -> list nat -> result walk)
    (w w' : walk) (prefix : string) (p : list nat) (i : nat) (f : reflect.StructField) :
  (forall w prefix t ft p w', rec w prefix t ft p = Ok w' -> addsUnder w w' p 0) ->
  collectField rev environ defaults rec w prefix p i f = Ok w' ->
  exists new, collected w' = (collected w ++ new)%list /\
    NoDup (map target new) /\
    Forall (fun g => exists rest, target g = Some (p ++ i :: rest)%list) new.
Proof.
  intros Hrec H1.
  assert (Hsame : w' = w -> exists new, collected w' = (collected w ++ new)%list /\
            NoDup (map target new) /\
            Forall (fun g => exists rest, target g = Some (p ++ i :: rest)%list) new).
  { intros ->. exists []. rewrite app_nil_r. repeat split; constructor. }
  assert (Hreg : forall info v s,
            (s = setString (p ++ [i]) \/ s = setBool (p ++ [i]) \/ s = setInt (p ++ [i]) \/
             (exists a, s = setMap (p ++ [i]) a) \/ (exists a, s = setSlice (p ++ [i]) a))%list ->
            register w info v s = Ok w' ->
            exists new, collected w' = (collected w ++ new)%list /\
              NoDup (map target new) /\
              Forall (fun g => exists rest, target g = Some (p ++ i :: rest)%list) new).
  { intros info v s Hs. unfold register.
    destruct (flag.Var (flagSet w) (name info) v); [|discriminate]. intros [= <-].
    eexists. split; [reflexivity|]. split.
    - apply NoDup_singleton.
    - constructor; [|constructor]. exists []. unfold target. cbn [set].
      destruct Hs as [-> | [-> | [-> | [[a ->] | [a ->]]]]]; reflexivity. }
  assert (Hnest : forall pre t, rec w pre t (Some t) (p ++ [i])%list = Ok w' ->
            exists new, collected w' = (collected w ++ new)%list /\
              NoDup (map target new) /\
              Forall (fun g => exists rest, target g = Some (p ++ i :: rest)%list) new).
  { intros pre t Hr. destruct (Hrec _ _ _ _ _ _ Hr) as (new & Hc & Hnd & Hu).
    exists new. repeat split; [exact Hc | exact Hnd |].
    eapply Forall_impl; [exact Hu|]. intros g (j & rest & _ & Hg).
    exists (j :: rest). rewrite Hg, <- app_assoc. reflexivity. }
  unfold collectField in H1.
  destruct (readFlagInfo rev f prefix) as [info|]; [|injection H1 as <-; auto].
  destruct (skipped rev info); [injection H1 as <-; auto|].
  destruct (reflect.Type_ f) as [ | | | |ks a|a|t|t| ];
    try (injection H1 as <-; auto; fail);
    try (eapply Hnest; exact H1).
  - eapply Hreg; [|exact H1]. auto.
  - eapply Hreg; [|exact H1]. auto.
  - eapply Hreg; [|exact H1]. auto.
  - destruct ks; cbn [negb] in H1; [|injection H1 as <-; auto].
    eapply Hreg; [|exact H1]. eauto 6.
  - eapply Hreg; [|exact H1]. eauto 6.
Qed.

Lemma collectFields_targets
    (rec : walk -> string -> reflect.Kind -> option reflect.Kind -> list nat -> result walk)
    (fs : list reflect.StructField) :
  (forall w prefix t ft p w', rec w prefix t ft p = Ok w' -> addsUnder w w' p 0) ->
  forall (w w' : walk) (prefix : string) (p : list nat) (i : nat),
  collectFields rev environ defaults rec w prefix p i fs = Ok w' -> addsUnder w w' p i.
Proof.
  intros Hrec. induction fs as [|f fs IH]; intros w w' prefix p i; cbn [collectFields].
  - intros [= <-]. apply addsUnder_nothing.
  - destruct (collectField rev environ defaults rec w prefix p i f) as [w1| |] eqn:H1;
      cbn; try discriminate.
    intros H2. destruct (IH _ _ _ _ _ H2) as (new2 & Hc2 & Hnd2 & Hu2).
    destruct (collectField_targets _ _ _ _ _ _ _ Hrec H1) as (new1 & Hc1 & Hnd1 & Hu1).
    exists (new1 ++ new2)%list. split; [rewrite Hc2, Hc1, app_assoc; reflexivity|]. split.
    + rewrite map_app. apply NoDup_app. split; [exact Hnd1|]. split; [|exact Hnd2].
      intros x Hx1 Hx2.
      apply list_elem_of_fmap in Hx1 as (g1 & -> & Hg1).
      apply list_elem_of_fmap in Hx2 as (g2 & He & Hg2).
      rewrite Forall_forall in Hu1, Hu2.
      exact (under_apart p i g1 g2 (Hu1 _ Hg1) (Hu2 _ Hg2) He).
    + apply Forall_app. split.
      * eapply Forall_impl; [exact Hu1|]. intros g (rest & Hg). exists i, rest. auto.
      * eapply Forall_impl; [exact Hu2|]. intros g (j & rest & Hj & Hg).
        exists j, rest. split; [lia | exact Hg].
Qed.

Lemma walker_targets (fuel : nat) :
  forall (w : walk) (prefix : string) (t : reflect.Kind) (ft : option reflect.Kind)
         (p : list nat) (w' : walk),
  collectStructFlags rev types environ defaults fuel w prefix t ft p = Ok w' ->
  addsUnder w w' p 0.
Proof.
  induction fuel as [|fuel IH]; intros w prefix t ft p w'; cbn [collectStructFlags];
    [discriminate|].
  destruct (negb (bool_decide (ft = Some t))); [discriminate|].
  destruct (bool_decide (t ∈ seen w)); [discriminate|].
  destruct t as [ | | | | | |n| | ]; try discriminate.
  match goal with
  | |- context [collectFields _ _ _ _ ?w1 _ _ _ _] => set (w1' := w1)
  end.
  destruct (collectFields rev environ defaults _ w1' prefix p 0 (reflect.fields types n))
    as [w2| |] eqn:H2; cbn; try discriminate.
  intros [= <-]. apply (collectFields_targets _ _ IH _ _ _ _ _ H2).
Qed.

(** X22.  No two descriptors that a walk collects write the same field, and
    every one of them writes a field of the record the walk started in or
    of a record nested in it. *)
Theorem collected_fields_are_distinct (fuel : nat) (w : walk) (prefix : string)
    (t : reflect.Kind) (ft : option reflect.Kind) (p : list nat) :
  collectStructFlags rev types environ defaults fuel emptyWalk prefix t ft p = Ok w ->
  NoDup (map target (collected w)) /\
  Forall (fun f => exists rest, target f = Some (p ++ rest)%list /\ rest <> []) (collected w).
Proof.
  intros H. destruct (walker_targets _ _ _ _ _ _ _ H) as (new & Hc & Hnd & Hu).
  cbn in Hc. rewrite <- Hc in Hnd, Hu. split; [exact Hnd|].
  eapply Forall_impl; [exact Hu|]. intros g (j & rest & _ & Hg).
  exists (j :: rest). split; [exact Hg | discriminate].
Qed.


End WalkerTargets.

Lemma collected_fields_are_distinct_witness :
  NoDup (map target (collected (walked
    (collectStructFlags Earlier sampleTypes ∅ ∅ (walkFuel sampleTypes) emptyWalk
       EmptyString (reflect.Struct "Flags") (Some (reflect.Struct "Flags")) [])))) /\
  Forall (fun f => exists rest, target f = Some ([] ++ rest)%list /\ rest <> [])
    (collected (walked
      (collectStructFlags Earlier sampleTypes ∅ ∅ (walkFuel sampleTypes) emptyWalk
         EmptyString (reflect.Struct "Flags") (Some (reflect.Struct "Flags")) []))).
Proof.
  apply (collected_fields_are_distinct Earlier sampleTypes ∅ ∅ (walkFuel sampleTypes) _
           EmptyString (reflect.Struct "Flags") (Some (reflect.Struct "Flags")) []).
  vm_compute. reflexivity.
Defined.


(** ** Tokens left for the handler *)

Lemma fillArgs_rest (fields : list reflect.StructField) (total : nat)
    (names : list string) :
  forall (focus focus' : reflect.Record_) (pos : nat) (args rest : list string),
  fillArgs fields total names focus pos args = Ok (focus', rest) ->
  exists j, rest = drop j args.
Proof.
  induction names as [|argName names IH]; intros focus focus' pos args rest;
    cbn [fillArgs].
  - intros [= _ <-]. eauto.
  - destruct ((total <=? pos) || (length args <=? pos))%nat; [intros [= _ <-]; eauto|].
    destruct (findPositional fields 0 argName) as [|i|i a].
    + intros [= _ <-]. eauto.
    + destruct (args !! pos); [|discriminate]. apply IH.
    + destruct a; [|discriminate]. intros [= _ <-].
      exists (length args). rewrite drop_all. reflexivity.
Qed.

Lemma UnmarshalFlags_rest (rev : revision) (types : reflect.Types)
    (environ : os.environ) (defaultsT : reflect.Kind) (defaults : reflect.Record_)
    (args rest : list string) (focusT : option reflect.Kind)
    (focus focus' : reflect.Record_) :
  UnmarshalFlags rev types environ defaultsT defaults args focusT focus
    = Ok (inr (focus', rest)) ->
  exists j, rest = drop j args.
Proof.
  unfold UnmarshalFlags.
  destruct (collectStructFlags rev types environ defaults (walkFuel types) emptyWalk
              EmptyString defaultsT focusT []) as [w| |]; cbn; try discriminate.
  destruct (flag.Parse (flagSet w) args) as [err|[fs' rest']] eqn:HP; [discriminate|].
  destruct (runSets fs' focus (reverse (collected w))) as [focus1| |]; cbn; try discriminate.
  intros [= _ <-]. apply (Parse_rest_bounded (length args) _ _ _ _ (le_n _) HP).
Qed.

(** X24.  What [parseCommandFlags] returns as remaining tokens, which the
    handler later reads with [GetRemainingArgs], is a tail of the command's
    arguments: flags and positional arguments are taken from the front, and
    no token is reordered, repeated or made up. *)
Theorem parseCommandFlags_remaining_is_a_tail (types : reflect.Types)
    (environ : os.environ) (commandFlags : option (reflect.Kind * reflect.Record_))
    (positionalArgs commandArgs : list string) :
  match parseCommandFlags types environ commandFlags positionalArgs commandArgs with
  | Ok (inr (remaining, _)) => exists j, remaining = drop j commandArgs
  | _ => True
  end.
Proof.
  unfold parseCommandFlags.
  assert (Hnil : exists j, @nil string = drop j commandArgs).
  { exists (length commandArgs). rewrite drop_all. reflexivity. }
  destruct commandFlags as [[ft defaults]|]; [|exact Hnil].
  destruct ft as [ | | | |ks a|a|n|n| ]; try exact I; try exact Hnil.
  destruct (UnmarshalFlags Later types environ (reflect.Struct n) defaults commandArgs
              (Some (reflect.Struct n)) ∅) as [[err|[focus remaining]]| |] eqn:HU;
    cbn; try exact I.
  unfold fillPositionalArgs.
  destruct (fillArgs (reflect.fields types n) (length positionalArgs) positionalArgs
              focus 0 remaining) as [[focus' remaining']| |] eqn:HF; cbn; try exact I.
  destruct (UnmarshalFlags_rest _ _ _ _ _ _ _ _ _ _ HU) as [j ->].
  destruct (fillArgs_rest _ _ _ _ _ _ _ _ HF) as [k ->].
  exists (j + k)%nat. rewrite drop_drop. reflexivity.
Qed.
